(** * shaderdev: the OBJ ingestion pipeline and the shader program

    A shallow embedding of [internal/obj/obj.go] (the line parser with its
    two entry points [Decode] and [Stream]) and of the vertex
    de-duplication loop of [loadModel] in the main package, followed by the
    properties of the pipeline that the specification states; then of
    the helpers of [internal/gx] and of [program.go], with the
    properties of the reloading of shaders.

    Conventions of the embedding.
    - A Go [string] is a byte string: [String.string].
    - A Go [int] is a 64-bit two's complement integer, carried in [Z] with
      the wrap-around of every addition and subtraction written out
      ([wrap_int]); [uint32] conversions are written [to_uint32].
    - A function returning [(T, error)] returns a pair [T * option error];
      [None] is Go's [nil] error.
    - Run-time panics (index out of range, call of a nil function value,
      an explicit [panic]) are the [Panic] case of [outcome].
    - Each constructor of [error] stands for one [fmt.Errorf] format string
      of the source, with the formatted operands as arguments.
    - A [*shader] is an address of a heap of shaders, since the two maps
      of the program share them. The calls to OpenGL, to the file system,
      to the logger and to the imported package [gx] of [program.go] are
      recorded in the order they are made; what they answer is given by
      a [world], which sees the calls made before. *)

From Stdlib Require Import ZArith Lia List String Ascii Bool.
From stdpp Require Import base option list gmap strings.

Import ListNotations.
Local Open Scope string_scope.
Local Open Scope list_scope.
Local Open Scope Z_scope.

(** ** Machine integers *)

Definition int_bits : Z := 64.
Definition min_int : Z := - 2 ^ (int_bits - 1).
Definition max_int : Z := 2 ^ (int_bits - 1) - 1.

(** Two's complement wrap-around of a Go [int]. *)
Definition wrap_int (z : Z) : Z :=
  (z + 2 ^ (int_bits - 1)) mod 2 ^ int_bits - 2 ^ (int_bits - 1).

(** The conversion [uint32(x)]. *)
Definition to_uint32 (z : Z) : Z := z mod 2 ^ 32.

(** [len(s)] of a slice, as an [int]. *)
Definition len {A : Type} (l : list A) : Z := Z.of_nat (length l).

Arguments len {A} !l /.

(** ** Panics and results *)

Inductive panic : Type :=
| IndexOutOfRange (i : Z) (n : Z)      (* runtime error: index out of range [i] with length n *)
| NilDereference                          (* invalid memory address or nil pointer dereference *)
| ExplicitPanic (msg : string).        (* panic(msg) *)

Inductive outcome (A : Type) : Type :=
| Ret (a : A)
| Panic (p : panic).

Arguments Ret {A} a.
Arguments Panic {A} p.

Definition bind {A B : Type} (m : outcome A) (k : A -> outcome B) : outcome B :=
  match m with
  | Ret a => k a
  | Panic p => Panic p
  end.

Notation "'do' x <- m ; k" := (bind m (fun x => k))
  (at level 10, x name, m at level 100, k at level 200).

(** [s[i]] on a slice. *)
Definition index {A : Type} (l : list A) (i : Z) : outcome A :=
  if (0 <=? i) && (i <? len l) then
    match l !! Z.to_nat i with
    | Some a => Ret a
    | None => Panic (IndexOutOfRange i (len l))
    end
  else Panic (IndexOutOfRange i (len l)).

(** ** Errors *)

(** [strconv.NumError.Err]: [ErrSyntax] or [ErrRange]. *)
Inductive numErr : Type := ErrSyntax | ErrRange.

(** The attribute slot of a face vertex: [const ( P = iota; T; N )]. *)
Module Att.
Inductive t : Type := P | T | N.
End Att.

Inductive elemName : Type := NameV | NameVT | NameVN | NameF.

Inductive vertexMsg : Type :=
| TooManyAttributes   (* vertices cannot have more than three attributes *)
| AttributeCount      (* all vertices must have the same number of attributes *)
| TextureElision.     (* all texture indices must be present or elided *)

Inductive error : Type :=
| ErrNum (fn : string) (s : string) (e : numErr)  (* *strconv.NumError *)
| ErrZeroIndex                                    (* 0 is not a valid index *)
| ErrTooNegative (attIdx : Z)   (* relative index %v does not resolve to an attribute (i.e. too negative) *)
| ErrTooLarge                   (* index %v does not resolve to an attribute (i.e. too large), no operand *)
| ErrVertexMsg (i : nat) (vertex : list string) (m : vertexMsg)   (* vertex %v:%s: <m> *)
| ErrVertex (i : nat) (vertex : list string) (e : error)          (* vertex %v:%s: %v *)
| ErrVertexAtt (i : nat) (vertex : list string) (a : Att.t) (e : error) (* vertex %v:%s:v-index: %v *)
| ErrFieldCount (line : nat) (el : elemName)      (* %v: v requires 3 or 4 values, ... *)
| ErrLine (line : nat) (e : error)                (* %v: %v *)
| ErrRead (code : nat)                            (* scanner.Err() *)
| ErrOpen (code : nat).                           (* the error of os.Open *)

(** ** Strings: the library calls of the parser *)

Definition is_ascii_space (c : ascii) : bool :=
  match c with
  | "009"%char | "010"%char | "011"%char | "012"%char | "013"%char | " "%char => true
  | _ => false
  end.

(** [unicode.IsSpace] on the UTF-8 text [s]: the number of bytes of the
    white-space rune that [s] starts with, and 0 when it starts with
    none. The white-space runes are ['\t', '\n', '\v', '\f', '\r', ' '],
    U+0085 and U+00A0 (bytes C2 85 and C2 A0), U+1680 (E1 9A 80),
    U+2000 to U+200A (E2 80 80 to E2 80 8A), U+2028, U+2029 and U+202F
    (E2 80 A8, E2 80 A9, E2 80 AF), U+205F (E2 81 9F) and U+3000
    (E3 80 80).

    Looking for these byte sequences is what decoding the runes gives:
    the decoder of Go accepts the shortest encoding of a rune only, it
    steps over one byte when the bytes are no encoding, and the first
    byte of an encoding (C2, E1, E2, E3 here) is never a later byte of
    another, so every such byte is where a rune is decoded. *)
Definition spaceWidth (s : string) : nat :=
  match s with
  | EmptyString => 0%nat
  | String c s1 =>
      if is_ascii_space c then 1%nat
      else
        match c, s1 with
        | "194"%char, String d _ =>
            match d with
            | "133"%char | "160"%char => 2%nat
            | _ => 0%nat
            end
        | "225"%char, String "154"%char (String "128"%char _) => 3%nat
        | "226"%char, String "128"%char (String e _) =>
            if ((128 <=? nat_of_ascii e) && (nat_of_ascii e <=? 138))%nat then 3%nat
            else
              match e with
              | "168"%char | "169"%char | "175"%char => 3%nat
              | _ => 0%nat
              end
        | "226"%char, String "129"%char (String "159"%char _) => 3%nat
        | "227"%char, String "128"%char (String "128"%char _) => 3%nat
        | _, _ => 0%nat
        end
  end.

(** [strings.Fields]: the maximal runs of bytes between white-space
    runes. [cur] is the run being read, reversed; [skip] counts the
    bytes still to pass of the white-space rune being read. *)
Fixpoint fields_aux (skip : nat) (cur : list ascii) (s : string) : list string :=
  let flush := match cur with
               | [] => []
               | _ => [string_of_list_ascii (rev cur)]
               end in
  match s with
  | EmptyString => flush
  | String c s' =>
      match skip with
      | S k => fields_aux k cur s'
      | O =>
          match spaceWidth s with
          | O => fields_aux 0 (c :: cur) s'
          | S k => flush ++ fields_aux k [] s'
          end
      end
  end.

Definition Fields (s : string) : list string := fields_aux 0 [] s.

(** [strings.Split(s, sep)] for a one-byte separator: always at least
    one piece. *)
Fixpoint split_aux (sep : ascii) (cur : list ascii) (s : string) : list string :=
  match s with
  | EmptyString => [string_of_list_ascii (rev cur)]
  | String c s' =>
      if Ascii.eqb c sep then string_of_list_ascii (rev cur) :: split_aux sep [] s'
      else split_aux sep (c :: cur) s'
  end.

Definition Split (s : string) (sep : ascii) : list string := split_aux sep [] s.

(** [strings.HasPrefix(s, "#")]. *)
Definition HasPrefix (s : string) (c : ascii) : bool :=
  match s with
  | String c' _ => Ascii.eqb c' c
  | EmptyString => false
  end.

(** [len(s)] of a string. *)
Definition slen (s : string) : Z := Z.of_nat (String.length s).

Arguments slen !s /.

(** The value of a decimal digit. *)
Definition digit (c : ascii) : option Z :=
  let n := Z.of_nat (nat_of_ascii c) in
  if (48 <=? n) && (n <=? 57) then Some (n - 48) else None.

(** The loop of [strconv.ParseUint(s, 10, 32)] over the bytes of [s],
    from the value [n] read so far. A byte that is no decimal digit is a
    syntax error; a digit that takes the value past [maxVal = 1<<32 - 1]
    is a range error, returned at that digit without the rest being
    read. (The test [n >= cutoff] before the multiplication guards
    [uint64]; with [n <= maxVal] it never holds.) *)
Fixpoint digits (n : Z) (s : string) : Z + numErr :=
  match s with
  | EmptyString => inl n
  | String c s' =>
      match digit c with
      | None => inr ErrSyntax
      | Some d =>
          let n1 := 10 * n + d in
          if n1 >? 2 ^ 32 - 1 then inr ErrRange
          else digits n1 s'
      end
  end.

(** [strconv.ParseInt(s, 10, 32)]: an optional sign, then one or more
    decimal digits read by [ParseUint]; its syntax error is returned as
    it is, and after its range error, which leaves the largest value,
    as after any value, the range of 32 signed bits is checked. *)
Definition ParseInt32 (s : string) : Z + numErr :=
  match s with
  | EmptyString => inr ErrSyntax
  | String c rest =>
      let '(neg, body) :=
        if Ascii.eqb c "+" then (false, rest)
        else if Ascii.eqb c "-" then (true, rest)
        else (false, s) in
      match body with
      | EmptyString => inr ErrSyntax
      | _ =>
          match digits 0 body with
          | inr ErrSyntax => inr ErrSyntax
          | r =>
              let un := match r with
                        | inl un => un
                        | inr _ => 2 ^ 32 - 1
                        end in
              let cutoff := 2 ^ 31 in
              if negb neg && (cutoff <=? un) then inr ErrRange
              else if neg && (cutoff <? un) then inr ErrRange
              else inl (if neg then - un else un)
          end
      end
  end.

(** ** Element classification *)

Inductive elem : Type := comElem | posElem | texElem | norElem | facElem | errElem.

Definition toElem (s : string) : elem :=
  if HasPrefix s "#" then comElem
  else if String.eqb s "v" then posElem
  else if String.eqb s "vt" then texElem
  else if String.eqb s "vn" then norElem
  else if String.eqb s "f" then facElem
  else errElem.

(** ** Index parsing and resolution *)

Definition toIndex (s : string) : Z * option error :=
  match ParseInt32 s with
  | inr e => (0, Some (ErrNum "ParseInt" s e))
  | inl val =>
      if val =? 0 then (0, Some ErrZeroIndex)
      else (val, None)
  end.

Definition adjustIndex (attIdx attLen : Z) : Z * option error :=
  let res := attIdx in
  let step :=
    if res <? 0 then
      let res := wrap_int (res + attLen) in
      if res <? 0 then inr (ErrTooNegative attIdx) else inl res
    else inl (wrap_int (res - 1)) in
  match step with
  | inr e => (0, Some e)
  | inl res =>
      if res >? attLen then (0, Some ErrTooLarge)
      else (res, None)
  end.

(** ** The document *)

(** One face vertex, [[3]int]: position, texcoord and normal index. *)
Abbreviation vtx := (Z * Z * Z)%type.

(** One face, [[3][3]int]. *)
Abbreviation face := (vtx * vtx * vtx)%type.

Definition zero_vtx : vtx := (0, 0, 0).
Definition zero_face : face := (zero_vtx, zero_vtx, zero_vtx).

Definition vget (a : Att.t) (v : vtx) : Z :=
  let '(p, t, n) := v in
  match a with Att.P => p | Att.T => t | Att.N => n end.

Definition vset (a : Att.t) (x : Z) (v : vtx) : vtx :=
  let '(p, t, n) := v in
  match a with Att.P => (x, t, n) | Att.T => (p, x, n) | Att.N => (p, t, x) end.

(** [fc[i]] and [fc[i] = v]; every [i] of the source ranges over the three
    indices of the array, so the last case of each is never reached. *)
Definition fget (i : nat) (fc : face) : vtx :=
  let '(a, b, c) := fc in
  match i with 0%nat => a | 1%nat => b | _ => c end.

Definition fset (i : nat) (v : vtx) (fc : face) : face :=
  let '(a, b, c) := fc in
  match i with
  | 0%nat => (v, b, c)
  | 1%nat => (a, v, c)
  | 2%nat => (a, b, v)
  | _ => fc
  end.

(** [fc[i][a] = x]. *)
Definition fupd (i : nat) (a : Att.t) (x : Z) (fc : face) : face :=
  fset i (vset a x (fget i fc)) fc.

(** The vertices of a face in the order of [range]. *)
Definition verts (fc : face) : list vtx :=
  let '(a, b, c) := fc in [a; b; c].

(** [type Obj struct]; a [[4]float32] or [[3]float32] is a list of that
    length. *)
Record Obj (F : Type) : Type := mkObj {
  Pos : list (list F);
  Tex : list (list F);
  Nor : list (list F);
  Face : list face
}.

Arguments mkObj {F} Pos Tex Nor Face.
Arguments Pos {F} o.
Arguments Tex {F} o.
Arguments Nor {F} o.
Arguments Face {F} o.

(** The zero value [var o Obj]. *)
Definition emptyObj {F : Type} : Obj F := mkObj [] [] [] [].

(** [func (o *Obj) VertPos(face, vertex int) *[4]float32] and its two
    siblings; the element that the returned pointer refers to. *)
Definition VertPos {F : Type} (o : Obj F) (face vertex : Z) : outcome (list F) :=
  do fc <- index (Face o) face;
  do v <- index (verts fc) vertex;
  let i := vget Att.P v in
  index (Pos o) i.

Definition VertTex {F : Type} (o : Obj F) (face vertex : Z) : outcome (list F) :=
  do fc <- index (Face o) face;
  do v <- index (verts fc) vertex;
  let i := vget Att.T v in
  index (Tex o) i.

Definition VertNor {F : Type} (o : Obj F) (face vertex : Z) : outcome (list F) :=
  do fc <- index (Face o) face;
  do v <- index (verts fc) vertex;
  let i := vget Att.N v in
  index (Nor o) i.

(** ** Loops and early returns *)

(** A statement that may return an error early: the state it leaves and
    the error it returns, if any. *)
Abbreviation stmt St := (outcome (St * option error)%type).

(** Sequencing: the rest runs only when no error was returned. *)
Definition andThen {St St' : Type} (m : stmt St) (stop : St -> St')
    (k : St -> stmt St') : stmt St' :=
  do r <- m;
  match r with
  | (s, Some e) => Ret (stop s, Some e)
  | (s, None) => k s
  end.

(** [for i, x := range xs { body }], where [body] may return an error. *)
Fixpoint forRange {A St : Type} (body : nat -> A -> St -> stmt St)
    (i : nat) (xs : list A) (s : St) : stmt St :=
  match xs with
  | [] => Ret (s, None)
  | x :: xs' => andThen (body i x s) id (forRange body (S i) xs')
  end.

(** ** Decode: the face line *)

(** [fc[i][a], err = toIndex(vert[k]); if err != nil { return vertex i ... }] *)
Definition setIndex (i : nat) (vert : list string) (a : Att.t) (k : Z)
    (fc : face) : stmt face :=
  do s <- index vert k;
  let '(x, err) := toIndex s in
  Ret (fupd i a x fc, ErrVertex i vert <$> err).

(** The first loop of [addFace]: split each field on ["/"]. *)
Definition splitVertex (i : nat) (v : string) (vertices : list (list string))
    : stmt (list (list string)) :=
  let vertex := Split v "/" in
  let vertices := vertices ++ [vertex] in
  if len vertex >? 3 then Ret (vertices, Some (ErrVertexMsg i vertex TooManyAttributes))
  else Ret (vertices, None).

(** The body of the second loop of [addFace]: parse the indices of one
    vertex against the template of the first. *)
Definition parseVertex (numAtt : Z) (skipTex : bool) (i : nat) (vert : list string)
    (fc : face) : stmt face :=
  if negb (len vert =? numAtt) then Ret (fc, Some (ErrVertexMsg i vert AttributeCount))
  else
    andThen (setIndex i vert Att.P 0 fc) id (fun fc =>
      if numAtt =? 2 then setIndex i vert Att.T 1 fc
      else if numAtt =? 3 then
        andThen
          (if skipTex then
             do t <- index vert 1;
             if negb (slen t =? 0) then Ret (fc, Some (ErrVertexMsg i vert TextureElision))
             else Ret (fupd i Att.T 0 fc, None)
           else setIndex i vert Att.T 1 fc)
          id
          (fun fc => setIndex i vert Att.N 2 fc)
      else Ret (fc, None)).

(** [fc[i][a], err = adjustIndex(fc[i][a], attLen); if err != nil { ... }] *)
Definition adjustAtt (i : nat) (vert : list string) (a : Att.t) (attLen : Z)
    (fc : face) : stmt face :=
  let '(x, err) := adjustIndex (vget a (fget i fc)) attLen in
  Ret (fupd i a x fc, ErrVertexAtt i vert a <$> err).

(** The body of the third loop of [addFace]. *)
Definition adjustVertex {F : Type} (o : Obj F) (vertices : list (list string))
    (i : nat) (_ : vtx) (fc : face) : stmt face :=
  do vert <- index vertices (Z.of_nat i);
  andThen (adjustAtt i vert Att.P (len (Pos o)) fc) id (fun fc =>
  andThen (adjustAtt i vert Att.T (len (Tex o)) fc) id (fun fc =>
  adjustAtt i vert Att.N (len (Nor o)) fc)).

(** [o.Face[f] = fc] for the face [f] appended last. *)
Definition commit {F : Type} (o : Obj F) (fc : face) : Obj F :=
  mkObj (Pos o) (Tex o) (Nor o) (Face o ++ [fc]).

(** The closure [addFace] of [Decode]; the document it mutates is passed
    in and out. *)
Definition addFace {F : Type} (o : Obj F) (fields : list string) : stmt (Obj F) :=
  if negb (len fields =? 3) then
    Panic (ExplicitPanic "addFace: number of fields != 3")
  else
    andThen (forRange splitVertex 0 fields []) (fun _ => o) (fun vertices =>
      do v0 <- index vertices 0;
      let numAtt := len v0 in
      do skipTex <- (if numAtt =? 3 then do t <- index v0 1; Ret (slen t =? 0)
                 else Ret false);
      andThen (forRange (parseVertex numAtt skipTex) 0 vertices zero_face)
        (commit o) (fun fc =>
      andThen (forRange (adjustVertex o vertices) 0 (verts fc) fc)
        (commit o) (fun fc =>
      Ret (commit o fc, None)))).

(** ** The input stream *)

(** What [bufio.Scanner] with [bufio.ScanLines] delivers from the reader:
    the text of each line for which [Scan()] returned true, and the value
    of [Err()] once [Scan()] returned false. *)
Record scanner : Type := mkScanner {
  texts : list string;
  scanErr : option nat
}.

(** [for _, x := range xs { body }] where [body] cannot return early. *)
Fixpoint forEach {A St : Type} (body : A -> St -> outcome St)
    (xs : list A) (s : St) : outcome St :=
  match xs with
  | [] => Ret s
  | x :: xs' => do s' <- body x s; forEach body xs' s'
  end.

(** [arr[i] = x] on a fixed-size array. *)
Definition setAt {A : Type} (arr : list A) (i : nat) (x : A) : outcome (list A) :=
  if (i <? length arr)%nat then Ret (<[i := x]> arr)
  else Panic (IndexOutOfRange (Z.of_nat i) (len arr)).

(** A function value that may be nil, and its call. *)
Definition func (A : Type) : Type := option (A -> unit).

Definition call {A : Type} (f : func A) (x : A) : outcome unit :=
  match f with
  | Some g => Ret (g x)
  | None => Panic NilDereference
  end.

Section Parser.

(** [float32] and its two constants used by the parser; the library call
    [strconv.ParseFloat(v, 32)] followed by the conversion [float32(f)]. *)
Context {F : Type} (zero one : F).
Context (ParseFloat32 : string -> F + numErr).

(** [for i, v := range fields[1:] { f, err := strconv.ParseFloat(v, 32); ...;
    arr[i] = float32(f) }] *)
Definition parseFloats (line : nat) (vals : list string) (arr : list F)
    : stmt (list F) :=
  forRange (fun i v arr =>
    match ParseFloat32 v with
    | inr e => Ret (arr, Some (ErrLine line (ErrNum "ParseFloat" v e)))
    | inl f => do arr' <- setAt arr i f; Ret (arr', None)
    end) 0 vals arr.

(** *** Decode *)

(** The body of the scanning loop of [Decode] after [line++]. The
    advisory printed for an unsupported element is not modelled. *)
Definition decodeLine (o : Obj F) (line : nat) (text : string) : stmt (Obj F) :=
  let fields := Fields text in
  if len fields =? 0 then Ret (o, None)
  else
    do first <- index fields 0;
    match toElem first with
    | comElem => Ret (o, None)
    | posElem =>
        if (len fields <? 4) || (len fields >? 5) then
          Ret (o, Some (ErrFieldCount line NameV))
        else
          let add p := mkObj (Pos o ++ [p]) (Tex o) (Nor o) (Face o) in
          andThen (parseFloats line (drop 1 fields) (<[3%nat := one]> (replicate 4 zero)))
            add (fun p => Ret (add p, None))
    | texElem =>
        if (len fields <? 3) || (len fields >? 4) then
          Ret (o, Some (ErrFieldCount line NameVT))
        else
          let add t := mkObj (Pos o) (Tex o ++ [t]) (Nor o) (Face o) in
          andThen (parseFloats line (drop 1 fields) (replicate 3 zero))
            add (fun t => Ret (add t, None))
    | norElem =>
        if negb (len fields =? 4) then
          Ret (o, Some (ErrFieldCount line NameVN))
        else
          let add n := mkObj (Pos o) (Tex o) (Nor o ++ [n]) (Face o) in
          andThen (parseFloats line (drop 1 fields) (replicate 3 zero))
            add (fun n => Ret (add n, None))
    | facElem =>
        if negb (len fields =? 4) then
          Ret (o, Some (ErrFieldCount line NameF))
        else
          do r <- addFace o (drop 1 fields);
          Ret (r.1, ErrLine line <$> r.2)
    | errElem => Ret (o, None)
    end.

(** [for scanner.Scan() { line++; ... }]: the document and the error
    the loop returned with, if any. *)
Fixpoint decodeLoop (o : Obj F) (line : nat) (lines : list string) : stmt (Obj F) :=
  match lines with
  | [] => Ret (o, None)
  | text :: rest =>
      let line := S line in
      andThen (decodeLine o line text) id (fun o => decodeLoop o line rest)
  end.

(** [func Decode(r io.Reader)]: the pair it returns, a pointer to the
    document (or nil) and an error (or nil). *)
Definition Decode (r : scanner) : outcome (option (Obj F) * option error) :=
  do res <- decodeLoop emptyObj 0 (texts r);
  match res with
  | (_, Some e) => Ret (None, Some e)
  | (o, None) =>
      match scanErr r with
      | Some code => Ret (None, Some (ErrRead code))
      | None => Ret (Some o, None)
      end
  end.

(** *** Stream *)

(** The first loop of [parseFace]. *)
Definition splitVertexS (i : nat) (v : string) (vertices : list (list string))
    : stmt (list (list string)) :=
  let vertex := Split v "/" in
  if len vertex >? 3 then Ret (vertices, Some (ErrVertexMsg i vertex TooManyAttributes))
  else Ret (vertices ++ [vertex], None).

(** [vertex[a], err = toIndex(v[k]); if err != nil { return vertex i ... }] *)
Definition setIndexS (i : nat) (v : list string) (a : Att.t) (k : Z)
    (vertex : vtx) : stmt vtx :=
  do s <- index v k;
  let '(x, err) := toIndex s in
  Ret (vset a x vertex, ErrVertex i v <$> err).

(** The body of the second loop of [parseFace]; [vertex] is local to
    one iteration. *)
Definition checkVertex (numAtt : Z) (skipTex : bool) (i : nat) (v : list string)
    (_ : unit) : stmt unit :=
  let vertex := zero_vtx in
  if negb (len v =? numAtt) then Ret (tt, Some (ErrVertexMsg i v AttributeCount))
  else
    andThen (setIndexS i v Att.P 0 vertex) (fun _ => tt) (fun vertex =>
      if numAtt =? 2 then
        andThen (setIndexS i v Att.T 1 vertex) (fun _ => tt) (fun _ => Ret (tt, None))
      else if numAtt =? 3 then
        andThen
          (if skipTex then
             do t <- index v 1;
             if negb (slen t =? 0) then Ret (vertex, Some (ErrVertexMsg i v TextureElision))
             else Ret (vset Att.T 0 vertex, None)
           else setIndexS i v Att.T 1 vertex)
          (fun _ => tt)
          (fun vertex =>
             andThen (setIndexS i v Att.N 2 vertex) (fun _ => tt) (fun _ => Ret (tt, None)))
      else Ret (tt, None)).

(** [func parseFace(fields []string, _face *[][3]int) error]: the value
    of [*_face] when it returns, and the error. *)
Definition parseFace (fields : list string) (_face : list vtx) : stmt (list vtx) :=
  let face := _face in
  andThen (forRange splitVertexS 0 fields []) (fun _ => _face) (fun vertices =>
    do v0 <- index vertices 0;
    let numAtt := len v0 in
    do skipTex <- (if numAtt =? 3 then do t <- index v0 1; Ret (slen t =? 0)
                   else Ret false);
    andThen (forRange (checkVertex numAtt skipTex) 0 vertices tt)
      (fun _ => _face) (fun _ =>
    Ret (face, None))).

(** The body of the scanning loop of [Stream] after [line++]; the state
    is the variable [face] reused between iterations. *)
Definition streamLine (emitPos emitTex emitNor : func (list F))
    (emitFace : func (list vtx))
    (face : list vtx) (line : nat) (text : string) : stmt (list vtx) :=
  let fields := Fields text in
  if len fields =? 0 then Ret (face, None)
  else
    do first <- index fields 0;
    match toElem first with
    | comElem => Ret (face, None)
    | posElem =>
        if (len fields <? 4) || (len fields >? 5) then
          Ret (face, Some (ErrFieldCount line NameV))
        else
          andThen (parseFloats line (drop 1 fields) (<[3%nat := one]> (replicate 4 zero)))
            (fun _ => face) (fun pos => do _ <- call emitPos pos; Ret (face, None))
    | texElem =>
        if (len fields <? 3) || (len fields >? 4) then
          Ret (face, Some (ErrFieldCount line NameVT))
        else
          andThen (parseFloats line (drop 1 fields) (replicate 3 zero))
            (fun _ => face) (fun tex => do _ <- call emitTex tex; Ret (face, None))
    | norElem =>
        if negb (len fields =? 4) then
          Ret (face, Some (ErrFieldCount line NameVN))
        else
          andThen (parseFloats line (drop 1 fields) (replicate 3 zero))
            (fun _ => face) (fun nor => do _ <- call emitNor nor; Ret (face, None))
    | facElem =>
        if negb (len fields =? 4) then
          Ret (face, Some (ErrFieldCount line NameF))
        else
          do r <- parseFace (drop 1 fields) face;
          match r with
          | (face, Some e) => Ret (face, Some (ErrLine line e))
          | (face, None) => do _ <- call emitFace face; Ret (face, None)
          end
    | errElem => Ret (face, None)
    end.

Fixpoint streamLoop (emitPos emitTex emitNor : func (list F))
    (emitFace : func (list vtx))
    (face : list vtx) (line : nat) (lines : list string) : stmt (list vtx) :=
  match lines with
  | [] => Ret (face, None)
  | text :: rest =>
      let line := S line in
      andThen (streamLine emitPos emitTex emitNor emitFace face line text) id
        (fun face => streamLoop emitPos emitTex emitNor emitFace face line rest)
  end.

(** [func Stream(r io.Reader) error]: the four sinks are declared and
    left at their zero value, nil. *)
Definition Stream (r : scanner) : outcome (option error) :=
  let emitPos : func (list F) := None in
  let emitNor : func (list F) := None in
  let emitTex : func (list F) := None in
  let emitFace : func (list vtx) := None in
  do res <- streamLoop emitPos emitTex emitNor emitFace [] 0 (texts r);
  match res with
  | (_, Some e) => Ret (Some e)
  | (_, None) =>
      match scanErr r with
      | Some code => Ret (Some (ErrRead code))
      | None => Ret None
      end
  end.

End Parser.

(** ** loadModel: the de-duplication of face vertices *)

(** [type model struct]; the buffer handles, which [loadModel] leaves at
    zero, are omitted. *)
Record model (F : Type) : Type := mkModel {
  pos : list (list F);
  nor : list (list F);
  tex : list (list F);
  idx : list Z
}.

Arguments mkModel {F} pos nor tex idx.
Arguments pos {F} m.
Arguments nor {F} m.
Arguments tex {F} m.
Arguments idx {F} m.

Definition emptyModel {F : Type} : model F := mkModel [] [] [] [].

Section Dedup.

Context {F : Type}.

(** The body of the inner loop of [loadModel] for the face vertex
    [overt]; the state is the model and the map [knownVerts]. *)
Definition dedupVert (o : Obj F) (overt : vtx) (st : model F * gmap vtx Z)
    : outcome (model F * gmap vtx Z) :=
  let '(m, knownVerts) := st in
  match knownVerts !! overt with
  | Some kv => Ret (mkModel (pos m) (nor m) (tex m) (idx m ++ [kv]), knownVerts)
  | None =>
      let i := to_uint32 (len (pos m)) in
      let m := mkModel (pos m) (nor m) (tex m) (idx m ++ [i]) in
      let knownVerts := <[overt := i]> knownVerts in
      let ip := vget Att.P overt in
      do p <- index (Pos o) ip;
      let m := mkModel (pos m ++ [p]) (nor m) (tex m) (idx m) in
      do m <- (if len (Tex o) >? 0 then
                 let it := vget Att.T overt in
                 do t <- index (Tex o) it;
                 Ret (mkModel (pos m) (nor m) (tex m ++ [t]) (idx m))
               else Ret m);
      do m <- (if len (Nor o) >? 0 then
                 let in_ := vget Att.N overt in
                 do n <- index (Nor o) in_;
                 Ret (mkModel (pos m) (nor m ++ [n]) (tex m) (idx m))
               else Ret m);
      Ret (m, knownVerts)
  end.

(** [for iface := range o.Face { for ivert := range o.Face[iface] { ... } }] *)
Definition dedupFace (o : Obj F) (fc : face) (st : model F * gmap vtx Z)
    : outcome (model F * gmap vtx Z) :=
  forEach (dedupVert o) (verts fc) st.

Definition dedup (o : Obj F) : outcome (model F * gmap vtx Z) :=
  forEach (dedupFace o) (Face o) (emptyModel, ∅).

Context (zero one : F) (ParseFloat32 : string -> F + numErr).

(** [func loadModel(file string)]; [file] is what [os.Open(file)]
    returned, an error or the reader. *)
Definition loadModel (file : nat + scanner)
    : outcome (option (model F) * option error) :=
  match file with
  | inl code => Ret (None, Some (ErrOpen code))
  | inr f =>
      do r <- Decode zero one ParseFloat32 f;
      match r with
      | (_, Some err) => Ret (None, Some err)
      | (None, None) => Panic NilDereference
      | (Some o, None) =>
          do st <- dedup o;
          Ret (Some st.1, None)
      end
  end.

End Dedup.

(** ** The error taxonomy of the specification *)

Inductive errKind : Type := StreamError | SyntaxError | IndexError.

(** The kind of an error, following the specification's taxonomy: a read
    or open failure is a StreamError; a wrong field count, too many
    components, inconsistent arity or elision and a field that is not a
    number are SyntaxErrors; a zero index and an index out of bounds are
    IndexErrors. *)
Fixpoint kindOf (e : error) : errKind :=
  match e with
  | ErrNum _ _ _ => SyntaxError
  | ErrZeroIndex => IndexError
  | ErrTooNegative _ => IndexError
  | ErrTooLarge => IndexError
  | ErrVertexMsg _ _ _ => SyntaxError
  | ErrVertex _ _ e => kindOf e
  | ErrVertexAtt _ _ _ e => kindOf e
  | ErrFieldCount _ _ => SyntaxError
  | ErrLine _ e => kindOf e
  | ErrRead _ => StreamError
  | ErrOpen _ => StreamError
  end.

(** The line number an error message starts with. *)
Definition lineOf (e : error) : option nat :=
  match e with
  | ErrFieldCount line _ => Some line
  | ErrLine line _ => Some line
  | _ => None
  end.

(** ** A reading of numbers for the examples

    The statements below hold for every [ParseFloat32]; the examples
    need one that runs. [litFloat] reads the decimal integer literals,
    an optional sign followed by one or more digits, and answers for
    them what [strconv.ParseFloat(s, 32)] does: the [float32] nearest to
    the integer, ties going to the even mantissa, and a range error
    past the largest [float32]. The values are the integers that are a
    [float32], carried in [Z], so the sign of a zero is not kept. Every
    other literal, such as [1.5], [1e3] or [inf], is answered with a
    syntax error, which is not the answer of [strconv.ParseFloat]: the
    examples use [litFloat] on integer literals only. *)

(** The digits of [s] read as a natural number of any size, from [n]. *)
Fixpoint decimal (n : Z) (s : string) : option Z :=
  match s with
  | EmptyString => Some n
  | String c s' =>
      match digit c with
      | None => None
      | Some d => decimal (10 * n + d) s'
      end
  end.

(** The [float32] nearest to the natural number [n]: a mantissa of 24
    bits, rounded to nearest with ties to even; none from [2 ^ 128]. *)
Definition roundFloat32 (n : Z) : option Z :=
  let k := Z.max 0 (Z.log2 n + 1 - 24) in
  let q := n / 2 ^ k in
  let r := n mod 2 ^ k in
  let half := 2 ^ (k - 1) in
  let m := if k =? 0 then q
           else if (half <? r) || ((r =? half) && Z.odd q) then q + 1
           else q in
  if m * 2 ^ k <? 2 ^ 128 then Some (m * 2 ^ k) else None.

Definition litFloat (s : string) : Z + numErr :=
  match s with
  | EmptyString => inr ErrSyntax
  | String c rest =>
      let '(neg, body) :=
        if Ascii.eqb c "+" then (false, rest)
        else if Ascii.eqb c "-" then (true, rest)
        else (false, s) in
      match body with
      | EmptyString => inr ErrSyntax
      | _ =>
          match decimal 0 body with
          | None => inr ErrSyntax
          | Some n =>
              match roundFloat32 n with
              | Some v => inl (if neg then - v else v)
              | None => inr ErrRange
              end
          end
      end
  end.

(** * Notions used in the statements *)

(** The computation ends without a panic. *)
Definition returns {A : Type} (m : outcome A) : Prop := exists a, m = Ret a.

(** A field that [toIndex] accepts: a nonzero 32-bit integer numeral. *)
Definition okIndex (s : string) : bool :=
  match ParseInt32 s with
  | inl z => negb (z =? 0)
  | inr _ => false
  end.

(** A vertex that the second loop of [addFace] accepts, for the template
    [numAtt], [skipTex] of the first vertex. *)
Definition vertexOk (numAtt : Z) (skipTex : bool) (vert : list string) : bool :=
  (len vert =? numAtt) &&
  match vert with
  | [p] => okIndex p
  | [p; t] => okIndex p && okIndex t
  | [p; t; n] => okIndex p && (if skipTex then String.eqb t "" else okIndex t) && okIndex n
  | _ => false
  end.

(** Some field of the vertex reads as the integer 0. *)
Definition hasZero (vert : list string) : Prop :=
  exists s, s ∈ vert /\ ParseInt32 s = inl 0.

(** The error of a rejected vertex: a SyntaxError, or the zero-index error
    of a vertex that has a zero field. *)
Definition vertexError (i : nat) (vert : list string) (e : error) : Prop :=
  kindOf e = SyntaxError \/ (e = ErrVertex i vert ErrZeroIndex /\ hasZero vert).

(** The texcoord of a vertex of three components is elided ([p//n]). *)
Definition elided (vert : list string) : bool :=
  match vert with
  | [_; t; _] => String.eqb t ""
  | _ => false
  end.

(** The template that the first vertex sets: the number of its
    components and, with three components, whether the texcoord is
    elided. *)
Definition template (v0 : list string) : Z * bool :=
  (len v0, (len v0 =? 3) && elided v0).

(** A face of vertex fields that passes the first two loops of [addFace]. *)
Definition faceOk (fields : list string) : bool :=
  forallb (fun v => len (Split v "/") <=? 3) fields &&
  match fields with
  | [] => false
  | f0 :: _ =>
      forallb (fun v => vertexOk (template (Split f0 "/")).1 (template (Split f0 "/")).2
                          (Split v "/")) fields
  end.

(** The error of a face rejected by the first two loops: a SyntaxError,
    or the zero-index error of one of its vertices. *)
Definition faceError (fields : list string) (e : error) : Prop :=
  kindOf e = SyntaxError \/
  exists i v, fields !! i = Some v /\
    e = ErrVertex i (Split v "/") ErrZeroIndex /\ hasZero (Split v "/").

(** A line-numbered error that is no StreamError. *)
Definition lineError (line : nat) (e : error) : Prop :=
  lineOf e = Some line /\ kindOf e <> StreamError.

(** The vertex [v] departs from the template vertex [v0]: another number
    of components, or, with three components each, another elision of
    the texcoord. *)
Definition mismatch (v0 v : list string) : Prop :=
  length v <> length v0 \/
  (length v0 = 3%nat /\ length v = 3%nat /\ elided v <> elided v0).

(** The error of a face line that is not accepted by the first two
    loops of [addFace]. *)
Definition faceLineError (line : nat) (vs : list string) (e : error) : Prop :=
  lineOf e = Some line /\
  (kindOf e = SyntaxError \/
   exists i v, vs !! i = Some v /\ hasZero (Split v "/") /\
     e = ErrLine line (ErrVertex i (Split v "/") ErrZeroIndex)).

(** The defect at which the parser stops on a face line: one that it
    reports as a SyntaxError, or the field of vertex [i] that reads as
    index 0. *)
Inductive defect : Type :=
| SyntaxDefect
| ZeroDefect (i : nat).

(** The defect that [toIndex] finds in a field of vertex [i], if any. *)
Definition fieldDefect (i : nat) (s : string) : option defect :=
  match ParseInt32 s with
  | inr _ => Some SyntaxDefect
  | inl z => if z =? 0 then Some (ZeroDefect i) else None
  end.

(** The first of two checks that fails. *)
Definition orElse (a b : option defect) : option defect :=
  match a with
  | Some d => Some d
  | None => b
  end.

(** The first defect of vertex [i] in the order of the second loop of
    [addFace]: the number of components against the template, then the
    position, the texcoord (a component that must be empty when the
    template elides it) and the normal. *)
Definition vertexDefect (numAtt : Z) (skipTex : bool) (i : nat) (vert : list string)
    : option defect :=
  if negb (len vert =? numAtt) then Some SyntaxDefect
  else
    match vert with
    | [p] => fieldDefect i p
    | [p; t] => orElse (fieldDefect i p) (fieldDefect i t)
    | [p; t; n] =>
        orElse (fieldDefect i p)
          (orElse (if skipTex then (if String.eqb t "" then None else Some SyntaxDefect)
                   else fieldDefect i t)
             (fieldDefect i n))
    | _ => Some SyntaxDefect
    end.

(** The first defect of the vertices from vertex [i] on. *)
Fixpoint loopDefect (numAtt : Z) (skipTex : bool) (i : nat) (vertices : list (list string))
    : option defect :=
  match vertices with
  | [] => None
  | vert :: rest =>
      orElse (vertexDefect numAtt skipTex i vert) (loopDefect numAtt skipTex (S i) rest)
  end.

(** The first defect of a face in the order of [addFace]: a vertex of
    more than three components, whichever it is, then the vertices from
    the left against the template of the first. *)
Definition faceDefect (fields : list string) : option defect :=
  if negb (forallb (fun v => len (Split v "/") <=? 3) fields) then Some SyntaxDefect
  else
    match fields with
    | [] => None
    | f0 :: _ =>
        loopDefect (template (Split f0 "/")).1 (template (Split f0 "/")).2 0
          (map (fun v => Split v "/") fields)
    end.

(** The first defect of a face line with the vertex fields [vs]: another
    number of vertices than three, then the defects of the face. *)
Definition lineDefect (vs : list string) : option defect :=
  if len vs =? 3 then faceDefect vs else Some SyntaxDefect.

(** The error that goes with the first defect of the face line [vs] at
    line [line]: the zero-index error of the vertex when the defect is
    its zero index, a SyntaxError otherwise. *)
Definition defectError (line : nat) (vs : list string) (e : error) : Prop :=
  match lineDefect vs with
  | Some (ZeroDefect i) =>
      exists w, vs !! i = Some w /\ e = ErrLine line (ErrVertex i (Split w "/") ErrZeroIndex)
  | _ => kindOf e = SyntaxError
  end.

(** A line on which [Stream] has nothing to emit: blank, a comment, or an
    element it does not support. *)
Definition quietLine (text : string) : bool :=
  match Fields text with
  | [] => true
  | first :: _ =>
      match toElem first with
      | comElem | errElem => true
      | _ => false
      end
  end.

(** The values of a 32-bit integer. *)
Definition int32 (z : Z) : Prop := - 2 ^ 31 <= z < 2 ^ 31.

(** Every component of the face is a 32-bit value. *)
Definition face32 (fc : face) : Prop :=
  Forall (fun v : vtx => int32 (vget Att.P v) /\ int32 (vget Att.T v) /\ int32 (vget Att.N v))
    (verts fc).

Section Verdicts.

Context {F : Type} (parse : string -> F + numErr).

(** Every field is a number. *)
Definition numbers (vals : list string) : bool :=
  forallb (fun v => match parse v with inl _ => true | inr _ => false end) vals.

(** A position, texcoord, normal or face line that passes the checks
    of [Stream], which then goes on to emit the element. *)
Definition wellFormed (text : string) : bool :=
  match Fields text with
  | [] => false
  | first :: vals =>
      match toElem first with
      | posElem => (3 <=? len vals) && (len vals <=? 4) && numbers vals
      | texElem => (2 <=? len vals) && (len vals <=? 3) && numbers vals
      | norElem => (len vals =? 3) && numbers vals
      | facElem => (len vals =? 3) && faceOk vals
      | _ => false
      end
  end.

End Verdicts.

Section Meshes.

Context {F : Type}.

(** The face vertices of the document in the order of the loop. *)
Definition triples (o : Obj F) : list vtx := concat (map verts (Face o)).

(** The accesses that the loop makes for a new triple are in bounds. *)
Definition vtxInBounds (o : Obj F) (v : vtx) : Prop :=
  0 <= vget Att.P v < len (Pos o) /\
  (len (Tex o) > 0 -> 0 <= vget Att.T v < len (Tex o)) /\
  (len (Nor o) > 0 -> 0 <= vget Att.N v < len (Nor o)).

(** The state of the loop after the face vertices [seen]. *)
Record dedupInv (o : Obj F) (seen : list vtx) (st : model F * gmap vtx Z) : Prop := {
  inv_dom : dom st.2 = list_to_set seen;
  inv_size : length (pos st.1) = size st.2;
  inv_known : forall k v, st.2 !! k = Some v -> 0 <= v < len (pos st.1);
  inv_idx : Forall (fun i => 0 <= i < len (pos st.1)) (idx st.1);
  inv_count : length (idx st.1) = length seen;
  inv_tex : len (Tex o) > 0 -> length (tex st.1) = length (pos st.1);
  inv_nor : len (Nor o) > 0 -> length (nor st.1) = length (pos st.1);
  inv_bounds : Forall (vtxInBounds o) seen
}.

(** The components of a face that [addFace] has resolved. *)
Definition resolved (o : Obj F) (v : vtx) : Prop :=
  -1 <= vget Att.P v <= len (Pos o) /\
  -1 <= vget Att.T v <= len (Tex o) /\
  -1 <= vget Att.N v <= len (Nor o).

(** The document after [line] lines: no collection is longer than the
    number of lines read, and every face is resolved. *)
Definition decoded (line : nat) (o : Obj F) : Prop :=
  (length (Pos o) <= line)%nat /\ (length (Tex o) <= line)%nat /\
  (length (Nor o) <= line)%nat /\
  Forall (fun fc => Forall (resolved o) (verts fc)) (Face o).

End Meshes.

(** ** Notions used in the further properties *)

(** The element of a line: the class of its first field, if it has one. *)
Definition lineElem (text : string) : option elem :=
  match Fields text with
  | [] => None
  | first :: _ => Some (toElem first)
  end.

Definition elem_eqb (a b : elem) : bool :=
  match a, b with
  | comElem, comElem | posElem, posElem | texElem, texElem
  | norElem, norElem | facElem, facElem | errElem, errElem => true
  | _, _ => false
  end.

(** The line is of the class [e]. *)
Definition isElem (e : elem) (text : string) : bool :=
  match lineElem text with
  | Some e' => elem_eqb e e'
  | None => false
  end.

(** The number of lines of the class [e]. *)
Fixpoint countElem (e : elem) (lines : list string) : nat :=
  match lines with
  | [] => 0
  | text :: rest => ((if isElem e text then 1 else 0) + countElem e rest)%nat
  end.

(** What one accepted line does to the document: it appends one entry to
    the collection of its element, and nothing else. *)
Definition lineEffect {F : Type} (text : string) (o o' : Obj F) : Prop :=
  match lineElem text with
  | Some posElem => exists p, length p = 4%nat /\ o' = mkObj (Pos o ++ [p]) (Tex o) (Nor o) (Face o)
  | Some texElem => exists t, length t = 3%nat /\ o' = mkObj (Pos o) (Tex o ++ [t]) (Nor o) (Face o)
  | Some norElem => exists n, length n = 3%nat /\ o' = mkObj (Pos o) (Tex o) (Nor o ++ [n]) (Face o)
  | Some facElem => exists fc, o' = commit o fc
  | _ => o' = o
  end.

(** The numbers of values that a [v], [vt] or [vn] line may carry. *)
Definition arity (e : elem) (n : nat) : bool :=
  match e with
  | posElem => (3 <=? n)%nat && (n <=? 4)%nat
  | texElem => (2 <=? n)%nat && (n <=? 3)%nat
  | norElem => (n =? 3)%nat
  | _ => false
  end.

(** The array that the values of the line are written into:
    [[4]float32{0, 0, 0, 1}] for a position, [[3]float32{}] otherwise. *)
Definition defaults {F : Type} (zero one : F) (e : elem) : list F :=
  match e with
  | posElem => [zero; zero; zero; one]
  | _ => [zero; zero; zero]
  end.

(** The collection that the entry of the line is appended to. *)
Definition store {F : Type} (e : elem) (o : Obj F) (p : list F) : Obj F :=
  match e with
  | posElem => mkObj (Pos o ++ [p]) (Tex o) (Nor o) (Face o)
  | texElem => mkObj (Pos o) (Tex o ++ [p]) (Nor o) (Face o)
  | norElem => mkObj (Pos o) (Tex o) (Nor o ++ [p]) (Face o)
  | _ => o
  end.

(** The error with its line number replaced. *)
Definition setLine (line : nat) (e : error) : error :=
  match e with
  | ErrFieldCount _ el => ErrFieldCount line el
  | ErrLine _ e' => ErrLine line e'
  | _ => e
  end.

(** The lines that are not quiet. *)
Definition loud (lines : list string) : list string :=
  List.filter (fun text => negb (quietLine text)) lines.

(** The statement with the line number of its error, if any, replaced. *)
Definition relabel {St : Type} (line : nat) (r : stmt St) : stmt St :=
  match r with
  | Ret (s, oe) => Ret (s, setLine line <$> oe)
  | Panic p => Panic p
  end.

Section Geometry.

Context {F : Type}.

(** The vertex [i] of the mesh holds the entries that the face vertex [v]
    of the document refers to; the texcoord and the normal count when
    the document has any. *)
Definition carries (o : Obj F) (m : model F) (v : vtx) (i : Z) : Prop :=
  (exists p, index (pos m) i = Ret p /\ index (Pos o) (vget Att.P v) = Ret p) /\
  (len (Tex o) > 0 ->
   exists t, index (tex m) i = Ret t /\ index (Tex o) (vget Att.T v) = Ret t) /\
  (len (Nor o) > 0 ->
   exists n, index (nor m) i = Ret n /\ index (Nor o) (vget Att.N v) = Ret n).

(** What the map [knownVerts] and the mesh hold after the face vertices
    [seen], as long as the count of vertices fits [uint32]. *)
Record dedupGeo (o : Obj F) (seen : list vtx) (st : model F * gmap vtx Z) : Prop := {
  geo_len : (length (pos st.1) <= length seen)%nat;
  geo_tex : len (Tex o) > 0 -> length (tex st.1) = length (pos st.1);
  geo_nor : len (Nor o) > 0 -> length (nor st.1) = length (pos st.1);
  geo_below : forall v i, st.2 !! v = Some i -> 0 <= i < len (pos st.1);
  geo_carries : forall v i, st.2 !! v = Some i -> carries o st.1 v i;
  geo_inj : forall v v' i, st.2 !! v = Some i -> st.2 !! v' = Some i -> v = v';
  geo_idx : Forall2 (fun v i => st.2 !! v = Some i) seen (idx st.1)
}.

End Geometry.

(** What a statement returns to its caller: the error, or nil. *)
Definition verdict {St : Type} (r : stmt St) : outcome (option error) :=
  do x <- r; Ret x.2.

(** The errors of the third loop of [addFace]: an index that does not
    resolve against its collection. *)
Definition resolutionError (e : error) : Prop :=
  exists i vert a e0, e = ErrVertexAtt i vert a e0 /\
    ((exists k, e0 = ErrTooNegative k) \/ e0 = ErrTooLarge).

(** * The shader program: internal/gx and program.go *)

(** ** Validity of locations *)

(** [func IsValidAttribLoc(l uint32) bool] *)
Definition IsValidAttribLoc (l : Z) : bool := Z.land l 0x80000000 =? 0.

(** [func IsValidUniformLoc(l int32) bool] *)
Definition IsValidUniformLoc (l : Z) : bool := negb (l =? -1).

(** The conversion [int32(x)]. *)
Definition to_int32 (z : Z) : Z := (z + 2 ^ 31) mod 2 ^ 32 - 2 ^ 31.

(** ** The world outside the program *)

Abbreviation bytes := (list Byte.byte).

(** The calls that leave the program, in the order they are made. *)
Inductive effect : Type :=
| glCreateProgram
| glCreateShader (stage : Z)
| glAttachShader (prog sha : Z)
| osOpen (name : string)
| ioRead (name : string)
| ioReadFile (name : string)
| glShaderSource (sha count : Z) (src : list bytes) (lengths : list Z)
| glCompileShader (sha : Z)
| glGetShaderStatus (sha : Z)          (* GetShaderiv(sha, COMPILE_STATUS, _) *)
| glGetShaderLogLength (sha : Z)       (* GetShaderiv(sha, INFO_LOG_LENGTH, _) *)
| glGetShaderInfoLog (sha bufSize : Z)
| glLinkProgram (prog : Z)
| glGetProgramStatus (prog : Z)        (* GetProgramiv(prog, LINK_STATUS, _) *)
| glGetProgramLogLength (prog : Z)     (* GetProgramiv(prog, INFO_LOG_LENGTH, _) *)
| glGetProgramInfoLog (prog bufSize : Z)
| glGetUniformLocation (prog : Z) (name : string)
| glGetAttribLocation (prog : Z) (name : string)
| logPrintln (msg name : string)
| callCompileSource (sha : Z) (src : list bytes)   (* gx.CompileSource of program.go *)
| callLinkProgram (prog : Z)                       (* gx.LinkProgram of program.go *)
| callIsValidUniformLoc (loc : Z)                  (* gx.IsValidUniformLoc of program.go *)
| callIsValidAttribLoc (loc : Z).                  (* gx.IsValidAttribLoc of program.go *)

(** The errors of this part of the program. *)
Inductive gerror : Type :=
| OsError (code : nat)             (* from os.Open, ioutil.ReadAll, ioutil.ReadFile *)
| InfoLog (buf : bytes)            (* fmt.Errorf("%s", buf) *)
| NoShaderForPath (path : string). (* no shader associated with path %v *)

(** What the calls answer. An answer may depend on every call made
    before: the driver and the file system have a state of their own.

    [program.go] imports the package [gx] from
    [bitbucket.org/alotabits/gx], not the [internal/gx] of this
    repository that [main.go] imports, and that package is not part of
    the repository. The four functions of it that [program.go] calls are
    therefore answers of the world as well: nothing is assumed of what
    [gx.CompileSource], [gx.LinkProgram], [gx.IsValidUniformLoc] and
    [gx.IsValidAttribLoc] return, nor that they return at all, and
    what they do to the driver is seen only through the later answers. *)
Record world : Type := mkWorld {
  CreateProgram : list effect -> Z;
  CreateShader : list effect -> Z -> Z;
  Open : list effect -> string -> option nat;         (* the error of os.Open, if any *)
  Read : list effect -> string -> bytes + nat;      (* the opened file read to its end *)
  ReadFile : list effect -> string -> bytes + nat;
  ShaderStatus : list effect -> Z -> Z;
  ShaderLogLength : list effect -> Z -> Z;
  ShaderInfoLog : list effect -> Z -> Z -> bytes;
  ProgramStatus : list effect -> Z -> Z;
  ProgramLogLength : list effect -> Z -> Z;
  ProgramInfoLog : list effect -> Z -> Z -> bytes;
  UniformLocation : list effect -> Z -> string -> Z;
  AttribLocation : list effect -> Z -> string -> Z;
  gxCompileSource : list effect -> Z -> list bytes -> outcome (option gerror);
  gxLinkProgram : list effect -> Z -> outcome (option gerror);
  gxIsValidUniformLoc : list effect -> Z -> outcome bool;
  gxIsValidAttribLoc : list effect -> Z -> outcome bool
}.


(** [make([]byte, n)] *)
Definition makeBytes (n : Z) : outcome bytes :=
  if n <? 0 then Panic (ExplicitPanic "makeslice: len out of range")
  else Ret (replicate (Z.to_nat n) Byte.x00).

(** The buffer after the driver has written [written] at its start. *)
Definition fill (buf written : bytes) : bytes :=
  take (length buf) (written ++ drop (length written) buf).

Module shader.
(** [type shader struct] *)
Record t : Type := mk {
  id : Z;
  paths : list string;
  update : bool
}.
End shader.

Module program.
(** [type program struct]; a [*shader] is an address of the heap. *)
Record t : Type := mk {
  id : Z;
  shaderByStage : gmap Z nat;
  shadersByPath : gmap string (list nat);
  update : bool;
  viewportLoc : Z;
  projectionLoc : Z;
  viewLoc : Z;
  modelLoc : Z;
  cursorLoc : Z;
  timeLoc : Z;
  positionLoc : Z;
  colorLoc : Z
}.
End program.

(** The shaders allocated so far, and the calls made so far. *)
Record state : Type := mkState {
  heap : list shader.t;
  log : list effect
}.

Definition emit (c : effect) (st : state) : state := mkState (heap st) (log st ++ [c]).

(** [*s] for a pointer obtained from one of the two maps. *)
Definition deref (st : state) (s : nat) : outcome shader.t :=
  match heap st !! s with
  | Some v => Ret v
  | None => Panic NilDereference
  end.

(** [s.update = b] *)
Definition setUpdate (s : nat) (b : bool) (st : state) : outcome state :=
  do v <- deref st s;
  Ret (mkState (<[s := shader.mk (shader.id v) (shader.paths v) b]> (heap st)) (log st)).

Section Program.

Context (W : world).

(** *** internal/gx, the package of this repository *)

(** [func CompileSource(sha uint32, src [][]byte) error] *)
Definition CompileSource (sha : Z) (src : list bytes) (st : state)
    : outcome (option gerror * state) :=
  do srclen <- forEach (fun s srclen =>
                  do _ <- index s 0;
                  Ret (srclen ++ [to_int32 (len s)])) src [];
  do _ <- index src 0;
  do _ <- index srclen 0;
  let st := emit (glShaderSource sha (to_int32 (len src)) src srclen) st in
  let st := emit (glCompileShader sha) st in
  let status := ShaderStatus W (log st) sha in
  let st := emit (glGetShaderStatus sha) st in
  if status =? 0 then
    let loglen := ShaderLogLength W (log st) sha in
    let st := emit (glGetShaderLogLength sha) st in
    do buf <- makeBytes loglen;
    do _ <- index buf 0;
    let buf := fill buf (ShaderInfoLog W (log st) sha loglen) in
    let st := emit (glGetShaderInfoLog sha loglen) st in
    Ret (Some (InfoLog buf), st)
  else Ret (None, st).

(** [func AppendFiles(sources [][]byte, files []string) ([][]byte, error)] *)
Fixpoint AppendFiles (sources : list bytes) (files : list string) (st : state)
    : list bytes * option gerror * state :=
  match files with
  | [] => (sources, None, st)
  | f :: files' =>
      let r := ReadFile W (log st) f in
      let st := emit (ioReadFile f) st in
      match r with
      | inr code => (sources, Some (OsError code), st)
      | inl buf => AppendFiles (sources ++ [buf]) files' st
      end
  end.

(** [func LinkProgram(prog uint32) error] *)
Definition LinkProgram (prog : Z) (st : state) : outcome (option gerror * state) :=
  let st := emit (glLinkProgram prog) st in
  let status := ProgramStatus W (log st) prog in
  let st := emit (glGetProgramStatus prog) st in
  if status =? 0 then
    let loglen := ProgramLogLength W (log st) prog in
    let st := emit (glGetProgramLogLength prog) st in
    do buf <- makeBytes loglen;
    do _ <- index buf 0;
    let buf := fill buf (ProgramInfoLog W (log st) prog loglen) in
    let st := emit (glGetProgramInfoLog prog loglen) st in
    Ret (Some (InfoLog buf), st)
  else Ret (None, st).

(** *** program.go

    Here [gx] is the imported package: [gx.CompileSource] and the other
    three are the answers [gxCompileSource], ... of the world, and each
    call is recorded with its arguments. *)

(** [func newProgram() *program] *)
Definition newProgram (st : state) : program.t * state :=
  let id := CreateProgram W (log st) in
  let st := emit glCreateProgram st in
  (program.mk id ∅ ∅ true 0 0 0 0 0 0 0 0, st).

(** The first loop of [updateShader]: the files are opened in the order
    of [s.paths]; the first error ends the function. *)
Fixpoint openAll (paths : list string) (st : state) : option gerror * state :=
  match paths with
  | [] => (None, st)
  | p :: paths' =>
      let err := Open W (log st) p in
      let st := emit (osOpen p) st in
      match err with
      | Some code => (Some (OsError code), st)
      | None => openAll paths' st
      end
  end.

(** [ioutil.ReadAll(io.MultiReader(files...))]: the files are read one
    after the other, each to its end; the first error ends the reading. *)
Fixpoint readAll (names : list string) (st : state) : (bytes + nat) * state :=
  match names with
  | [] => (inl [], st)
  | name :: names' =>
      let r := Read W (log st) name in
      let st := emit (ioRead name) st in
      match r with
      | inr code => (inr code, st)
      | inl b =>
          let '(r', st) := readAll names' st in
          (match r' with
           | inl b' => inl (b ++ b')
           | inr code => inr code
           end, st)
      end
  end.

(** [func updateShader(s *shader) error] *)
Definition updateShader (s : nat) (st : state) : outcome (option gerror * state) :=
  do v <- deref st s;
  if negb (shader.update v) then Ret (None, st)
  else
    do st <- setUpdate s false st;
    let '(err, st) := openAll (shader.paths v) st in
    match err with
    | Some e => Ret (Some e, st)
    | None =>
        let '(r, st) := readAll (shader.paths v) st in
        match r with
        | inr code => Ret (Some (OsError code), st)
        | inl b =>
            do err <- gxCompileSource W (log st) (shader.id v) [b];
            Ret (err, emit (callCompileSource (shader.id v) [b]) st)
        end
    end.

(** The byte that ends the names handed to the driver, [\x00]. *)
Definition nul : string := String "000"%char EmptyString.

(** [func getUniformLocation(program uint32, name string) int32] *)
Definition getUniformLocation (prog : Z) (name : string) (st : state)
    : outcome (Z * state) :=
  let loc := UniformLocation W (log st) prog name in
  let st := emit (glGetUniformLocation prog name) st in
  do valid <- gxIsValidUniformLoc W (log st) loc;
  let st := emit (callIsValidUniformLoc loc) st in
  let st := if negb valid then emit (logPrintln "missing uniform" name) st else st in
  Ret (loc, st).

(** [func getAttribLocation(program uint32, name string) uint32] *)
Definition getAttribLocation (prog : Z) (name : string) (st : state)
    : outcome (Z * state) :=
  let loc := to_uint32 (AttribLocation W (log st) prog name) in
  let st := emit (glGetAttribLocation prog name) st in
  do valid <- gxIsValidAttribLoc W (log st) loc;
  let st := emit (callIsValidAttribLoc loc) st in
  let st := if negb valid then emit (logPrintln "missing attribute" name) st else st in
  Ret (loc, st).

(** The loop of [updateProgram] over the shaders, in the order [range]
    yields them. *)
Fixpoint updateShaders (ss : list nat) (st : state) : outcome (option gerror * state) :=
  match ss with
  | [] => Ret (None, st)
  | s :: ss' =>
      do r <- updateShader s st;
      match r with
      | (Some e, st) => Ret (Some e, st)
      | (None, st) => updateShaders ss' st
      end
  end.

(** [func updateProgram(p *program) error]. The order in which [range]
    yields the entries of [p.shaderByStage] is chosen by the runtime:
    [order] is that choice. *)
Definition updateProgram (order : list (Z * nat) -> list (Z * nat))
    (p : program.t) (st : state) : outcome (option gerror * program.t * state) :=
  if negb (program.update p) then Ret (None, p, st)
  else
    let p := program.mk (program.id p) (program.shaderByStage p) (program.shadersByPath p)
               false (program.viewportLoc p) (program.projectionLoc p) (program.viewLoc p)
               (program.modelLoc p) (program.cursorLoc p) (program.timeLoc p)
               (program.positionLoc p) (program.colorLoc p) in
    do r <- updateShaders (map snd (order (map_to_list (program.shaderByStage p)))) st;
    match r with
    | (Some e, st) => Ret (Some e, p, st)
    | (None, st) =>
        do err <- gxLinkProgram W (log st) (program.id p);
        let st := emit (callLinkProgram (program.id p)) st in
        match err with
        | Some e => Ret (Some e, p, st)
        | None =>
            do q <- getUniformLocation (program.id p) ("viewport" +:+ nul) st;
            let '(viewportLoc, st) := q in
            do q <- getUniformLocation (program.id p) ("cursor" +:+ nul) st;
            let '(cursorLoc, st) := q in
            do q <- getUniformLocation (program.id p) ("time" +:+ nul) st;
            let '(timeLoc, st) := q in
            do q <- getUniformLocation (program.id p) ("projection" +:+ nul) st;
            let '(projectionLoc, st) := q in
            do q <- getUniformLocation (program.id p) ("view" +:+ nul) st;
            let '(viewLoc, st) := q in
            do q <- getUniformLocation (program.id p) ("model" +:+ nul) st;
            let '(modelLoc, st) := q in
            do q <- getAttribLocation (program.id p) ("position" +:+ nul) st;
            let '(positionLoc, st) := q in
            do q <- getAttribLocation (program.id p) ("color" +:+ nul) st;
            let '(colorLoc, st) := q in
            Ret (None,
                 program.mk (program.id p) (program.shaderByStage p) (program.shadersByPath p)
                   false viewportLoc projectionLoc viewLoc modelLoc cursorLoc timeLoc
                   positionLoc colorLoc,
                 st)
        end
    end.

(** [func addPath(p *program, stage uint32, path string)] *)
Definition addPath (p : program.t) (stage : Z) (path : string) (st : state)
    : outcome (program.t * state) :=
  let '(s, byStage, st) :=
    match program.shaderByStage p !! stage with
    | Some s => (s, program.shaderByStage p, st)
    | None =>
        let s := length (heap st) in
        let id := CreateShader W (log st) stage in
        let st := emit (glCreateShader stage) st in
        let st := mkState (heap st ++ [shader.mk id [] false]) (log st) in
        let st := emit (glAttachShader (program.id p) id) st in
        (s, <[stage := s]> (program.shaderByStage p), st)
    end in
  do v <- deref st s;
  let st := mkState (<[s := shader.mk (shader.id v) (shader.paths v ++ [path]) true]> (heap st))
              (log st) in
  let byPath := <[path := default [] (program.shadersByPath p !! path) ++ [s]]>
                  (program.shadersByPath p) in
  Ret (program.mk (program.id p) byStage byPath true
         (program.viewportLoc p) (program.projectionLoc p) (program.viewLoc p)
         (program.modelLoc p) (program.cursorLoc p) (program.timeLoc p)
         (program.positionLoc p) (program.colorLoc p), st).

(** [func pathChanged(p *program, path string) error] *)
Definition pathChanged (p : program.t) (path : string) (st : state)
    : outcome (option gerror * program.t * state) :=
  match program.shadersByPath p !! path with
  | None => Ret (Some (NoShaderForPath path), p, st)
  | Some ss =>
      let p := program.mk (program.id p) (program.shaderByStage p) (program.shadersByPath p)
                 true (program.viewportLoc p) (program.projectionLoc p) (program.viewLoc p)
                 (program.modelLoc p) (program.cursorLoc p) (program.timeLoc p)
                 (program.positionLoc p) (program.colorLoc p) in
      do st <- forEach (fun s st => setUpdate s true st) ss st;
      Ret (None, p, st)
  end.

(** The calls of [main] that build the program from its arguments. *)
Fixpoint addPaths (p : program.t) (args : list (Z * string)) (st : state)
    : outcome (program.t * state) :=
  match args with
  | [] => Ret (p, st)
  | (stage, path) :: args' =>
      do r <- addPath p stage path st;
      addPaths r.1 args' r.2
  end.

End Program.

(** ** Notions used in the statements about the program *)

(** The shader with its flag set. *)
Definition flagged (b : bool) (v : shader.t) : shader.t :=
  shader.mk (shader.id v) (shader.paths v) b.

(** The shader at [s] is marked for an update. *)
Definition marked (st : state) (s : nat) : Prop :=
  exists v, heap st !! s = Some v /\ shader.update v = true.

(** The call opens or reads a file of the shader [v], or hands a source
    of [v] to [gx.CompileSource]. *)
Definition about (v : shader.t) (e : effect) : Prop :=
  match e with
  | osOpen name | ioRead name => name ∈ shader.paths v
  | callCompileSource sha _ => sha = shader.id v
  | _ => False
  end.

(** The order of [range] over a map yields every entry once. *)
Definition fair (order : list (Z * nat) -> list (Z * nat)) : Prop :=
  forall l, order l ≡ₚ l.

(** The call belongs to the reading and compiling of some shader: it is
    one of those that [updateShader] makes. *)
Definition shaderCall (e : effect) : bool :=
  match e with
  | osOpen _ | ioRead _ | callCompileSource _ _ => true
  | _ => false
  end.

(** Every call of [gx.CompileSource] among [evs], made after the calls
    [pre], returned nil. *)
Fixpoint compiled (W : world) (pre evs : list effect) : Prop :=
  match evs with
  | [] => True
  | e :: evs' =>
      match e with
      | callCompileSource sha src => gxCompileSource W pre sha src = Ret None
      | _ => True
      end /\ compiled W (pre ++ [e]) evs'
  end.

(** The program with its flag set. *)
Definition pflagged (b : bool) (p : program.t) : program.t :=
  program.mk (program.id p) (program.shaderByStage p) (program.shadersByPath p) b
    (program.viewportLoc p) (program.projectionLoc p) (program.viewLoc p)
    (program.modelLoc p) (program.cursorLoc p) (program.timeLoc p)
    (program.positionLoc p) (program.colorLoc p).

(** The paths given for [stage], and the stages given for [path], in
    the order of the arguments. *)
Definition pathsOf (stage : Z) (args : list (Z * string)) : list string :=
  map snd (filter (fun a : Z * string => a.1 = stage) args).

Definition stagesOf (path : string) (args : list (Z * string)) : list Z :=
  map fst (filter (fun a : Z * string => a.2 = path) args).

(** From [st] to [st'] the heap is the same and the calls made are not
    about shaders. *)
Definition linkOnly (st st' : state) : Prop :=
  heap st' = heap st /\
  exists evs, log st' = log st ++ evs /\ Forall (fun e => shaderCall e = false) evs.

(** The layout of the program and the heap once [addPath] has been called
    with each of [args], starting from a new program: one shader for each
    stage, holding the paths given for the stage. *)
Record built (args : list (Z * string)) (p : program.t) (st : state) : Prop := {
  built_stages : dom (program.shaderByStage p) = list_to_set (map fst args);
  built_paths : dom (program.shadersByPath p) = list_to_set (map snd args);
  built_shader : forall stage s, program.shaderByStage p !! stage = Some s ->
    exists v, heap st !! s = Some v /\ shader.paths v = pathsOf stage args;
  built_inj : forall stage stage' s, program.shaderByStage p !! stage = Some s ->
    program.shaderByStage p !! stage' = Some s -> stage = stage';
  built_byPath : forall path ss, program.shadersByPath p !! path = Some ss ->
    Forall2 (fun s stage => program.shaderByStage p !! stage = Some s) ss (stagesOf path args);
  built_count : length (heap st) = size (program.shaderByStage p)
}.

(** The program and every shader of it are marked for an update. *)
Definition allMarked (p : program.t) (st : state) : Prop :=
  program.update p = true /\
  forall stage s, program.shaderByStage p !! stage = Some s -> marked st s.

(** No shader of the program is marked. *)
Definition clean (p : program.t) (st : state) : Prop :=
  forall stage s, program.shaderByStage p !! stage = Some s -> ~ marked st s.

(** The states of the program in a run of [main] on the arguments
    [args]: the program is built by [addPath], then updated and told of
    changed paths in any order, while other calls are made in between. *)
Inductive reach (W : world) (args : list (Z * string)) : program.t -> state -> Prop :=
| reach_built st0 p st :
    heap st0 = [] ->
    addPaths W (newProgram W st0).1 args (newProgram W st0).2 = Ret (p, st) ->
    reach W args p st
| reach_update order p st r p' st' :
    fair order -> reach W args p st ->
    updateProgram W order p st = Ret (r, p', st') ->
    reach W args p' st'
| reach_changed path p st r p' st' :
    reach W args p st ->
    pathChanged p path st = Ret (r, p', st') ->
    reach W args p' st'
| reach_other evs p st :
    reach W args p st ->
    reach W args p (mkState (heap st) (log st ++ evs)).

(** Three worlds for the examples. In [calm] every file opens and holds
    one byte, every shader compiles and the program links; in [broken] no
    shader compiles and the log of the driver holds three bytes; in
    [blank] the files are empty. The imported [gx] of these worlds
    succeeds in [calm] and [blank], fails to compile in [broken] with
    the log of the driver as its error, and judges the locations as
    [internal/gx] does. *)
Definition calm : world :=
  mkWorld (fun _ => 1) (fun log _ => 2 + len log) (fun _ _ => None)
    (fun _ _ => inl [Byte.x76]) (fun _ _ => inl [Byte.x76])
    (fun _ _ => 1) (fun _ _ => 0) (fun _ _ _ => [])
    (fun _ _ => 1) (fun _ _ => 0) (fun _ _ _ => [])
    (fun _ _ _ => 0) (fun _ _ _ => -1)
    (fun _ _ _ => Ret None) (fun _ _ => Ret None)
    (fun _ loc => Ret (IsValidUniformLoc loc)) (fun _ loc => Ret (IsValidAttribLoc loc)).

Definition broken : world :=
  mkWorld (fun _ => 1) (fun log _ => 2 + len log) (fun _ _ => None)
    (fun _ _ => inl [Byte.x76]) (fun _ _ => inl [Byte.x76])
    (fun _ _ => 0) (fun _ _ => 3) (fun _ _ _ => [Byte.x65; Byte.x72; Byte.x00])
    (fun _ _ => 1) (fun _ _ => 0) (fun _ _ _ => [])
    (fun _ _ _ => 0) (fun _ _ _ => -1)
    (fun _ _ _ => Ret (Some (InfoLog [Byte.x65; Byte.x72; Byte.x00]))) (fun _ _ => Ret None)
    (fun _ loc => Ret (IsValidUniformLoc loc)) (fun _ loc => Ret (IsValidAttribLoc loc)).

Definition blank : world :=
  mkWorld (fun _ => 1) (fun log _ => 2 + len log) (fun _ _ => None)
    (fun _ _ => inl []) (fun _ _ => inl [])
    (fun _ _ => 1) (fun _ _ => 0) (fun _ _ _ => [])
    (fun _ _ => 1) (fun _ _ => 0) (fun _ _ _ => [])
    (fun _ _ _ => 0) (fun _ _ _ => -1)
    (fun _ _ _ => Ret None) (fun _ _ => Ret None)
    (fun _ loc => Ret (IsValidUniformLoc loc)) (fun _ loc => Ret (IsValidAttribLoc loc)).

(** The program of these worlds built from the arguments [args]. *)
Definition start (W : world) (args : list (Z * string)) : outcome (program.t * state) :=
  addPaths W (newProgram W (mkState [] [])).1 args (newProgram W (mkState [] [])).2.

(** * Properties *)

(** ** Sample runs *)

Example toIndex_samples :
  toIndex "3" = (3, None) /\ toIndex "-2" = (-2, None) /\
  toIndex "0" = (0, Some ErrZeroIndex) /\ toIndex "-0" = (0, Some ErrZeroIndex) /\
  toIndex "" = (0, Some (ErrNum "ParseInt" "" ErrSyntax)) /\
  toIndex "2147483648" = (0, Some (ErrNum "ParseInt" "2147483648" ErrRange)) /\
  toIndex "-2147483648" = (-2147483648, None).
Proof. repeat split; reflexivity. Qed.

Example adjustIndex_samples :
  adjustIndex 1 3 = (0, None) /\ adjustIndex (-1) 3 = (2, None) /\
  adjustIndex 4 3 = (3, None) /\ adjustIndex 5 3 = (0, Some ErrTooLarge) /\
  adjustIndex (-4) 3 = (0, Some (ErrTooNegative (-4))) /\
  adjustIndex 0 3 = (-1, None).
Proof. repeat split; reflexivity. Qed.

Example Split_samples :
  Split "1/2/3" "/" = ["1"; "2"; "3"] /\ Split "2//2" "/" = ["2"; ""; "2"] /\
  Split "" "/" = [""] /\ Fields "  f 1  2	3 " = ["f"; "1"; "2"; "3"].
Proof. repeat split; reflexivity. Qed.

(** White space beyond ASCII: U+00A0, U+0085, U+2003 and U+3000
    separate fields as the six ASCII ones do, U+200B does not, and a
    lone byte of a longer encoding is part of its field. *)
Example Fields_unicode :
  Fields (String "118" (String "194" (String "160" "0 0 0"))) = ["v"; "0"; "0"; "0"] /\
  Fields (String "118" (String "194" (String "133" "0"))) = ["v"; "0"] /\
  Fields (String "118" (String "226" (String "128" (String "131" "0")))) = ["v"; "0"] /\
  Fields (String "118" (String "227" (String "128" (String "128" "0")))) = ["v"; "0"] /\
  Fields (String "118" (String "226" (String "128" (String "139" "0"))))
  = [String "118" (String "226" (String "128" (String "139" "0")))] /\
  Fields (String "118" (String "194" " 0")) = [String "118" (String "194" ""); "0"].
Proof. repeat split; reflexivity. Qed.

(** The range error of [strconv.ParseInt] is met at the digit that
    overflows, before a later byte that is no digit. *)
Example ParseInt32_samples :
  ParseInt32 "4294967296x" = inr ErrRange /\ ParseInt32 "4294967295x" = inr ErrSyntax /\
  ParseInt32 "2147483648" = inr ErrRange /\ ParseInt32 "-2147483648" = inl (-2147483648) /\
  ParseInt32 "+7" = inl 7 /\ ParseInt32 "-" = inr ErrSyntax.
Proof. repeat split; reflexivity. Qed.

Example litFloat_samples :
  litFloat "3" = inl 3 /\ litFloat "-16777215" = inl (-16777215) /\
  litFloat "16777217" = inl 16777216 /\ litFloat "16777219" = inl 16777220 /\
  litFloat "340282356779733661637539395458142568447"
  = inl 340282346638528859811704183484516925440 /\
  litFloat "340282356779733661637539395458142568448" = inr ErrRange /\
  litFloat "x" = inr ErrSyntax.
Proof. repeat split; vm_compute; reflexivity. Qed.

Example addFace_plain :
  addFace (mkObj [[0; 0]; [0; 0]; [0; 0]] [] [] []) ["1"; "2"; "3"]
  = Ret (mkObj [[0; 0]; [0; 0]; [0; 0]] [] []
           [((0, -1, -1), (1, -1, -1), (2, -1, -1))], None).
Proof. reflexivity. Qed.

(** The three forms of a vertex that omits an attribute, on a document
    with one position, one texcoord and one normal. *)
Example addFace_omitted_forms :
  let o := mkObj [[0; 0; 0; 1]] [[0; 0; 0]] [[0; 0; 1]] [] in
  addFace o ["1"; "1"; "1"]
  = Ret (commit o ((0, -1, -1), (0, -1, -1), (0, -1, -1)), None) /\
  addFace o ["1/1"; "1/1"; "1/1"]
  = Ret (commit o ((0, 0, -1), (0, 0, -1), (0, 0, -1)), None) /\
  addFace o ["1//1"; "1//1"; "1//1"]
  = Ret (commit o ((0, -1, 0), (0, -1, 0), (0, -1, 0)), None).
Proof. repeat split; reflexivity. Qed.

(** ** Machine arithmetic *)

Lemma wrap_int_id (z : Z) : min_int <= z <= max_int -> wrap_int z = z.
Proof.
  unfold wrap_int, min_int, max_int, int_bits. intros H.
  rewrite Z.mod_small; lia.
Qed.

Lemma len_nonneg {A : Type} (l : list A) : 0 <= len l.
Proof. unfold len. lia. Qed.

Lemma len_app {A : Type} (l k : list A) : len (l ++ k) = len l + len k.
Proof. unfold len. rewrite length_app. lia. Qed.

Lemma max_int_pos : 0 < max_int.
Proof. reflexivity. Qed.

(** ** adjustIndex *)

(** A negative index [-k] that reaches back at most to the first entry
    resolves to [n - k]. *)
Lemma adjustIndex_negative (n k : Z) :
  1 <= k <= n -> n <= max_int -> adjustIndex (- k) n = (n - k, None).
Proof.
  intros Hk Hn. unfold adjustIndex.
  assert (Hneg : (- k <? 0) = true) by (apply Z.ltb_lt; lia). rewrite Hneg.
  assert (Hm : 0 < max_int) by apply max_int_pos.
  rewrite wrap_int_id by (unfold min_int, max_int, int_bits in *; lia).
  replace (- k + n <? 0) with false by (symmetry; apply Z.ltb_ge; lia).
  replace (- k + n >? n) with false by (symmetry; rewrite Z.gtb_ltb; apply Z.ltb_ge; lia).
  f_equal. lia.
Qed.

(** A positive index [k] resolves to [k - 1] as soon as [k - 1 <= n]. *)
Lemma adjustIndex_positive (n k : Z) :
  1 <= k <= n + 1 -> n <= max_int -> adjustIndex k n = (k - 1, None).
Proof.
  intros Hk Hn. unfold adjustIndex.
  replace (k <? 0) with false by (symmetry; apply Z.ltb_ge; lia).
  rewrite wrap_int_id by (unfold min_int, max_int, int_bits in *; lia).
  replace (k - 1 >? n) with false by (symmetry; rewrite Z.gtb_ltb; apply Z.ltb_ge; lia).
  reflexivity.
Qed.

(** The slot of an attribute that the vertex does not give holds 0 when
    it is resolved, and comes out as -1. *)
Lemma adjustIndex_zero (n : Z) : 0 <= n -> adjustIndex 0 n = (-1, None).
Proof.
  intros Hn. unfold adjustIndex. cbn [Z.ltb Z.compare].
  change (wrap_int (0 - 1)) with (-1).
  replace (-1 >? n) with false by (symmetry; rewrite Z.gtb_ltb; apply Z.ltb_ge; lia).
  reflexivity.
Qed.

(** What a resolved index satisfies in general: the closed range
    [-1 .. attLen]. *)
Lemma adjustIndex_range (attIdx attLen res : Z) :
  0 <= attLen <= max_int -> min_int <= attIdx <= max_int ->
  adjustIndex attIdx attLen = (res, None) ->
  -1 <= res <= attLen /\
  (attIdx < 0 -> res = attIdx + attLen /\ 0 <= res < attLen) /\
  (0 <= attIdx -> res = attIdx - 1).
Proof.
  intros Hn Hi. unfold adjustIndex.
  assert (Hm : 0 < max_int) by apply max_int_pos.
  destruct (attIdx <? 0) eqn:Hneg.
  - apply Z.ltb_lt in Hneg.
    rewrite wrap_int_id by (unfold min_int, max_int, int_bits in *; lia).
    destruct (attIdx + attLen <? 0) eqn:Hlow; [discriminate |].
    apply Z.ltb_ge in Hlow.
    destruct (attIdx + attLen >? attLen) eqn:Hhi; [discriminate |].
    intros [= <-]. lia.
  - apply Z.ltb_ge in Hneg.
    rewrite wrap_int_id by (unfold min_int, max_int, int_bits in *; lia).
    destruct (attIdx - 1 >? attLen) eqn:Hhi; [discriminate |].
    rewrite Z.gtb_ltb in Hhi. apply Z.ltb_ge in Hhi.
    intros [= <-]. lia.
Qed.

(** ** The scanning loop *)

Section DecodeLoop.

Context {F : Type} (zero one : F) (ParseFloat32 : string -> F + numErr).

Lemma decodeLoop_app (pre post : list string) (o : Obj F) (line : nat) :
  decodeLoop zero one ParseFloat32 o line (pre ++ post)
  = andThen (decodeLoop zero one ParseFloat32 o line pre) id
      (fun o' => decodeLoop zero one ParseFloat32 o' (line + length pre) post).
Proof.
  revert o line. induction pre as [|text pre IH]; intros o line; cbn [decodeLoop app length].
  - rewrite Nat.add_0_r. reflexivity.
  - destruct (decodeLine zero one ParseFloat32 o (S line) text) as [[o' [e|]]|p];
      cbn; try reflexivity.
    rewrite IH. replace (line + S (length pre))%nat with (S line + length pre)%nat by lia.
    reflexivity.
Qed.

(** Decoding a stream whose lines before [text] are accepted comes down
    to the line [text] and what follows it. *)
Lemma Decode_after (pre : list string) (text : string) (post : list string)
    (err : option nat) (o : Obj F) :
  decodeLoop zero one ParseFloat32 emptyObj 0 pre = Ret (o, None) ->
  Decode zero one ParseFloat32 (mkScanner (pre ++ text :: post) err)
  = do res <- andThen (decodeLine zero one ParseFloat32 o (S (length pre)) text) id
                (fun o' => decodeLoop zero one ParseFloat32 o' (S (length pre)) post);
    match res with
    | (_, Some e) => Ret (None, Some e)
    | (o, None) =>
        match err with
        | Some code => Ret (None, Some (ErrRead code))
        | None => Ret (Some o, None)
        end
    end.
Proof.
  intros Hpre. unfold Decode. cbn [texts scanErr].
  rewrite decodeLoop_app, Hpre. cbn [andThen bind decodeLoop Nat.add].
  reflexivity.
Qed.

End DecodeLoop.

(** ** Symbolic evaluation

    Conversions between [nat] and [Z] at closed arguments are evaluated
    on the way; the index functions stay folded. *)

Arguments adjustIndex : simpl never.
Arguments toIndex : simpl never.
Arguments parseFloats : simpl never.
Arguments index {A} l i /.
Arguments setIndex i vert a k fc /.
Arguments splitVertex i v vertices /.
Arguments parseVertex numAtt skipTex i vert fc /.
Arguments adjustAtt i vert a attLen fc /.
Arguments adjustVertex {F} o vertices i _ fc /.

Ltac closed_conv :=
  repeat match goal with
  | |- context [Z.of_nat ?n] =>
      let v := eval vm_compute in (Z.of_nat n) in
      lazymatch v with Z0 => idtac | Zpos _ => idtac | Zneg _ => idtac end;
      progress change (Z.of_nat n) with v
  | |- context [Z.to_nat ?z] =>
      let v := eval vm_compute in (Z.to_nat z) in
      lazymatch v with O => idtac | S _ => idtac end;
      progress change (Z.to_nat z) with v
  end.

Ltac run := repeat (progress (cbn; closed_conv)).

(** ** Faces that give positions only *)

(** A face of three vertices without a slash, whose fields read [x],
    [y], [z], once these resolve: the texcoord and normal components of
    its triples are -1. *)
Lemma addFace_positions {F : Type} (o : Obj F) (a b c : string) (x y z x' y' z' : Z) :
  Split a "/" = [a] -> Split b "/" = [b] -> Split c "/" = [c] ->
  toIndex a = (x, None) -> toIndex b = (y, None) -> toIndex c = (z, None) ->
  adjustIndex x (len (Pos o)) = (x', None) ->
  adjustIndex y (len (Pos o)) = (y', None) ->
  adjustIndex z (len (Pos o)) = (z', None) ->
  addFace o [a; b; c]
  = Ret (commit o ((x', -1, -1), (y', -1, -1), (z', -1, -1)), None).
Proof.
  intros Sa Sb Sc Ta Tb Tc Ax Ay Az.
  pose proof (len_nonneg (Tex o)) as HT. pose proof (len_nonneg (Nor o)) as HN.
  unfold addFace. cbn [forRange splitVertex]. rewrite Sa, Sb, Sc. run.
  rewrite Ta. run. rewrite Tb. run. rewrite Tc. run.
  repeat (first [rewrite Ax | rewrite Ay | rewrite Az
                 | rewrite adjustIndex_zero by assumption]; run).
  reflexivity.
Qed.

(** A face line hands its three vertex fields to [addFace] and prefixes
    the line number to the error. *)
Lemma decodeLine_face {F : Type} (zero one : F) (parse : string -> F + numErr)
    (o : Obj F) (line : nat) (text a b c : string) :
  Fields text = ["f"; a; b; c] ->
  decodeLine zero one parse o line text
  = do r <- addFace o [a; b; c]; Ret (r.1, ErrLine line <$> r.2).
Proof.
  intros Hf. unfold decodeLine. rewrite Hf. run. reflexivity.
Qed.

(** ** Relative indices *)

(** C7. A negative index [-k] with [1 <= k <= n] resolves against a
    collection of [n] entries to [n - k], which is also what the positive
    index [n - k + 1] resolves to; and after lines that declare three
    positions, the face [f -1 -2 -3] is decoded to the same document, with
    the same triples, as the face [f 3 2 1]. *)
Theorem relative_index_resolution :
  (forall n k : Z, 1 <= k <= n -> n <= max_int ->
     adjustIndex (- k) n = (n - k, None) /\
     adjustIndex (n - k + 1) n = adjustIndex (- k) n) /\
  (forall (F : Type) (zero one : F) (parse : string -> F + numErr)
          (pre : list string) (o : Obj F),
     decodeLoop zero one parse emptyObj 0 pre = Ret (o, None) ->
     length (Pos o) = 3%nat ->
     Decode zero one parse (mkScanner (pre ++ ["f -1 -2 -3"]) None)
     = Decode zero one parse (mkScanner (pre ++ ["f 3 2 1"]) None) /\
     exists s : Z,
       Decode zero one parse (mkScanner (pre ++ ["f 3 2 1"]) None)
       = Ret (Some (commit o ((2, s, s), (1, s, s), (0, s, s))), None)).
Proof.
  split.
  - intros n k Hk Hn. rewrite adjustIndex_negative by assumption.
    split; [reflexivity |]. rewrite adjustIndex_positive by lia. f_equal. lia.
  - intros F zero one parse pre o Hpre Hlen.
    assert (Hrel : addFace o ["-1"; "-2"; "-3"]
                   = Ret (commit o ((2, -1, -1), (1, -1, -1), (0, -1, -1)), None)).
    { apply (addFace_positions o "-1" "-2" "-3" (-1) (-2) (-3)); try reflexivity;
        unfold len; rewrite Hlen; reflexivity. }
    assert (Habs : addFace o ["3"; "2"; "1"]
                   = Ret (commit o ((2, -1, -1), (1, -1, -1), (0, -1, -1)), None)).
    { apply (addFace_positions o "3" "2" "1" 3 2 1); try reflexivity;
        unfold len; rewrite Hlen; reflexivity. }
    rewrite !(Decode_after zero one parse pre _ [] None o Hpre).
    rewrite (decodeLine_face zero one parse o _ "f -1 -2 -3" "-1" "-2" "-3") by reflexivity.
    rewrite (decodeLine_face zero one parse o _ "f 3 2 1" "3" "2" "1") by reflexivity.
    rewrite Hrel, Habs. split; [reflexivity |]. exists (-1). reflexivity.
Qed.

Lemma relative_index_resolution_witness :
  (adjustIndex (- 1) 3 = (3 - 1, None) /\ adjustIndex (3 - 1 + 1) 3 = adjustIndex (- 1) 3) /\
  (Decode 0 1 litFloat (mkScanner (["v 0 0 0"; "v 1 0 0"; "v 0 1 0"] ++ ["f -1 -2 -3"]) None)
   = Decode 0 1 litFloat (mkScanner (["v 0 0 0"; "v 1 0 0"; "v 0 1 0"] ++ ["f 3 2 1"]) None)).
Proof.
  split.
  - apply (proj1 relative_index_resolution 3 1); [lia | vm_compute; discriminate].
  - apply (proj2 relative_index_resolution Z 0 1 litFloat
             ["v 0 0 0"; "v 1 0 0"; "v 0 1 0"]
             (mkObj [[0; 0; 0; 1]; [1; 0; 0; 1]; [0; 1; 0; 1]] [] [] []));
      reflexivity.
Defined.

(** ** Indices past the end and omitted attributes *)

Section Scenarios.

Context {F : Type} (zero one : F) (parse : string -> F + numErr).

(** One position, texcoord or normal line whose numbers all parse. *)
Lemma parseFloats_ok (line : nat) (vals : list string) (fs : list F) :
  Forall2 (fun v f => parse v = inl f) vals fs ->
  forall (i : nat) (arr : list F),
  (i + length vals <= length arr)%nat ->
  forRange (fun i v arr =>
    match parse v with
    | inr e => Ret (arr, Some (ErrLine line (ErrNum "ParseFloat" v e)))
    | inl f => do arr' <- setAt arr i f; Ret (arr', None)
    end) i vals arr
  = Ret (take i arr ++ fs ++ drop (i + length vals) arr, None).
Proof.
  induction 1 as [|v f vals fs Hv Hall IH]; intros i arr Hlen; cbn [forRange length].
  - rewrite Nat.add_0_r. cbn [app]. rewrite take_drop. reflexivity.
  - cbn [length] in Hlen. rewrite Hv. unfold setAt.
    destruct (Nat.ltb_spec i (length arr)) as [Hi|Hi]; [| lia].
    cbn [bind andThen id]. rewrite IH by (rewrite length_insert; lia).
    f_equal. f_equal.
    rewrite (take_S_r _ _ f) by (apply list_lookup_insert_eq; lia).
    rewrite take_insert_ge by lia.
    rewrite drop_insert_lt by lia.
    rewrite <- app_assoc. cbn [app].
    replace (S i + length vals)%nat with (i + S (length vals))%nat by lia.
    reflexivity.
Qed.

Lemma parseFloats_all (line : nat) (vals : list string) (fs arr : list F) :
  Forall2 (fun v f => parse v = inl f) vals fs ->
  (length vals <= length arr)%nat ->
  parseFloats parse line vals arr = Ret (fs ++ drop (length vals) arr, None).
Proof.
  intros Hall Hlen. unfold parseFloats.
  rewrite (parseFloats_ok line vals fs Hall 0 arr) by lia. reflexivity.
Qed.

(** C1. Against a collection of [n] entries the index [n + 1] resolves
    to [n], one past the last entry, and is accepted. So the one-line
    stream [f 1 1 1] is decoded without error, although no position has
    been declared: the face refers to position 0 of an empty collection. *)
Theorem Decode_index_past_end :
  (forall n : Z, 0 <= n -> n + 1 <= max_int -> adjustIndex (n + 1) n = (n, None)) /\
  Decode zero one parse (mkScanner ["f 1 1 1"] None)
  = Ret (Some (mkObj [] [] [] [((0, -1, -1), (0, -1, -1), (0, -1, -1))]), None).
Proof.
  split; [| reflexivity].
  intros n Hn Hmax. rewrite adjustIndex_positive by lia. f_equal. lia.
Qed.

(** C3. On the document decoded from [f 1 1 1] the de-duplication loop
    of [loadModel] panics at [o.Pos[0]]: no mesh is produced. *)
Theorem loadModel_no_mesh :
  loadModel zero one parse (inr (mkScanner ["f 1 1 1"] None))
  = Panic (IndexOutOfRange 0 0).
Proof. reflexivity. Qed.

(** A position line of three numbers appends them with [w = 1]. *)
Lemma decodeLine_v3 (o : Obj F) (line : nat) (text x y z : string) (fx fy fz : F) :
  Fields text = ["v"; x; y; z] ->
  parse x = inl fx -> parse y = inl fy -> parse z = inl fz ->
  decodeLine zero one parse o line text
  = Ret (mkObj (Pos o ++ [[fx; fy; fz; one]]) (Tex o) (Nor o) (Face o), None).
Proof.
  intros Hf Hx Hy Hz. unfold decodeLine. rewrite Hf. run.
  rewrite (parseFloats_all line [x; y; z] [fx; fy; fz])
    by (repeat constructor; assumption || cbn; lia).
  reflexivity.
Qed.

(** A texcoord line of two numbers appends them with a third
    component 0. *)
Lemma decodeLine_vt2 (o : Obj F) (line : nat) (text x y : string) (fx fy : F) :
  Fields text = ["vt"; x; y] ->
  parse x = inl fx -> parse y = inl fy ->
  decodeLine zero one parse o line text
  = Ret (mkObj (Pos o) (Tex o ++ [[fx; fy; zero]]) (Nor o) (Face o), None).
Proof.
  intros Hf Hx Hy. unfold decodeLine. rewrite Hf. run.
  rewrite (parseFloats_all line [x; y] [fx; fy])
    by (repeat constructor; assumption || cbn; lia).
  reflexivity.
Qed.

(** C2. The slot of an attribute that a vertex omits holds 0 when the
    indices are resolved, and 0 resolves to -1 against a collection of
    any size. So three positions and the face [f 1 2 3], which gives
    neither texcoords nor normals, are decoded to triples whose texcoord
    and normal components are -1, not 0. *)
Theorem Decode_omitted_attributes (a b : F) :
  parse "0" = inl a -> parse "1" = inl b ->
  (forall n : Z, 0 <= n -> adjustIndex 0 n = (-1, None)) /\
  Decode zero one parse (mkScanner ["v 0 0 0"; "v 1 0 0"; "v 0 1 0"; "f 1 2 3"] None)
  = Ret (Some (mkObj [[a; a; a; one]; [b; a; a; one]; [a; b; a; one]] [] []
                 [((0, -1, -1), (1, -1, -1), (2, -1, -1))]), None).
Proof.
  intros H0 H1. split; [exact adjustIndex_zero |].
  unfold Decode. cbn [texts scanErr decodeLoop].
  rewrite (decodeLine_v3 _ _ "v 0 0 0" "0" "0" "0" a a a) by (reflexivity || assumption).
  cbn [andThen bind id].
  rewrite (decodeLine_v3 _ _ "v 1 0 0" "1" "0" "0" b a a) by (reflexivity || assumption).
  cbn [andThen bind id].
  rewrite (decodeLine_v3 _ _ "v 0 1 0" "0" "1" "0" a b a) by (reflexivity || assumption).
  cbn [andThen bind id].
  reflexivity.
Qed.

(** C9. One position, one texcoord and the face [f 1 1 1], which gives
    no texcoords: [Decode] succeeds, [loadModel] panics at [o.Tex[-1]],
    and so does the accessor [VertTex] on the document. *)
Theorem loadModel_omitted_texcoord (a : F) :
  parse "0" = inl a ->
  let o := mkObj [[a; a; a; one]] [[a; a; zero]] []
             [((0, -1, -1), (0, -1, -1), (0, -1, -1))] in
  Decode zero one parse (mkScanner ["v 0 0 0"; "vt 0 0"; "f 1 1 1"] None)
  = Ret (Some o, None) /\
  loadModel zero one parse (inr (mkScanner ["v 0 0 0"; "vt 0 0"; "f 1 1 1"] None))
  = Panic (IndexOutOfRange (-1) 1) /\
  VertTex o 0 0 = Panic (IndexOutOfRange (-1) 1).
Proof.
  intros H0 o.
  assert (HD : Decode zero one parse (mkScanner ["v 0 0 0"; "vt 0 0"; "f 1 1 1"] None)
               = Ret (Some o, None)).
  { unfold Decode. cbn [texts scanErr decodeLoop].
    rewrite (decodeLine_v3 _ _ "v 0 0 0" "0" "0" "0" a a a) by (reflexivity || assumption).
    cbn [andThen bind id].
    rewrite (decodeLine_vt2 _ _ "vt 0 0" "0" "0" a a) by (reflexivity || assumption).
    cbn [andThen bind id].
    reflexivity. }
  split; [exact HD |]. split; [| reflexivity].
  unfold loadModel. rewrite HD. reflexivity.
Qed.

End Scenarios.

Lemma Decode_index_past_end_witness :
  adjustIndex (3 + 1) 3 = (3, None).
Proof.
  apply (proj1 (Decode_index_past_end 0 1 litFloat) 3); [lia | vm_compute; discriminate].
Defined.

Lemma Decode_omitted_attributes_witness :
  Decode 0 1 litFloat (mkScanner ["v 0 0 0"; "v 1 0 0"; "v 0 1 0"; "f 1 2 3"] None)
  = Ret (Some (mkObj [[0; 0; 0; 1]; [1; 0; 0; 1]; [0; 1; 0; 1]] [] []
                 [((0, -1, -1), (1, -1, -1), (2, -1, -1))]), None).
Proof. apply (proj2 (Decode_omitted_attributes 0 1 litFloat 0 1 eq_refl eq_refl)). Defined.

Lemma loadModel_omitted_texcoord_witness :
  loadModel 0 1 litFloat (inr (mkScanner ["v 0 0 0"; "vt 0 0"; "f 1 1 1"] None))
  = Panic (IndexOutOfRange (-1) 1).
Proof.
  apply (proj1 (proj2 (loadModel_omitted_texcoord 0 1 litFloat 0 eq_refl))).
Defined.

(** ** The first loop of addFace *)

Lemma returns_Ret {A : Type} (a : A) : returns (Ret a).
Proof. exists a. reflexivity. Qed.

(** [strings.Split] yields at least one piece. *)
Lemma split_aux_length (sep : ascii) (s : string) (cur : list ascii) :
  (1 <= length (split_aux sep cur s))%nat.
Proof.
  revert cur. induction s as [|c s IH]; intros cur; cbn [split_aux].
  - cbn. lia.
  - destruct (Ascii.eqb c sep); [cbn; lia | apply IH].
Qed.

Lemma Split_length (s : string) : (1 <= length (Split s "/"))%nat.
Proof. apply split_aux_length. Qed.

(** The first loop of [addFace]: either some field has more than three
    components, or the vertices are the split fields. *)
Lemma splitVertex_loop (fields : list string) (i : nat) (acc : list (list string)) :
  (exists vs j v, fields !! j = Some v /\ (3 < length (Split v "/"))%nat /\
     forRange splitVertex i fields acc
     = Ret (vs, Some (ErrVertexMsg (i + j) (Split v "/") TooManyAttributes))) \/
  (Forall (fun v => (length (Split v "/") <= 3)%nat) fields /\
   forRange splitVertex i fields acc
   = Ret (acc ++ map (fun v => Split v "/") fields, None)).
Proof.
  revert i acc. induction fields as [|v fields IH]; intros i acc; cbn [forRange map].
  - right. rewrite app_nil_r. split; [constructor | reflexivity].
  - cbn [splitVertex]. unfold len.
    destruct (Z.gtb_spec (Z.of_nat (length (Split v "/"))) 3) as [Hgt|Hle].
    + left. exists (acc ++ [Split v "/"]), 0%nat, v.
      rewrite Nat.add_0_r. split; [reflexivity |]. split; [lia | reflexivity].
    + cbn [andThen bind id].
      destruct (IH (S i) (acc ++ [Split v "/"])) as [(vs & j & w & Hj & Hlen & Hrun)|[Hall Hrun]].
      * left. exists vs, (S j), w. split; [exact Hj |]. split; [exact Hlen |].
        rewrite Hrun. replace (S i + j)%nat with (i + S j)%nat by lia. reflexivity.
      * right. split; [constructor; [lia | exact Hall] |].
        rewrite Hrun. rewrite <- app_assoc. reflexivity.
Qed.

(** ** The index fields of a face vertex *)

Lemma toIndex_ok (s : string) :
  okIndex s = true ->
  exists z, toIndex s = (z, None) /\ z <> 0 /\ ParseInt32 s = inl z.
Proof.
  unfold okIndex, toIndex. destruct (ParseInt32 s) as [z|ne]; [| discriminate].
  destruct (Z.eqb_spec z 0) as [->|Hz]; [discriminate |].
  intros _. exists z. repeat split. exact Hz.
Qed.

Lemma toIndex_bad (s : string) :
  okIndex s = false ->
  exists e, toIndex s = (0, Some e) /\
    ((exists ne, e = ErrNum "ParseInt" s ne) \/ (e = ErrZeroIndex /\ ParseInt32 s = inl 0)).
Proof.
  unfold okIndex, toIndex. destruct (ParseInt32 s) as [z|ne].
  - destruct (Z.eqb_spec z 0) as [->|Hz]; [| discriminate].
    intros _. exists ErrZeroIndex. split; [reflexivity |]. right. split; reflexivity.
  - intros _. exists (ErrNum "ParseInt" s ne). split; [reflexivity |]. left. exists ne. reflexivity.
Qed.

Lemma slen_zero (t : string) : (slen t =? 0) = String.eqb t "".
Proof. destruct t; reflexivity. Qed.

Ltac index_field s :=
  let H := fresh "Hok" in
  let z := fresh "z" in
  let e := fresh "e" in
  let Ht := fresh "Ht" in
  let Hz := fresh "Hz" in
  let Hp := fresh "Hp" in
  destruct (okIndex s) eqn:H;
  [ apply toIndex_ok in H as (z & Ht & Hz & Hp)
  | apply toIndex_bad in H as (e & Ht & Hp) ];
  rewrite Ht; cbn.

Ltac in_list := apply list_elem_of_In; cbn; tauto.

Lemma vertexError_field (i : nat) (vert : list string) (s : string) (e : error) :
  s ∈ vert ->
  (exists ne, e = ErrNum "ParseInt" s ne) \/ (e = ErrZeroIndex /\ ParseInt32 s = inl 0) ->
  vertexError i vert (ErrVertex i vert e).
Proof.
  intros Hin [[ne ->]|[-> Hz]].
  - left. reflexivity.
  - right. split; [reflexivity |]. exists s. split; assumption.
Qed.

(** The second loop of [addFace], one vertex: it is accepted or rejected
    with an error, and never panics. *)
Lemma parseVertex_cases (numAtt : Z) (skipTex : bool) (i : nat)
    (vert : list string) (fc : face) :
  1 <= numAtt <= 3 ->
  (vertexOk numAtt skipTex vert = true /\
   exists fc', parseVertex numAtt skipTex i vert fc = Ret (fc', None)) \/
  (vertexOk numAtt skipTex vert = false /\
   exists fc' e, parseVertex numAtt skipTex i vert fc = Ret (fc', Some e) /\
                 vertexError i vert e).
Proof.
  intros Hn. unfold parseVertex, vertexOk.
  destruct (Z.eqb_spec (len vert) numAtt) as [<-|Hne]; cbn [negb andb].
  2:{ right. split; [reflexivity |]. eexists _, _. split; [reflexivity |]. left. reflexivity. }
  destruct vert as [|p [|t [|n [|x rest]]]].
  - cbn in Hn. lia.
  - run. index_field p.
    + left. split; [reflexivity |]. eexists. reflexivity.
    + right. split; [reflexivity |]. eexists _, _. split; [reflexivity |].
      apply (vertexError_field _ _ p); [in_list | exact Hp].
  - run. index_field p.
    + index_field t.
      * left. split; [reflexivity |]. eexists. reflexivity.
      * right. split; [reflexivity |]. eexists _, _. split; [reflexivity |].
        apply (vertexError_field _ _ t); [in_list | exact Hp0].
    + right. split; [reflexivity |]. eexists _, _. split; [reflexivity |].
      apply (vertexError_field _ _ p); [in_list | exact Hp].
  - run. index_field p.
    2:{ right. split; [reflexivity |]. eexists _, _. split; [reflexivity |].
        apply (vertexError_field _ _ p); [in_list | exact Hp]. }
    destruct skipTex.
    + closed_conv. cbn. rewrite slen_zero. destruct (String.eqb t "") eqn:Het; cbn.
      * index_field n.
        -- left. split; [reflexivity |]. eexists. reflexivity.
        -- right. split; [reflexivity |]. eexists _, _. split; [reflexivity |].
           apply (vertexError_field _ _ n); [in_list | exact Hp0].
      * right. split; [reflexivity |]. eexists _, _. split; [reflexivity |].
        left. reflexivity.
    + closed_conv. cbn. index_field t.
      2:{ right. split; [reflexivity |]. eexists _, _. split; [reflexivity |].
          apply (vertexError_field _ _ t); [in_list | exact Hp0]. }
      index_field n.
      * left. split; [reflexivity |]. eexists. reflexivity.
      * right. split; [reflexivity |]. eexists _, _. split; [reflexivity |].
        apply (vertexError_field _ _ n); [in_list | exact Hp1].
  - exfalso. unfold len in Hn. cbn [length] in Hn. lia.
Qed.

(** The second loop of [addFace]: every vertex is accepted, or the loop
    stops at the first one that is not, with its error. *)
Lemma parseLoop_cases (numAtt : Z) (skipTex : bool) (vertices : list (list string)) :
  1 <= numAtt <= 3 ->
  forall (i : nat) (fc : face),
  (forallb (vertexOk numAtt skipTex) vertices = true /\
   exists fc', forRange (parseVertex numAtt skipTex) i vertices fc = Ret (fc', None)) \/
  (forallb (vertexOk numAtt skipTex) vertices = false /\
   exists j vert fc' e,
     vertices !! j = Some vert /\
     forRange (parseVertex numAtt skipTex) i vertices fc = Ret (fc', Some e) /\
     vertexError (i + j) vert e).
Proof.
  intros Hn. induction vertices as [|vert vertices IH]; intros i fc; cbn [forRange forallb].
  - left. split; [reflexivity |]. eexists. reflexivity.
  - destruct (parseVertex_cases numAtt skipTex i vert fc Hn)
      as [[Hok [fc1 Hrun]]|[Hbad (fc1 & e & Hrun & He)]]; rewrite Hok || rewrite Hbad;
      rewrite Hrun; cbn [andb andThen bind id].
    + destruct (IH (S i) fc1) as [[Hall [fc2 Hrest]]|[Hall (j & w & fc2 & e & Hj & Hrest & He)]].
      * left. split; [exact Hall |]. exists fc2. exact Hrest.
      * right. split; [exact Hall |]. exists (S j), w, fc2, e.
        split; [exact Hj |]. split; [exact Hrest |].
        replace (i + S j)%nat with (S i + j)%nat by lia. exact He.
    + right. split; [reflexivity |]. exists 0%nat, vert, fc1, e.
      split; [reflexivity |]. split; [reflexivity |]. rewrite Nat.add_0_r. exact He.
Qed.

Lemma adjustIndex_error (attIdx attLen x : Z) (e : error) :
  adjustIndex attIdx attLen = (x, Some e) -> kindOf e = IndexError.
Proof.
  unfold adjustIndex.
  destruct (attIdx <? 0).
  - destruct (wrap_int (attIdx + attLen) <? 0); [intros [= _ <-]; reflexivity |].
    destruct (wrap_int (attIdx + attLen) >? attLen); [intros [= _ <-]; reflexivity | discriminate].
  - destruct (wrap_int (attIdx - 1) >? attLen); [intros [= _ <-]; reflexivity | discriminate].
Qed.

Lemma adjustAtt_cases (i : nat) (vert : list string) (a : Att.t) (attLen : Z) (fc : face) :
  exists fc' oe, adjustAtt i vert a attLen fc = Ret (fc', oe) /\
    forall e, oe = Some e -> kindOf e = IndexError.
Proof.
  unfold adjustAtt.
  destruct (adjustIndex (vget a (fget i fc)) attLen) as [x [e|]] eqn:Ha.
  - eexists _, _. split; [reflexivity |]. cbn. intros e' [= <-]. cbn.
    eapply adjustIndex_error. exact Ha.
  - eexists _, _. split; [reflexivity |]. cbn. discriminate.
Qed.

(** The third loop of [addFace], one vertex. *)
Lemma adjustVertex_cases {F : Type} (o : Obj F) (vertices : list (list string))
    (i : nat) (v : vtx) (fc : face) :
  (i < length vertices)%nat ->
  exists fc' oe, adjustVertex o vertices i v fc = Ret (fc', oe) /\
    forall e, oe = Some e -> kindOf e = IndexError.
Proof.
  intros Hi. unfold adjustVertex, index.
  destruct (lookup_lt_is_Some_2 vertices i Hi) as [vert Hv].
  replace ((0 <=? Z.of_nat i) && (Z.of_nat i <? len vertices)) with true
    by (symmetry; apply andb_true_iff; unfold len; split;
        [apply Z.leb_le | apply Z.ltb_lt]; lia).
  rewrite Nat2Z.id, Hv. cbn [bind].
  destruct (adjustAtt_cases i vert Att.P (len (Pos o)) fc) as (fc1 & [e1|] & -> & H1);
    cbn [andThen bind id].
  { eexists _, _. split; [reflexivity | exact H1]. }
  destruct (adjustAtt_cases i vert Att.T (len (Tex o)) fc1) as (fc2 & [e2|] & -> & H2);
    cbn [andThen bind id].
  { eexists _, _. split; [reflexivity | exact H2]. }
  destruct (adjustAtt_cases i vert Att.N (len (Nor o)) fc2) as (fc3 & oe & -> & H3).
  eexists _, _. split; [reflexivity | exact H3].
Qed.

Lemma adjustLoop_cases {F : Type} (o : Obj F) (vertices : list (list string))
    (vs : list vtx) (i : nat) (fc : face) :
  (i + length vs <= length vertices)%nat ->
  exists fc' oe, forRange (adjustVertex o vertices) i vs fc = Ret (fc', oe) /\
    forall e, oe = Some e -> kindOf e = IndexError.
Proof.
  revert i fc. induction vs as [|v vs IH]; intros i fc Hlen; cbn [forRange].
  - eexists _, _. split; [reflexivity | discriminate].
  - cbn [length] in Hlen.
    destruct (adjustVertex_cases o vertices i v fc) as (fc1 & [e1|] & -> & H1); [lia | |];
      cbn [andThen bind id].
    + eexists _, _. split; [reflexivity | exact H1].
    + apply IH. lia.
Qed.

(** ** The face line as a whole *)

Lemma forallb_map {A B : Type} (f : A -> B) (p : B -> bool) (l : list A) :
  forallb p (map f l) = forallb (fun x => p (f x)) l.
Proof. induction l as [|x l IH]; cbn; [reflexivity | rewrite IH; reflexivity]. Qed.

(** [addFace] on three fields never panics; it rejects every face that is
    not [faceOk] with a [faceError], and any other error it returns comes
    from [adjustIndex]. *)
Lemma addFace_cases {F : Type} (o : Obj F) (a b c : string) :
  exists o' oe, addFace o [a; b; c] = Ret (o', oe) /\
    (faceOk [a; b; c] = false -> exists e, oe = Some e /\ faceError [a; b; c] e) /\
    (faceOk [a; b; c] = true -> forall e, oe = Some e -> kindOf e = IndexError).
Proof.
  unfold addFace. change (negb (len [a; b; c] =? 3)) with false. cbn iota.
  destruct (splitVertex_loop [a; b; c] 0 [])
    as [(vs & j & v & Hj & Hlen & Hrun)|[Hall Hrun]]; rewrite Hrun; cbn [andThen bind app map].
  { eexists _, _. split; [reflexivity |]. split.
    - intros _. eexists. split; [reflexivity |]. left. reflexivity.
    - unfold faceOk. intros Hok. apply andb_true_iff in Hok as [Hok _].
      rewrite forallb_forall in Hok.
      assert (Hv : In v [a; b; c]) by (apply list_elem_of_In, list_elem_of_lookup; eauto).
      specialize (Hok v Hv). apply Z.leb_le in Hok. unfold len in Hok. lia. }
  assert (Hshort : forallb (fun v => len (Split v "/") <=? 3) [a; b; c] = true).
  { apply forallb_forall. intros v Hv. rewrite Forall_forall in Hall.
    apply Z.leb_le. unfold len. specialize (Hall v). rewrite list_elem_of_In in Hall.
    specialize (Hall Hv). lia. }
  unfold faceOk. rewrite Hshort. cbn [andb].
  change (index [Split a "/"; Split b "/"; Split c "/"] 0) with (Ret (Split a "/")).
  cbn [bind].
  set (va := Split a "/") in *.
  assert (Hnum : 1 <= len va <= 3).
  { pose proof (Split_length a) as Hge. apply Forall_cons in Hall as [Ha _].
    unfold len, va. lia. }
  assert (Hskip : (if len va =? 3 then do t <- index va 1; Ret (slen t =? 0) else Ret false)
                  = Ret (template va).2).
  { unfold template. cbn [snd].
    destruct va as [|p [|t [|n [|x rest]]]]; try reflexivity.
    - cbn [elided]. rewrite <- slen_zero. reflexivity.
    - exfalso. unfold len in Hnum. cbn [length] in Hnum. lia. }
  rewrite Hskip. cbn [bind]. change (len va) with (template va).1.
  rewrite <- (forallb_map (fun v => Split v "/")
                (vertexOk (template va).1 (template va).2) [a; b; c]).
  cbn [map]. fold va.
  destruct (parseLoop_cases (template va).1 (template va).2
              [va; Split b "/"; Split c "/"] Hnum 0 zero_face)
    as [[Hok [fc Hparse]]|[Hbad (j & vert & fc & e & Hj & Hparse & He)]];
    rewrite Hparse; cbn [andThen bind].
  - rewrite Hok.
    destruct (adjustLoop_cases o [va; Split b "/"; Split c "/"] (verts fc) 0 fc)
      as (fc' & [e|] & Hadj & Hkind).
    { destruct fc as [[x y] z]. cbn. lia. }
    + rewrite Hadj. cbn [andThen bind]. eexists _, _. split; [reflexivity |].
      split; [discriminate |]. intros _ e' [= <-]. apply Hkind. reflexivity.
    + rewrite Hadj. cbn [andThen bind]. eexists _, _. split; [reflexivity |].
      split; discriminate.
  - rewrite Hbad. eexists _, _. split; [reflexivity |]. split; [| discriminate].
    intros _. exists e. split; [reflexivity |].
    destruct He as [He|[-> Hz]]; [left; exact He | right].
    destruct j as [|[|[|j]]]; cbn in Hj; try discriminate; injection Hj as <-.
    + exists 0%nat, a. repeat split. exact Hz.
    + exists 1%nat, b. repeat split. exact Hz.
    + exists 2%nat, c. repeat split. exact Hz.
Qed.

(** ** Lines and the whole stream *)

Section DecodeCases.

Context {F : Type} (zero one : F) (parse : string -> F + numErr).

Lemma parseFloats_cases (line : nat) (vals : list string) (i : nat) (arr : list F) :
  (i + length vals <= length arr)%nat ->
  exists arr' oe,
    forRange (fun i v arr =>
      match parse v with
      | inr e => Ret (arr, Some (ErrLine line (ErrNum "ParseFloat" v e)))
      | inl f => do arr' <- setAt arr i f; Ret (arr', None)
      end) i vals arr = Ret (arr', oe) /\
    forall e, oe = Some e -> lineError line e.
Proof.
  revert i arr. induction vals as [|v vals IH]; intros i arr Hlen; cbn [forRange].
  - eexists _, _. split; [reflexivity | discriminate].
  - cbn [length] in Hlen. destruct (parse v) as [f|ne].
    + unfold setAt. destruct (Nat.ltb_spec i (length arr)) as [Hi|Hi]; [| lia].
      cbn [bind andThen id]. apply IH. rewrite length_insert. lia.
    + cbn [andThen bind id]. eexists _, _. split; [reflexivity |].
      intros e [= <-]. split; [reflexivity | discriminate].
Qed.

Lemma parseFloats_line (line : nat) (vals : list string) (arr : list F)
    {St : Type} (stop : list F -> St) (k : list F -> St) :
  (length vals <= length arr)%nat ->
  exists s oe,
    andThen (parseFloats parse line vals arr) stop (fun p => Ret (k p, None)) = Ret (s, oe) /\
    forall e, oe = Some e -> lineError line e.
Proof.
  intros Hlen. unfold parseFloats.
  destruct (parseFloats_cases line vals 0 arr) as (arr' & [e|] & -> & He); [lia | |];
    cbn [andThen bind]; eexists _, _; (split; [reflexivity |]); [exact He | discriminate].
Qed.

(** One line of [Decode]: no panic, and an error, if any, carries the
    number of the line. *)
Lemma decodeLine_cases (o : Obj F) (line : nat) (text : string) :
  exists o' oe, decodeLine zero one parse o line text = Ret (o', oe) /\
    forall e, oe = Some e -> lineError line e.
Proof.
  unfold decodeLine. destruct (Fields text) as [|first vals].
  { eexists _, _. split; [reflexivity | discriminate]. }
  replace (len (first :: vals) =? 0) with false
    by (symmetry; apply Z.eqb_neq; unfold len; cbn [length]; lia).
  replace (index (first :: vals) 0) with (Ret first)
    by (unfold index, len; cbn [length];
        replace (0 <? Z.of_nat (S (length vals))) with true
          by (symmetry; apply Z.ltb_lt; lia); reflexivity).
  cbn [bind]. change (drop 1 (first :: vals)) with vals.
  assert (Hlen : len (first :: vals) = 1 + Z.of_nat (length vals))
    by (unfold len; cbn [length]; lia).
  rewrite Hlen.
  destruct (toElem first).
  - eexists _, _. split; [reflexivity | discriminate].
  - destruct (Z.ltb_spec (1 + Z.of_nat (length vals)) 4) as [Hlo|Hlo]; cbn [orb].
    { eexists _, _. split; [reflexivity |]. intros e [= <-]. split; [reflexivity | discriminate]. }
    destruct (Z.gtb_spec (1 + Z.of_nat (length vals)) 5) as [Hhi|Hhi].
    { eexists _, _. split; [reflexivity |]. intros e [= <-]. split; [reflexivity | discriminate]. }
    apply parseFloats_line. rewrite ?length_insert, length_replicate. lia.
  - destruct (Z.ltb_spec (1 + Z.of_nat (length vals)) 3) as [Hlo|Hlo]; cbn [orb].
    { eexists _, _. split; [reflexivity |]. intros e [= <-]. split; [reflexivity | discriminate]. }
    destruct (Z.gtb_spec (1 + Z.of_nat (length vals)) 4) as [Hhi|Hhi].
    { eexists _, _. split; [reflexivity |]. intros e [= <-]. split; [reflexivity | discriminate]. }
    apply parseFloats_line. rewrite ?length_insert, length_replicate. lia.
  - destruct (Z.eqb_spec (1 + Z.of_nat (length vals)) 4) as [Heq|Hne]; cbn [negb].
    2:{ eexists _, _. split; [reflexivity |]. intros e [= <-]. split; [reflexivity | discriminate]. }
    apply parseFloats_line. rewrite ?length_insert, length_replicate. lia.
  - destruct (Z.eqb_spec (1 + Z.of_nat (length vals)) 4) as [Heq|Hne]; cbn [negb].
    2:{ eexists _, _. split; [reflexivity |]. intros e [= <-]. split; [reflexivity | discriminate]. }
    destruct vals as [|a [|b [|c [|d rest]]]]; cbn [length] in Heq; try lia.
    destruct (addFace_cases o a b c) as (o' & oe & -> & Hbad & Hgood).
    cbn [bind fst snd]. eexists _, _. split; [reflexivity |].
    destruct oe as [e|]; [| discriminate]. cbn. intros e' [= <-].
    split; [reflexivity |]. cbn.
    destruct (faceOk [a; b; c]) eqn:Hok.
    + rewrite (Hgood eq_refl e eq_refl). discriminate.
    + destruct (Hbad eq_refl) as (e' & [= <-] & [He|(i & v & _ & -> & _)]).
      * rewrite He. discriminate.
      * discriminate.
  - eexists _, _. split; [reflexivity | discriminate].
Qed.


(** A line that is rejected, after lines that are accepted, is where
    [Decode] stops: it returns the error of that line and no document. *)
Lemma Decode_stops (pre : list string) (text : string) (post : list string)
    (err : option nat) (o o' : Obj F) (e : error) :
  decodeLoop zero one parse emptyObj 0 pre = Ret (o, None) ->
  decodeLine zero one parse o (S (length pre)) text = Ret (o', Some e) ->
  Decode zero one parse (mkScanner (pre ++ text :: post) err) = Ret (None, Some e).
Proof.
  intros Hpre Hline. rewrite (Decode_after zero one parse pre text post err o Hpre).
  rewrite Hline. reflexivity.
Qed.

End DecodeCases.

(** ** Zero indices and inconsistent vertices *)

Lemma okIndex_zero (s : string) : ParseInt32 s = inl 0 -> okIndex s = false.
Proof. unfold okIndex. intros ->. reflexivity. Qed.

Lemma ParseInt32_empty (s : string) : ParseInt32 s = inl 0 -> String.eqb s "" = false.
Proof. destruct s; [discriminate | reflexivity]. Qed.

(** A vertex with a zero field is not accepted. *)
Lemma hasZero_vertexOk (numAtt : Z) (skipTex : bool) (vert : list string) :
  hasZero vert -> vertexOk numAtt skipTex vert = false.
Proof.
  intros (s & Hin & Hz). pose proof (okIndex_zero s Hz) as Hbad.
  pose proof (ParseInt32_empty s Hz) as Hne.
  unfold vertexOk. destruct (len vert =? numAtt); [cbn [andb] | reflexivity].
  apply list_elem_of_In in Hin.
  destruct vert as [|p [|t [|n [|x rest]]]]; cbn [In] in Hin; try reflexivity.
  - destruct Hin as [->|[]]. exact Hbad.
  - destruct Hin as [->|[->|[]]]; rewrite Hbad; [reflexivity | apply andb_false_r].
  - destruct Hin as [->|[->|[->|[]]]].
    + rewrite Hbad. reflexivity.
    + rewrite Hbad, Hne. destruct skipTex; rewrite andb_false_r; reflexivity.
    + rewrite Hbad. apply andb_false_r.
Qed.

Lemma faceOk_vertex (f0 : string) (rest : list string) (v : string) :
  faceOk (f0 :: rest) = true -> v ∈ f0 :: rest ->
  vertexOk (template (Split f0 "/")).1 (template (Split f0 "/")).2 (Split v "/") = true.
Proof.
  unfold faceOk. intros H Hv. apply andb_true_iff in H as [_ H].
  rewrite forallb_forall in H. apply H. apply list_elem_of_In. exact Hv.
Qed.

(** A face one of whose vertices has a zero field is not accepted. *)
Lemma hasZero_faceOk (fields : list string) (v : string) :
  v ∈ fields -> hasZero (Split v "/") -> faceOk fields = false.
Proof.
  intros Hv Hz. destruct (faceOk fields) eqn:Hok; [| reflexivity].
  destruct fields as [|f0 rest]; [inversion Hv |].
  pose proof (faceOk_vertex f0 rest v Hok Hv) as H.
  rewrite (hasZero_vertexOk _ _ _ Hz) in H. discriminate.
Qed.

Lemma vertexOk_template (v0 v : list string) :
  vertexOk (template v0).1 (template v0).2 v = true ->
  length v = length v0 /\ (length v0 = 3%nat -> elided v = elided v0).
Proof.
  unfold vertexOk, template. cbn [fst snd]. intros H.
  apply andb_true_iff in H as [Hlen H]. apply Z.eqb_eq in Hlen. unfold len in Hlen.
  split; [lia |]. intros H3.
  destruct v0 as [|p0 [|t0 [|n0 [|x0 r0]]]]; try discriminate.
  destruct v as [|p [|t [|n [|x r]]]]; cbn [length] in Hlen; try lia.
  unfold len in H. cbn [length] in H. change (Z.of_nat 3 =? 3) with true in H.
  cbn [andb elided] in *. destruct (String.eqb t0 "").
  - apply andb_true_iff in H as [H _]. apply andb_true_iff in H as [_ H]. exact H.
  - apply andb_true_iff in H as [H _]. apply andb_true_iff in H as [_ H].
    destruct (String.eqb_spec t "") as [->|]; [discriminate | reflexivity].
Qed.

(** A face one of whose vertices departs from the first is not accepted. *)
Lemma mismatch_faceOk (f0 : string) (rest : list string) (v : string) :
  v ∈ rest -> mismatch (Split f0 "/") (Split v "/") -> faceOk (f0 :: rest) = false.
Proof.
  intros Hv Hm. destruct (faceOk (f0 :: rest)) eqn:Hok; [| reflexivity].
  assert (Hin : v ∈ f0 :: rest) by (right; exact Hv).
  destruct (vertexOk_template _ _ (faceOk_vertex f0 rest v Hok Hin)) as [Hlen Hel].
  destruct Hm as [Hne|(H3 & _ & Hne)]; [contradiction |].
  exfalso. apply Hne, Hel, H3.
Qed.

Section FaceLines.

Context {F : Type} (zero one : F) (parse : string -> F + numErr).

(** A face line with another number of vertices than three. *)
Lemma decodeLine_face_count (o : Obj F) (line : nat) (text : string) (vs : list string) :
  Fields text = "f" :: vs -> length vs <> 3%nat ->
  decodeLine zero one parse o line text = Ret (o, Some (ErrFieldCount line NameF)).
Proof.
  intros Hf Hn. unfold decodeLine. rewrite Hf.
  replace (len ("f" :: vs) =? 0) with false
    by (symmetry; apply Z.eqb_neq; unfold len; cbn [length]; lia).
  replace (index ("f" :: vs) 0) with (Ret "f")
    by (unfold index, len; cbn [length];
        replace (0 <? Z.of_nat (S (length vs))) with true
          by (symmetry; apply Z.ltb_lt; lia); reflexivity).
  cbn [bind]. change (toElem "f") with facElem. cbn iota.
  replace (len ("f" :: vs) =? 4) with false
    by (symmetry; apply Z.eqb_neq; unfold len; cbn [length]; lia).
  reflexivity.
Qed.

Lemma decodeLine_face_rejected (o : Obj F) (line : nat) (text : string) (vs : list string) :
  Fields text = "f" :: vs ->
  (length vs = 3%nat -> faceOk vs = false) ->
  exists o' e, decodeLine zero one parse o line text = Ret (o', Some e) /\
               faceLineError line vs e.
Proof.
  intros Hf Hbad. destruct (Nat.eq_dec (length vs) 3%nat) as [H3|H3].
  - destruct vs as [|a [|b [|c [|d rest]]]]; try discriminate.
    rewrite (decodeLine_face zero one parse o line text a b c Hf).
    destruct (addFace_cases o a b c) as (o' & oe & -> & Hrej & _).
    destruct (Hrej (Hbad H3)) as (e & -> & He). cbn [bind fst snd fmap option_fmap option_map].
    eexists _, _. split; [reflexivity |]. split; [reflexivity |].
    destruct He as [He|(i & v & Hi & -> & Hz)]; [left; exact He | right].
    exists i, v. split; [exact Hi |]. split; [exact Hz | reflexivity].
  - rewrite (decodeLine_face_count o line text vs Hf H3).
    eexists _, _. split; [reflexivity |]. split; [reflexivity | left; reflexivity].
Qed.

End FaceLines.

(** ** The first defect of a face line *)

Lemma toIndex_verdict (i : nat) (s : string) :
  match fieldDefect i s with
  | None => exists z, toIndex s = (z, None)
  | Some SyntaxDefect => exists ne, toIndex s = (0, Some (ErrNum "ParseInt" s ne))
  | Some (ZeroDefect j) => j = i /\ toIndex s = (0, Some ErrZeroIndex)
  end.
Proof.
  unfold fieldDefect, toIndex. destruct (ParseInt32 s) as [z|ne].
  - destruct (z =? 0); [split; reflexivity | eexists; reflexivity].
  - exists ne. reflexivity.
Qed.

Ltac field_verdict i s :=
  let H := fresh "Hv" in
  let z := fresh "z" in
  pose proof (toIndex_verdict i s) as H;
  destruct (fieldDefect i s) as [[|?]|];
  [ destruct H as [? H] | destruct H as [-> H] | destruct H as [z H] ];
  rewrite H; cbn.

(** The second loop of [addFace], one vertex: it stops at the first
    defect of the vertex, with the error of that defect. *)
Lemma parseVertex_verdict (numAtt : Z) (skipTex : bool) (i : nat)
    (vert : list string) (fc : face) :
  1 <= numAtt <= 3 ->
  match vertexDefect numAtt skipTex i vert with
  | None => exists fc', parseVertex numAtt skipTex i vert fc = Ret (fc', None)
  | Some SyntaxDefect =>
      exists fc' e, parseVertex numAtt skipTex i vert fc = Ret (fc', Some e) /\
                    kindOf e = SyntaxError
  | Some (ZeroDefect j) =>
      j = i /\
      exists fc', parseVertex numAtt skipTex i vert fc
                  = Ret (fc', Some (ErrVertex i vert ErrZeroIndex))
  end.
Proof.
  intros Hn. unfold parseVertex, vertexDefect.
  destruct (Z.eqb_spec (len vert) numAtt) as [<-|Hne]; cbn [negb].
  2:{ eexists _, _. split; reflexivity. }
  destruct vert as [|p [|t [|n [|x rest]]]].
  - cbn in Hn. lia.
  - run. field_verdict i p.
    + eexists _, _. split; reflexivity.
    + split; [reflexivity |]. eexists. reflexivity.
    + eexists. reflexivity.
  - run. field_verdict i p.
    + eexists _, _. split; reflexivity.
    + split; [reflexivity |]. eexists. reflexivity.
    + field_verdict i t.
      * eexists _, _. split; reflexivity.
      * split; [reflexivity |]. eexists. reflexivity.
      * eexists. reflexivity.
  - run. field_verdict i p.
    + eexists _, _. split; reflexivity.
    + split; [reflexivity |]. eexists. reflexivity.
    + destruct skipTex.
      * closed_conv. cbn. rewrite slen_zero. destruct (String.eqb t "") eqn:Het; cbn.
        -- field_verdict i n.
           ++ eexists _, _. split; reflexivity.
           ++ split; [reflexivity |]. eexists. reflexivity.
           ++ eexists. reflexivity.
        -- eexists _, _. split; reflexivity.
      * closed_conv. cbn. field_verdict i t.
        -- eexists _, _. split; reflexivity.
        -- split; [reflexivity |]. eexists. reflexivity.
        -- field_verdict i n.
           ++ eexists _, _. split; reflexivity.
           ++ split; [reflexivity |]. eexists. reflexivity.
           ++ eexists. reflexivity.
  - exfalso. unfold len in Hn. cbn [length] in Hn. lia.
Qed.

(** The second loop of [addFace]: it stops at the first defect of the
    vertices, with the error of that defect. *)
Lemma parseLoop_verdict (numAtt : Z) (skipTex : bool) (vertices : list (list string)) :
  1 <= numAtt <= 3 ->
  forall (i : nat) (fc : face),
  match loopDefect numAtt skipTex i vertices with
  | None => exists fc', forRange (parseVertex numAtt skipTex) i vertices fc = Ret (fc', None)
  | Some SyntaxDefect =>
      exists fc' e, forRange (parseVertex numAtt skipTex) i vertices fc = Ret (fc', Some e) /\
                    kindOf e = SyntaxError
  | Some (ZeroDefect j) =>
      exists fc' vert, (i <= j)%nat /\ vertices !! (j - i)%nat = Some vert /\
        forRange (parseVertex numAtt skipTex) i vertices fc
        = Ret (fc', Some (ErrVertex j vert ErrZeroIndex))
  end.
Proof.
  intros Hn. induction vertices as [|vert vertices IH]; intros i fc; cbn [forRange loopDefect].
  - eexists. reflexivity.
  - pose proof (parseVertex_verdict numAtt skipTex i vert fc Hn) as Hv.
    destruct (vertexDefect numAtt skipTex i vert) as [[|j]|]; cbn [orElse].
    + destruct Hv as (fc1 & e & -> & He). cbn [andThen bind id].
      eexists _, _. split; [reflexivity | exact He].
    + destruct Hv as (-> & fc1 & ->). cbn [andThen bind id].
      exists fc1, vert. split; [lia |]. rewrite Nat.sub_diag. split; reflexivity.
    + destruct Hv as (fc1 & ->). cbn [andThen bind id].
      specialize (IH (S i) fc1).
      destruct (loopDefect numAtt skipTex (S i) vertices) as [[|j]|].
      * exact IH.
      * destruct IH as (fc2 & w & Hle & Hw & Hrun). exists fc2, w.
        split; [lia |]. split; [| exact Hrun].
        replace (j - i)%nat with (S (j - S i)) by lia. exact Hw.
      * exact IH.
Qed.

Lemma vertexDefect_None (numAtt : Z) (skipTex : bool) (i : nat) (vert : list string) :
  vertexDefect numAtt skipTex i vert = None <-> vertexOk numAtt skipTex vert = true.
Proof.
  assert (Hf : forall s, fieldDefect i s = None <-> okIndex s = true).
  { intros s. unfold fieldDefect, okIndex. destruct (ParseInt32 s) as [z|ne].
    - destruct (z =? 0); cbn; split; congruence.
    - split; discriminate. }
  unfold vertexDefect, vertexOk. destruct (len vert =? numAtt); cbn [negb andb];
    [| split; discriminate].
  destruct vert as [|p [|t [|n [|x rest]]]]; try (split; discriminate).
  - apply Hf.
  - rewrite andb_true_iff, <- !Hf. destruct (fieldDefect i p); cbn [orElse];
      [split; [discriminate | intros [H _]; discriminate] | tauto].
  - rewrite !andb_true_iff, <- !Hf. destruct (fieldDefect i p); cbn [orElse];
      [split; [discriminate | intros [[H _] _]; discriminate] |].
    destruct skipTex.
    + destruct (String.eqb t ""); cbn [orElse]; [tauto |].
      split; [discriminate | intros [[_ H] _]; discriminate].
    + rewrite <- Hf. destruct (fieldDefect i t); cbn [orElse];
        [split; [discriminate | intros [[_ H] _]; discriminate] | tauto].
Qed.

Lemma loopDefect_None (numAtt : Z) (skipTex : bool) (vertices : list (list string)) (i : nat) :
  loopDefect numAtt skipTex i vertices = None <->
  forallb (vertexOk numAtt skipTex) vertices = true.
Proof.
  revert i. induction vertices as [|vert vertices IH]; intros i; cbn [loopDefect forallb].
  - split; reflexivity.
  - rewrite andb_true_iff, <- (IH (S i)), <- (vertexDefect_None numAtt skipTex i vert).
    destruct (vertexDefect numAtt skipTex i vert); cbn [orElse];
      [split; [discriminate | intros [H _]; discriminate] | tauto].
Qed.

(** No defect is what [faceOk] says. *)
Lemma faceDefect_None (f0 : string) (rest : list string) :
  faceDefect (f0 :: rest) = None <-> faceOk (f0 :: rest) = true.
Proof.
  unfold faceDefect, faceOk.
  destruct (forallb (fun v => len (Split v "/") <=? 3) (f0 :: rest)); cbn [negb andb];
    [| split; discriminate].
  rewrite loopDefect_None, forallb_map. reflexivity.
Qed.

(** [addFace] on three fields stops at the first defect of the face,
    with the error of that defect. *)
Lemma addFace_verdict {F : Type} (o : Obj F) (a b c : string) :
  match faceDefect [a; b; c] with
  | None => True
  | Some SyntaxDefect =>
      exists o' e, addFace o [a; b; c] = Ret (o', Some e) /\ kindOf e = SyntaxError
  | Some (ZeroDefect j) =>
      exists o' w, [a; b; c] !! j = Some w /\
        addFace o [a; b; c] = Ret (o', Some (ErrVertex j (Split w "/") ErrZeroIndex))
  end.
Proof.
  unfold faceDefect, addFace. change (negb (len [a; b; c] =? 3)) with false. cbn iota.
  destruct (splitVertex_loop [a; b; c] 0 [])
    as [(vs & j & v & Hj & Hlen & Hrun)|[Hall Hrun]]; rewrite Hrun; cbn [andThen bind app map].
  { assert (Hlong : forallb (fun v => len (Split v "/") <=? 3) [a; b; c] = false).
    { apply not_true_is_false. intros Hok. rewrite forallb_forall in Hok.
      assert (Hv : In v [a; b; c]) by (apply list_elem_of_In, list_elem_of_lookup; eauto).
      specialize (Hok v Hv). apply Z.leb_le in Hok. unfold len in Hok. lia. }
    rewrite Hlong. cbn [negb]. eexists _, _. split; reflexivity. }
  assert (Hshort : forallb (fun v => len (Split v "/") <=? 3) [a; b; c] = true).
  { apply forallb_forall. intros v Hv. rewrite Forall_forall in Hall.
    apply Z.leb_le. unfold len. specialize (Hall v). rewrite list_elem_of_In in Hall.
    specialize (Hall Hv). lia. }
  rewrite Hshort. cbn [negb].
  change (index [Split a "/"; Split b "/"; Split c "/"] 0) with (Ret (Split a "/")).
  cbn [bind].
  assert (Hnum : 1 <= len (Split a "/") <= 3).
  { pose proof (Split_length a) as Hge. apply Forall_cons in Hall as [Ha _].
    unfold len. lia. }
  assert (Hskip : (if len (Split a "/") =? 3
                   then do t <- index (Split a "/") 1; Ret (slen t =? 0) else Ret false)
                  = Ret (template (Split a "/")).2).
  { unfold template. cbn [snd].
    destruct (Split a "/") as [|p [|t [|n [|x rest]]]]; try reflexivity.
    - cbn [elided]. rewrite <- slen_zero. reflexivity.
    - exfalso. unfold len in Hnum. cbn [length] in Hnum. lia. }
  rewrite Hskip. cbn [bind].
  change (len (Split a "/")) with (template (Split a "/")).1.
  pose proof (parseLoop_verdict (template (Split a "/")).1 (template (Split a "/")).2
                [Split a "/"; Split b "/"; Split c "/"] Hnum 0 zero_face) as Hv.
  destruct (loopDefect _ _ 0 [Split a "/"; Split b "/"; Split c "/"]) as [[|j]|].
  - destruct Hv as (fc & e & -> & He). cbn [andThen bind].
    eexists _, _. split; [reflexivity | exact He].
  - destruct Hv as (fc & vert & _ & Hj & ->). cbn [andThen bind].
    rewrite Nat.sub_0_r in Hj.
    destruct j as [|[|[|j]]]; cbn in Hj; try discriminate; injection Hj as <-;
      eexists _, _; split; reflexivity.
  - exact I.
Qed.

Section FaceVerdicts.

Context {F : Type} (zero one : F) (parse : string -> F + numErr).

(** A face line that has a defect is rejected with the error of the
    first one, which carries the number of the line. *)
Lemma decodeLine_face_verdict (o : Obj F) (line : nat) (text : string) (vs : list string) :
  Fields text = "f" :: vs -> lineDefect vs <> None ->
  exists o' e, decodeLine zero one parse o line text = Ret (o', Some e) /\
    lineOf e = Some line /\ defectError line vs e.
Proof.
  intros Hf Hd. unfold defectError. unfold lineDefect in *.
  destruct (Z.eqb_spec (len vs) 3) as [H3|H3].
  - destruct vs as [|a [|b [|c [|d rest]]]]; try (unfold len in H3; cbn [length] in H3; lia).
    rewrite (decodeLine_face zero one parse o line text a b c Hf).
    pose proof (addFace_verdict o a b c) as Hv.
    destruct (faceDefect [a; b; c]) as [[|j]|]; [| | congruence].
    + destruct Hv as (o' & e & -> & He). cbn [bind fst snd fmap option_fmap option_map].
      eexists _, _. split; [reflexivity |]. split; [reflexivity | exact He].
    + destruct Hv as (o' & w & Hw & ->). cbn [bind fst snd fmap option_fmap option_map].
      eexists _, _. split; [reflexivity |]. split; [reflexivity |].
      exists w. split; [exact Hw | reflexivity].
  - rewrite (decodeLine_face_count zero one parse o line text vs Hf)
      by (unfold len in H3; lia).
    eexists _, _. split; [reflexivity |]. split; reflexivity.
Qed.

(** A face line with a zero field, or with a vertex that departs from
    the first, has a defect. *)
Lemma lineDefect_faceOk (vs : list string) :
  (length vs = 3%nat -> faceOk vs = false) -> lineDefect vs <> None.
Proof.
  intros Hbad. unfold lineDefect. destruct (Z.eqb_spec (len vs) 3) as [H3|H3]; [| discriminate].
  destruct vs as [|f0 rest]; [unfold len in H3; cbn in H3; lia |].
  intros Hnone. apply faceDefect_None in Hnone.
  rewrite Hbad in Hnone; [discriminate | unfold len in H3; lia].
Qed.

End FaceVerdicts.

(** ** Fail-fast decoding *)



(** ** The zero index *)

(** C6, as stated, fails on [f x 0 1]: the field [0] is a zero index, and
    the error that [Decode] returns is the SyntaxError of the field [x]
    before it, not an IndexError. *)
Lemma zero_index_not_named :
  hasZero (Split "0" "/") /\
  Decode 0 1 litFloat (mkScanner ["f x 0 1"] None)
  = Ret (None, Some (ErrLine 1 (ErrVertex 0 ["x"] (ErrNum "ParseInt" "x" ErrSyntax)))) /\
  ~ (exists e, Decode 0 1 litFloat (mkScanner ["f x 0 1"] None) = Ret (None, Some e) /\
               kindOf e = IndexError).
Proof.
  split; [| split].
  - exists "0". split; [constructor | reflexivity].
  - reflexivity.
  - intros (e & He & Hk). vm_compute in He. injection He as <-. discriminate.
Qed.

(** C6, amended. Whatever the document holds, a face line with a field
    that reads as index 0 is rejected with an error that carries the
    line's number, and [Decode] returns that error and no document. The
    error is that of the first defect the parser meets on the line: the
    zero-index error naming vertex [i] when the first defect is a zero
    field of vertex [i], in particular when the zero field is the only
    defect of the line; the SyntaxError of the defect met before it
    otherwise. The order is: the number of vertices; a vertex of more than
    three components; then vertex by vertex from the left, the number of
    components against the first vertex, the position, the texcoord and
    the normal. In particular [f 0 1 2] after any accepted lines fails
    with the zero-index error of vertex 0. *)
Theorem zero_index_rejected {F : Type} (zero one : F) (parse : string -> F + numErr) :
  (forall (o : Obj F) (line : nat) (text : string) (vs : list string) (v : string),
     Fields text = "f" :: vs -> v ∈ vs -> hasZero (Split v "/") ->
     exists o' e, decodeLine zero one parse o line text = Ret (o', Some e) /\
       lineOf e = Some line /\ defectError line vs e) /\
  (forall (pre : list string) (text : string) (post : list string) (err : option nat)
          (o : Obj F) (vs : list string) (v : string),
     decodeLoop zero one parse emptyObj 0 pre = Ret (o, None) ->
     Fields text = "f" :: vs -> v ∈ vs -> hasZero (Split v "/") ->
     exists e, Decode zero one parse (mkScanner (pre ++ text :: post) err)
               = Ret (None, Some e) /\ lineOf e = Some (S (length pre)) /\
               defectError (S (length pre)) vs e) /\
  (forall (pre post : list string) (err : option nat) (o : Obj F),
     decodeLoop zero one parse emptyObj 0 pre = Ret (o, None) ->
     Decode zero one parse (mkScanner (pre ++ "f 0 1 2" :: post) err)
     = Ret (None, Some (ErrLine (S (length pre)) (ErrVertex 0 ["0"] ErrZeroIndex)))).
Proof.
  assert (Hline : forall (o : Obj F) (line : nat) (text : string) (vs : list string) (v : string),
     Fields text = "f" :: vs -> v ∈ vs -> hasZero (Split v "/") ->
     exists o' e, decodeLine zero one parse o line text = Ret (o', Some e) /\
       lineOf e = Some line /\ defectError line vs e).
  { intros o line text vs v Hf Hv Hz.
    apply (decodeLine_face_verdict zero one parse o line text vs Hf).
    apply lineDefect_faceOk. intros _. exact (hasZero_faceOk vs v Hv Hz). }
  split; [| split].
  - exact Hline.
  - intros pre text post err o vs v Hpre Hf Hv Hz.
    destruct (Hline o (S (length pre)) text vs v Hf Hv Hz) as (o' & e & Hrun & Hl & He).
    exists e. split; [| split; assumption]. eapply Decode_stops; eassumption.
  - intros pre post err o Hpre.
    apply (Decode_stops zero one parse pre "f 0 1 2" post err o
             (commit o zero_face) _ Hpre).
    rewrite (decodeLine_face zero one parse o _ "f 0 1 2" "0" "1" "2") by reflexivity.
    reflexivity.
Qed.

Lemma zero_index_rejected_witness :
  Decode 0 1 litFloat
    (mkScanner (["v 0 0 0"; "v 1 0 0"; "v 0 1 0"] ++ "f 0 1 2" :: []) None)
  = Ret (None, Some (ErrLine 4 (ErrVertex 0 ["0"] ErrZeroIndex))) /\
  (exists o' e,
     decodeLine 0 1 litFloat (@emptyObj Z) 7 "f 1 -0 1" = Ret (o', Some e) /\
     lineOf e = Some 7%nat /\ defectError 7 ["1"; "-0"; "1"] e) /\
  (exists o' e,
     decodeLine 0 1 litFloat (@emptyObj Z) 7 "f 1/x 2/0 3/3" = Ret (o', Some e) /\
     lineOf e = Some 7%nat /\ defectError 7 ["1/x"; "2/0"; "3/3"] e).
Proof.
  split; [| split].
  - apply (proj2 (proj2 (zero_index_rejected 0 1 litFloat))
             ["v 0 0 0"; "v 1 0 0"; "v 0 1 0"] [] None
             (mkObj [[0; 0; 0; 1]; [1; 0; 0; 1]; [0; 1; 0; 1]] [] [] [])).
    reflexivity.
  - apply (proj1 (zero_index_rejected 0 1 litFloat) emptyObj 7%nat "f 1 -0 1"
             ["1"; "-0"; "1"] "-0").
    + reflexivity.
    + apply list_elem_of_In; cbn; tauto.
    + exists "-0". split; [apply list_elem_of_In; cbn; tauto | reflexivity].
  - apply (proj1 (zero_index_rejected 0 1 litFloat) emptyObj 7%nat "f 1/x 2/0 3/3"
             ["1/x"; "2/0"; "3/3"] "2/0").
    + reflexivity.
    + apply list_elem_of_In; cbn; tauto.
    + exists "0". split; [apply list_elem_of_In; cbn; tauto | reflexivity].
Defined.

(** What the error of the first defect is on lines with a zero field:
    the zero-index error when the zero field is the only defect or the
    first, a SyntaxError when another defect is met before it. *)
Example defectError_samples :
  lineDefect ["1"; "0"; "2"] = Some (ZeroDefect 1) /\
  lineDefect ["1"; "-0"; "1"] = Some (ZeroDefect 1) /\
  lineDefect ["1/2/0"; "x"; "0"] = Some (ZeroDefect 0) /\
  lineDefect ["x"; "0"; "1"] = Some SyntaxDefect /\
  lineDefect ["1"; "2/2"; "0"] = Some SyntaxDefect /\
  lineDefect ["0"; "1/1"; "2"] = Some (ZeroDefect 0) /\
  lineDefect ["1//1"; "2/0/2"; "3//3"] = Some SyntaxDefect /\
  lineDefect ["0"; "1"] = Some SyntaxDefect /\
  lineDefect ["1/1/1/1"; "0"; "1"] = Some SyntaxDefect /\
  lineDefect ["1"; "2"; "3"] = None /\
  decodeLine 0 1 litFloat (@emptyObj Z) 3 "f 1 0 2"
  = Ret (commit emptyObj ((1, 0, 0), (0, 0, 0), (0, 0, 0)),
         Some (ErrLine 3 (ErrVertex 1 ["0"] ErrZeroIndex))).
Proof. repeat split. Qed.

(** ** Inconsistent vertices *)

(** Scenario D: a face whose first two vertices are [1/1/1] and [2//2],
    in either order, is rejected with a SyntaxError, whatever the third
    vertex and the document are. *)
Lemma addFace_mixed_elision {F : Type} (o : Obj F) (c : string) :
  (exists o' e, addFace o ["1/1/1"; "2//2"; c] = Ret (o', Some e) /\ kindOf e = SyntaxError) /\
  (exists o' e, addFace o ["2//2"; "1/1/1"; c] = Ret (o', Some e) /\ kindOf e = SyntaxError).
Proof.
  split; unfold addFace; change (negb (len [_; _; c] =? 3)) with false; cbn iota;
    cbn [forRange splitVertex];
    change (Split "1/1/1" "/") with ["1"; "1"; "1"];
    change (Split "2//2" "/") with ["2"; ""; "2"];
    change (len ["1"; "1"; "1"] >? 3) with false;
    change (len ["2"; ""; "2"] >? 3) with false;
    cbn [andThen bind id app];
    (destruct (len (Split c "/") >? 3);
     [ eexists _, _; split; reflexivity | ]);
    cbn [andThen bind id].
  - change (index [["1"; "1"; "1"]; ["2"; ""; "2"]; Split c "/"] 0) with (Ret ["1"; "1"; "1"]).
    cbn [bind]. change (len ["1"; "1"; "1"]) with 3. cbn [Z.eqb Pos.eqb bind].
    change (index ["1"; "1"; "1"] 1) with (Ret "1"). cbn [bind].
    change (slen "1" =? 0) with false.
    cbn [forRange].
    change (parseVertex 3 false 0 ["1"; "1"; "1"] zero_face)
      with (Ret (((1, 1, 1), zero_vtx, zero_vtx) : face, @None error)).
    cbn [andThen bind id].
    change (parseVertex 3 false 1 ["2"; ""; "2"] ((1, 1, 1), zero_vtx, zero_vtx))
      with (Ret (((1, 1, 1), (2, 0, 0), zero_vtx) : face,
                 Some (ErrVertex 1 ["2"; ""; "2"] (ErrNum "ParseInt" "" ErrSyntax)))).
    cbn [andThen bind id]. eexists _, _. split; reflexivity.
  - change (index [["2"; ""; "2"]; ["1"; "1"; "1"]; Split c "/"] 0) with (Ret ["2"; ""; "2"]).
    cbn [bind]. change (len ["2"; ""; "2"]) with 3. cbn [Z.eqb Pos.eqb bind].
    change (index ["2"; ""; "2"] 1) with (Ret ""). cbn [bind].
    change (slen "" =? 0) with true.
    cbn [forRange].
    change (parseVertex 3 true 0 ["2"; ""; "2"] zero_face)
      with (Ret (((2, 0, 2), zero_vtx, zero_vtx) : face, @None error)).
    cbn [andThen bind id].
    change (parseVertex 3 true 1 ["1"; "1"; "1"] ((2, 0, 2), zero_vtx, zero_vtx))
      with (Ret (((2, 0, 2), (1, 0, 0), zero_vtx) : face,
                 Some (ErrVertexMsg 1 ["1"; "1"; "1"] TextureElision))).
    cbn [andThen bind id]. eexists _, _. split; reflexivity.
Qed.

(** C8, as stated, fails on [f 0 1/1 2]: the second vertex has two
    components and the first has one, and the error that [Decode] returns
    is the zero-index error of the first vertex, an IndexError. *)
Lemma mismatch_not_syntax :
  mismatch (Split "0" "/") (Split "1/1" "/") /\
  Decode 0 1 litFloat (mkScanner ["f 0 1/1 2"] None)
  = Ret (None, Some (ErrLine 1 (ErrVertex 0 ["0"] ErrZeroIndex))) /\
  ~ (exists e, Decode 0 1 litFloat (mkScanner ["f 0 1/1 2"] None) = Ret (None, Some e) /\
               kindOf e = SyntaxError).
Proof.
  split; [| split].
  - left. vm_compute. discriminate.
  - reflexivity.
  - intros (e & He & Hk). vm_compute in He. injection He as <-. discriminate.
Qed.

(** C8, amended. A face line one of whose vertices has another number of
    components than the first, or, with three components each, another
    elision of the texcoord, is rejected with an error that carries the
    line's number, and [Decode] returns that error and no document. The
    error is that of the first defect the parser meets on the line: a
    SyntaxError, unless the first defect is a zero field of a vertex
    [i], met before any other defect, in which case it is the zero-index
    error naming vertex [i]. A face whose first two vertices are [1/1/1]
    and [2//2], in either order, is rejected with a SyntaxError. *)
Theorem inconsistent_vertices_rejected {F : Type} (zero one : F)
    (parse : string -> F + numErr) :
  (forall (o : Obj F) (line : nat) (text f0 : string) (rest : list string) (v : string),
     Fields text = "f" :: f0 :: rest -> v ∈ rest ->
     mismatch (Split f0 "/") (Split v "/") ->
     exists o' e, decodeLine zero one parse o line text = Ret (o', Some e) /\
       lineOf e = Some line /\ defectError line (f0 :: rest) e) /\
  (forall (pre : list string) (text : string) (post : list string) (err : option nat)
          (o : Obj F) (f0 : string) (rest : list string) (v : string),
     decodeLoop zero one parse emptyObj 0 pre = Ret (o, None) ->
     Fields text = "f" :: f0 :: rest -> v ∈ rest ->
     mismatch (Split f0 "/") (Split v "/") ->
     exists e, Decode zero one parse (mkScanner (pre ++ text :: post) err)
               = Ret (None, Some e) /\ lineOf e = Some (S (length pre)) /\
               defectError (S (length pre)) (f0 :: rest) e) /\
  (forall (o : Obj F) (line : nat) (text c : string),
     Fields text = ["f"; "1/1/1"; "2//2"; c] \/ Fields text = ["f"; "2//2"; "1/1/1"; c] ->
     exists o' e, decodeLine zero one parse o line text = Ret (o', Some e) /\
       lineOf e = Some line /\ kindOf e = SyntaxError).
Proof.
  assert (Hline : forall (o : Obj F) (line : nat) (text f0 : string) (rest : list string)
                         (v : string),
     Fields text = "f" :: f0 :: rest -> v ∈ rest ->
     mismatch (Split f0 "/") (Split v "/") ->
     exists o' e, decodeLine zero one parse o line text = Ret (o', Some e) /\
       lineOf e = Some line /\ defectError line (f0 :: rest) e).
  { intros o line text f0 rest v Hf Hv Hm.
    apply (decodeLine_face_verdict zero one parse o line text (f0 :: rest) Hf).
    apply lineDefect_faceOk. intros _. exact (mismatch_faceOk f0 rest v Hv Hm). }
  split; [| split].
  - exact Hline.
  - intros pre text post err o f0 rest v Hpre Hf Hv Hm.
    destruct (Hline o (S (length pre)) text f0 rest v Hf Hv Hm) as (o' & e & Hrun & Hl & He).
    exists e. split; [| split; assumption]. eapply Decode_stops; eassumption.
  - intros o line text c [Hf|Hf];
      rewrite (decodeLine_face zero one parse o line text _ _ c Hf).
    + destruct (proj1 (addFace_mixed_elision o c)) as (o' & e & -> & Hk).
      eexists _, _. split; [reflexivity |]. split; [reflexivity | exact Hk].
    + destruct (proj2 (addFace_mixed_elision o c)) as (o' & e & -> & Hk).
      eexists _, _. split; [reflexivity |]. split; [reflexivity | exact Hk].
Qed.

Lemma inconsistent_vertices_rejected_witness :
  (exists o' e,
     decodeLine 0 1 litFloat (@emptyObj Z) 3 "f 1 2/2 0" = Ret (o', Some e) /\
     lineOf e = Some 3%nat /\ defectError 3 ["1"; "2/2"; "0"] e) /\
  (exists o' e,
     decodeLine 0 1 litFloat (@emptyObj Z) 5 "f 1/1/1 2//2 3/3/3" = Ret (o', Some e) /\
     lineOf e = Some 5%nat /\ kindOf e = SyntaxError).
Proof.
  split.
  - apply (proj1 (inconsistent_vertices_rejected 0 1 litFloat) emptyObj 3%nat
             "f 1 2/2 0" "1" ["2/2"; "0"] "2/2").
    + reflexivity.
    + constructor.
    + left. vm_compute. discriminate.
  - apply (proj2 (proj2 (inconsistent_vertices_rejected 0 1 litFloat)) emptyObj 5%nat
             "f 1/1/1 2//2 3/3/3" "3/3/3").
    left. reflexivity.
Defined.

(** ** parseFace *)

Arguments setIndexS i v a k vertex /.
Arguments splitVertexS i v vertices /.

(** The first loop of [parseFace]. *)
Lemma splitVertexS_loop (fields : list string) (i : nat) (acc : list (list string)) :
  (forallb (fun v => len (Split v "/") <=? 3) fields = false /\
   exists vs e, forRange splitVertexS i fields acc = Ret (vs, Some e)) \/
  (forallb (fun v => len (Split v "/") <=? 3) fields = true /\
   forRange splitVertexS i fields acc
   = Ret (acc ++ map (fun v => Split v "/") fields, None)).
Proof.
  revert i acc. induction fields as [|v fields IH]; intros i acc; cbn [forRange map forallb].
  - right. rewrite app_nil_r. split; reflexivity.
  - cbn [splitVertexS]. rewrite Z.gtb_ltb, Z.ltb_antisym.
    destruct (len (Split v "/") <=? 3); cbn [negb andb andThen bind id].
    + destruct (IH (S i) (acc ++ [Split v "/"])) as [[Hall (vs & e & Hrun)]|[Hall Hrun]].
      * left. split; [exact Hall |]. exists vs, e. exact Hrun.
      * right. split; [exact Hall |]. rewrite Hrun, <- app_assoc. reflexivity.
    + left. split; [reflexivity |]. eexists _, _. reflexivity.
Qed.

(** The second loop of [parseFace], one vertex: the same verdict as in
    [addFace], and nothing is kept. *)
Lemma checkVertex_cases (numAtt : Z) (skipTex : bool) (i : nat) (v : list string) :
  1 <= numAtt <= 3 ->
  (vertexOk numAtt skipTex v = true /\ checkVertex numAtt skipTex i v tt = Ret (tt, None)) \/
  (vertexOk numAtt skipTex v = false /\
   exists e, checkVertex numAtt skipTex i v tt = Ret (tt, Some e)).
Proof.
  intros Hn. unfold checkVertex, vertexOk.
  destruct (Z.eqb_spec (len v) numAtt) as [<-|Hne]; cbn [negb andb].
  2:{ right. split; [reflexivity |]. eexists. reflexivity. }
  destruct v as [|p [|t [|n [|x rest]]]].
  - cbn in Hn. lia.
  - run. index_field p; [left | right]; (split; [reflexivity |]); [| eexists]; reflexivity.
  - run. index_field p.
    + index_field t; [left | right]; (split; [reflexivity |]); [| eexists]; reflexivity.
    + right. split; [reflexivity |]. eexists. reflexivity.
  - run. index_field p.
    2:{ right. split; [reflexivity |]. eexists. reflexivity. }
    destruct skipTex.
    + closed_conv. cbn. rewrite slen_zero. destruct (String.eqb t "") eqn:Het; cbn.
      * index_field n; [left | right]; (split; [reflexivity |]); [| eexists]; reflexivity.
      * right. split; [reflexivity |]. eexists. reflexivity.
    + closed_conv. cbn. index_field t.
      2:{ right. split; [reflexivity |]. eexists. reflexivity. }
      index_field n; [left | right]; (split; [reflexivity |]); [| eexists]; reflexivity.
  - exfalso. unfold len in Hn. cbn [length] in Hn. lia.
Qed.

Lemma checkLoop_cases (numAtt : Z) (skipTex : bool) (vertices : list (list string)) :
  1 <= numAtt <= 3 ->
  forall i : nat,
  (forallb (vertexOk numAtt skipTex) vertices = true /\
   forRange (checkVertex numAtt skipTex) i vertices tt = Ret (tt, None)) \/
  (forallb (vertexOk numAtt skipTex) vertices = false /\
   exists e, forRange (checkVertex numAtt skipTex) i vertices tt = Ret (tt, Some e)).
Proof.
  intros Hn. induction vertices as [|v vertices IH]; intros i; cbn [forRange forallb].
  - left. split; reflexivity.
  - destruct (checkVertex_cases numAtt skipTex i v Hn) as [[-> ->]|[-> [e ->]]];
      cbn [andb andThen bind id].
    + apply IH.
    + right. split; [reflexivity |]. exists e. reflexivity.
Qed.

Lemma index_head {A : Type} (x : A) (l : list A) : index (x :: l) 0 = Ret x.
Proof.
  unfold index, len. cbn [length].
  replace (0 <? Z.of_nat (S (length l))) with true by (symmetry; apply Z.ltb_lt; lia).
  reflexivity.
Qed.

(** The flag [skipTex] that both face parsers compute from the first
    vertex. *)
Lemma skipTex_template (va : list string) :
  1 <= len va <= 3 ->
  (if len va =? 3 then do t <- index va 1; Ret (slen t =? 0) else Ret false)
  = Ret (template va).2.
Proof.
  intros Hnum. unfold template. cbn [snd].
  destruct va as [|p [|t [|n [|x rest]]]]; try reflexivity.
  - cbn [elided]. rewrite <- slen_zero. reflexivity.
  - exfalso. unfold len in Hnum. cbn [length] in Hnum. lia.
Qed.

(** [parseFace] on at least one field never panics, leaves [*_face] as
    it was, and accepts exactly the faces that the first two loops of
    [addFace] accept. *)
Lemma parseFace_cases (f0 : string) (rest : list string) (_face : list vtx) :
  exists oe, parseFace (f0 :: rest) _face = Ret (_face, oe) /\
    (oe = None <-> faceOk (f0 :: rest) = true).
Proof.
  unfold parseFace, faceOk.
  destruct (splitVertexS_loop (f0 :: rest) 0 []) as [[Hshort (vs & e & Hrun)]|[Hshort Hrun]];
    rewrite Hshort, Hrun; cbn [andThen bind andb app map].
  { eexists. split; [reflexivity |]. split; discriminate. }
  rewrite index_head. cbn [bind].
  assert (Hnum : 1 <= len (Split f0 "/") <= 3).
  { pose proof (Split_length f0) as Hge. cbn [forallb] in Hshort.
    apply andb_true_iff in Hshort as [Hle _]. apply Z.leb_le in Hle.
    unfold len in *. lia. }
  rewrite (skipTex_template _ Hnum). cbn [bind].
  change (len (Split f0 "/")) with (template (Split f0 "/")).1.
  rewrite <- (forallb_map (fun v => Split v "/")
                (vertexOk (template (Split f0 "/")).1 (template (Split f0 "/")).2)
                (f0 :: rest)).
  cbn [map].
  destruct (checkLoop_cases (template (Split f0 "/")).1 (template (Split f0 "/")).2
              (Split f0 "/" :: map (fun v => Split v "/") rest) Hnum 0)
    as [[-> ->]|[-> [e ->]]]; cbn [andThen bind].
  - eexists. split; [reflexivity |]. split; reflexivity.
  - eexists. split; [reflexivity |]. split; discriminate.
Qed.

Lemma parseFace_empty (_face : list vtx) :
  parseFace [] _face = Panic (IndexOutOfRange 0 0).
Proof. reflexivity. Qed.

(** C10. When [parseFace] returns without error, the face it leaves in
    [*_face] is the one it was given: none of the indices it parsed is
    stored. It accepts every face that passes the checks of the field
    count, the index syntax and the consistency of the vertices, which
    involve no collection length: no index is resolved. *)
Theorem parseFace_frame :
  (forall (fields : list string) (_face face' : list vtx),
     parseFace fields _face = Ret (face', None) -> face' = _face) /\
  (forall (f0 : string) (rest : list string) (_face : list vtx),
     faceOk (f0 :: rest) = true -> parseFace (f0 :: rest) _face = Ret (_face, None)).
Proof.
  split.
  - intros [|f0 rest] _face face' H.
    + rewrite parseFace_empty in H. discriminate.
    + destruct (parseFace_cases f0 rest _face) as (oe & Hrun & _).
      rewrite Hrun in H. injection H as <- _. reflexivity.
  - intros f0 rest _face Hok.
    destruct (parseFace_cases f0 rest _face) as (oe & Hrun & Hiff).
    rewrite Hrun. apply Hiff in Hok. rewrite Hok. reflexivity.
Qed.

Lemma parseFace_frame_witness :
  [(7, 8, 9)] = [(7, 8, 9)] /\
  parseFace ["5/1/-2"; "6/2/-1"; "7/3/4"] [(7, 8, 9)] = Ret ([(7, 8, 9)], None).
Proof.
  split.
  - apply (proj1 parseFace_frame ["5/1/-2"; "6/2/-1"; "7/3/4"] [(7, 8, 9)] [(7, 8, 9)]).
    reflexivity.
  - apply (proj2 parseFace_frame "5/1/-2" ["6/2/-1"; "7/3/4"] [(7, 8, 9)]).
    reflexivity.
Defined.

(** The same face is rejected by [Decode] on an empty document, where
    its indices resolve to nothing. *)
Example parseFace_does_not_resolve :
  parseFace ["5"; "6"; "7"] [] = Ret ([], None) /\
  addFace (@emptyObj Z) ["5"; "6"; "7"]
  = Ret (commit emptyObj ((0, 0, 0), (6, 0, 0), (7, 0, 0)),
         Some (ErrVertexAtt 0 ["5"] Att.P ErrTooLarge)).
Proof. split; reflexivity. Qed.

(** ** Stream *)

Section StreamCases.

Context {F : Type} (zero one : F) (parse : string -> F + numErr).

Lemma parseFloats_loop_verdict (line : nat) (vals : list string) (i : nat) (arr : list F) :
  (i + length vals <= length arr)%nat ->
  exists arr' oe,
    forRange (fun i v arr =>
      match parse v with
      | inr e => Ret (arr, Some (ErrLine line (ErrNum "ParseFloat" v e)))
      | inl f => do arr' <- setAt arr i f; Ret (arr', None)
      end) i vals arr = Ret (arr', oe) /\
    (oe = None <-> numbers parse vals = true) /\
    (forall e, oe = Some e -> lineOf e = Some line).
Proof.
  unfold numbers.
  revert arr i. induction vals as [|v vals IH]; intros arr i Hlen; cbn [forRange forallb].
  - eexists _, _. split; [reflexivity |]. split; [split; reflexivity | discriminate].
  - cbn [length] in Hlen. destruct (parse v) as [f|ne]; cbn [andb].
    + unfold setAt. destruct (Nat.ltb_spec i (length arr)) as [Hi|Hi]; [| lia].
      cbn [bind andThen id]. apply IH. rewrite length_insert. lia.
    + cbn [andThen bind id]. eexists _, _. split; [reflexivity |].
      split; [split; discriminate |]. intros e [= <-]. reflexivity.
Qed.

Lemma parseFloats_verdict (line : nat) (vals : list string) (arr : list F) :
  (length vals <= length arr)%nat ->
  exists arr' oe, parseFloats parse line vals arr = Ret (arr', oe) /\
    (oe = None <-> numbers parse vals = true) /\
    (forall e, oe = Some e -> lineOf e = Some line).
Proof. intros Hlen. apply parseFloats_loop_verdict. lia. Qed.

(** What [Stream] does on a line once the numbers are parsed: with a
    nil sink the call panics. *)
Lemma emit_numbers (line : nat) (vals : list string) (arr : list F) (face : list vtx) :
  (length vals <= length arr)%nat ->
  (numbers parse vals = true /\
   andThen (parseFloats parse line vals arr) (fun _ => face)
     (fun x => do _ <- call (None : func (list F)) x; Ret (face, None))
   = Panic NilDereference) \/
  (numbers parse vals = false /\
   exists e,
     andThen (parseFloats parse line vals arr) (fun _ => face)
       (fun x => do _ <- call (None : func (list F)) x; Ret (face, None))
     = Ret (face, Some e) /\ lineOf e = Some line).
Proof.
  intros Hlen.
  destruct (parseFloats_verdict line vals arr Hlen) as (arr' & [e|] & -> & Hiff & He);
    cbn [andThen bind call].
  - right. split.
    + destruct (numbers parse vals); [| reflexivity]. destruct Hiff as [_ H]. discriminate H. reflexivity.
    + exists e. split; [reflexivity | apply He; reflexivity].
  - left. split; [apply Hiff; reflexivity | reflexivity].
Qed.

Lemma streamLine_quiet (emitPos emitTex emitNor : func (list F)) (emitFace : func (list vtx))
    (face : list vtx) (line : nat) (text : string) :
  quietLine text = true ->
  streamLine zero one parse emitPos emitTex emitNor emitFace face line text
  = Ret (face, None).
Proof.
  unfold quietLine, streamLine. destruct (Fields text) as [|first vals]; [reflexivity |].
  replace (len (first :: vals) =? 0) with false
    by (symmetry; apply Z.eqb_neq; unfold len; cbn [length]; lia).
  rewrite index_head. cbn [bind].
  destruct (toElem first); try discriminate; reflexivity.
Qed.

(** On the first line with a supported element, [Stream] as written
    either rejects the line or panics on the nil sink. *)
Lemma streamLine_element (face : list vtx) (line : nat) (text : string) :
  quietLine text = false ->
  (wellFormed parse text = true /\
   streamLine zero one parse None None None None face line text = Panic NilDereference) \/
  (wellFormed parse text = false /\
   exists e, streamLine zero one parse None None None None face line text
             = Ret (face, Some e) /\ lineOf e = Some line).
Proof.
  unfold quietLine, wellFormed, streamLine.
  destruct (Fields text) as [|first vals]; [discriminate |].
  replace (len (first :: vals) =? 0) with false
    by (symmetry; apply Z.eqb_neq; unfold len; cbn [length]; lia).
  rewrite index_head. cbn [bind]. change (drop 1 (first :: vals)) with vals.
  assert (Hlen : len (first :: vals) = 1 + len vals)
    by (unfold len; cbn [length]; lia).
  rewrite Hlen. pose proof (len_nonneg vals) as Hge.
  destruct (toElem first); try discriminate; intros _.
  - destruct (Z.ltb_spec (1 + len vals) 4) as [Hlo|Hlo]; cbn [orb].
    { right. replace (3 <=? len vals) with false by (symmetry; apply Z.leb_gt; lia).
      split; [reflexivity |]. eexists. split; reflexivity. }
    destruct (Z.gtb_spec (1 + len vals) 5) as [Hhi|Hhi].
    { right. replace (len vals <=? 4) with false by (symmetry; apply Z.leb_gt; lia).
      rewrite andb_false_r. split; [reflexivity |]. eexists. split; reflexivity. }
    replace (3 <=? len vals) with true by (symmetry; apply Z.leb_le; lia).
    replace (len vals <=? 4) with true by (symmetry; apply Z.leb_le; lia).
    cbn [andb]. apply emit_numbers. rewrite length_insert, length_replicate.
    unfold len in *. lia.
  - destruct (Z.ltb_spec (1 + len vals) 3) as [Hlo|Hlo]; cbn [orb].
    { right. replace (2 <=? len vals) with false by (symmetry; apply Z.leb_gt; lia).
      split; [reflexivity |]. eexists. split; reflexivity. }
    destruct (Z.gtb_spec (1 + len vals) 4) as [Hhi|Hhi].
    { right. replace (len vals <=? 3) with false by (symmetry; apply Z.leb_gt; lia).
      rewrite andb_false_r. split; [reflexivity |]. eexists. split; reflexivity. }
    replace (2 <=? len vals) with true by (symmetry; apply Z.leb_le; lia).
    replace (len vals <=? 3) with true by (symmetry; apply Z.leb_le; lia).
    cbn [andb]. apply emit_numbers. rewrite length_replicate.
    unfold len in *. lia.
  - destruct (Z.eqb_spec (1 + len vals) 4) as [Heq|Hne]; cbn [negb].
    2:{ right. replace (len vals =? 3) with false by (symmetry; apply Z.eqb_neq; lia).
        split; [reflexivity |]. eexists. split; reflexivity. }
    replace (len vals =? 3) with true by (symmetry; apply Z.eqb_eq; lia).
    cbn [andb]. apply emit_numbers. rewrite length_replicate.
    unfold len in *. lia.
  - destruct (Z.eqb_spec (1 + len vals) 4) as [Heq|Hne]; cbn [negb].
    2:{ right. replace (len vals =? 3) with false by (symmetry; apply Z.eqb_neq; lia).
        split; [reflexivity |]. eexists. split; reflexivity. }
    replace (len vals =? 3) with true by (symmetry; apply Z.eqb_eq; lia).
    cbn [andb].
    destruct vals as [|a rest]; [unfold len in Heq; cbn in Heq; lia |].
    destruct (parseFace_cases a rest face) as ([e|] & -> & Hiff); cbn [bind call].
    + right. split.
      * destruct (faceOk (a :: rest)); [| reflexivity].
        destruct Hiff as [_ H]. discriminate H. reflexivity.
      * eexists. split; reflexivity.
    + left. split; [apply Hiff; reflexivity | reflexivity].
Qed.

Lemma streamLoop_quiet (emitPos emitTex emitNor : func (list F)) (emitFace : func (list vtx))
    (pre post : list string) (face : list vtx) (line : nat) :
  forallb quietLine pre = true ->
  streamLoop zero one parse emitPos emitTex emitNor emitFace face line (pre ++ post)
  = streamLoop zero one parse emitPos emitTex emitNor emitFace face
      (line + length pre) post.
Proof.
  revert line. induction pre as [|text pre IH]; intros line Hq; cbn [app streamLoop length].
  - rewrite Nat.add_0_r. reflexivity.
  - cbn [forallb] in Hq. apply andb_true_iff in Hq as [Ht Hq].
    rewrite (streamLine_quiet _ _ _ _ face (S line) text Ht). cbn [andThen bind id].
    rewrite (IH (S line) Hq). f_equal. lia.
Qed.

End StreamCases.

(** C4. On a stream whose first line with a position, texcoord, normal
    or face element is [text], [Stream] as written ends at that line and
    never returns nil: when the line passes the parser's checks, so that
    the element is handed to its sink, the call of the nil sink panics;
    otherwise the line's error is returned. The lines after it are not
    read. *)
Theorem Stream_fails_at_first_element {F : Type} (zero one : F)
    (parse : string -> F + numErr)
    (pre : list string) (text : string) (post : list string) (err : option nat) :
  forallb quietLine pre = true ->
  quietLine text = false ->
  (wellFormed parse text = true /\
   Stream zero one parse (mkScanner (pre ++ text :: post) err) = Panic NilDereference) \/
  (wellFormed parse text = false /\
   exists e, Stream zero one parse (mkScanner (pre ++ text :: post) err) = Ret (Some e) /\
             lineOf e = Some (S (length pre))).
Proof.
  intros Hpre Htext. unfold Stream. cbn [texts scanErr].
  rewrite (streamLoop_quiet zero one parse None None None None pre (text :: post) [] 0 Hpre).
  cbn [streamLoop Nat.add].
  destruct (streamLine_element zero one parse [] (S (length pre)) text Htext)
    as [[Hwf ->]|[Hwf (e & -> & He)]]; cbn [andThen bind].
  - left. split; [exact Hwf | reflexivity].
  - right. split; [exact Hwf |]. exists e. split; [reflexivity | exact He].
Qed.

Lemma Stream_fails_at_first_element_witness :
  (wellFormed litFloat "v 0 0 0" = true /\
   Stream 0 1 litFloat (mkScanner (["# cube"; ""; "g top"] ++ "v 0 0 0" :: ["f 1 1 1"]) None)
   = Panic NilDereference) \/
  (wellFormed litFloat "v 0 0 0" = false /\
   exists e,
     Stream 0 1 litFloat (mkScanner (["# cube"; ""; "g top"] ++ "v 0 0 0" :: ["f 1 1 1"]) None)
     = Ret (Some e) /\ lineOf e = Some (S (length ["# cube"; ""; "g top"]))).
Proof.
  apply (Stream_fails_at_first_element 0 1 litFloat ["# cube"; ""; "g top"] "v 0 0 0"
           ["f 1 1 1"] None); reflexivity.
Defined.

(** ** The de-duplication loop *)

Lemma index_Ret {A : Type} (l : list A) (i : Z) (a : A) :
  index l i = Ret a -> 0 <= i < len l.
Proof.
  unfold index. destruct (Z.leb_spec 0 i); destruct (Z.ltb_spec i (len l));
    cbn [andb]; try discriminate. lia.
Qed.

Lemma index_in_range {A : Type} (l : list A) (i : Z) :
  0 <= i < len l -> exists a, index l i = Ret a.
Proof.
  intros Hi. unfold index.
  replace ((0 <=? i) && (i <? len l)) with true
    by (symmetry; apply andb_true_iff; split; [apply Z.leb_le | apply Z.ltb_lt]; lia).
  destruct (lookup_lt_is_Some_2 l (Z.to_nat i)) as [a Ha]; [unfold len in Hi; lia |].
  rewrite Ha. exists a. reflexivity.
Qed.

Lemma to_uint32_range (z : Z) : 0 <= z -> 0 <= to_uint32 z <= z.
Proof.
  intros Hz. unfold to_uint32. split.
  - apply Z.mod_pos_bound. reflexivity.
  - apply Z.mod_le; [exact Hz | reflexivity].
Qed.

(** An invariant of a loop carries over the loop: [Inv seen s] holds of
    the elements [seen] gone through and the state reached. *)
Lemma forEach_invariant {A St : Type} (body : A -> St -> outcome St)
    (Inv : list A -> St -> Prop) (xs : list A) :
  (forall seen x s s', Inv seen s -> body x s = Ret s' -> Inv (seen ++ [x]) s') ->
  forall seen s s', Inv seen s -> forEach body xs s = Ret s' -> Inv (seen ++ xs) s'.
Proof.
  intros Hstep. induction xs as [|x xs IH]; intros seen s s' Hinv; cbn [forEach].
  - intros [= <-]. rewrite app_nil_r. exact Hinv.
  - destruct (body x s) as [s1|p] eqn:Hb; cbn [bind]; [| discriminate].
    intros Hrest. replace (seen ++ x :: xs) with ((seen ++ [x]) ++ xs)
      by (rewrite <- app_assoc; reflexivity).
    eapply IH; [| exact Hrest]. eapply Hstep; eassumption.
Qed.

Lemma forEach_returns {A St : Type} (body : A -> St -> outcome St)
    (Inv : list A -> St -> Prop) (xs : list A) :
  (forall seen x s s', Inv seen s -> body x s = Ret s' -> Inv (seen ++ [x]) s') ->
  (forall seen x s, x ∈ xs -> Inv seen s -> returns (body x s)) ->
  forall seen s, Inv seen s -> returns (forEach body xs s).
Proof.
  intros Hstep. induction xs as [|x xs IH]; intros Hret seen s Hinv; cbn [forEach].
  - apply returns_Ret.
  - destruct (Hret seen x s) as [s1 Hb]; [left | exact Hinv |].
    rewrite Hb. cbn [bind]. apply (IH (fun seen y t Hy => Hret seen y t (list_elem_of_further _ _ _ Hy))
                                      (seen ++ [x])).
    eapply Hstep; eassumption.
Qed.

Lemma list_to_set_snoc_known (X : gset vtx) (seen : list vtx) (x : vtx) :
  X = list_to_set seen -> x ∈ X -> X = list_to_set (seen ++ [x]).
Proof.
  intros HX Hx. rewrite list_to_set_app_L, <- HX. cbn [list_to_set].
  rewrite union_empty_r_L, union_comm_L. symmetry.
  apply subseteq_union_1_L, singleton_subseteq_l, Hx.
Qed.

Lemma list_to_set_snoc_new (X : gset vtx) (seen : list vtx) (x : vtx) :
  X = list_to_set seen -> {[x]} ∪ X = list_to_set (seen ++ [x]).
Proof.
  intros HX. rewrite list_to_set_app_L, <- HX. cbn [list_to_set].
  rewrite union_empty_r_L. apply union_comm_L.
Qed.

Section DedupSpec.

Context {F : Type}.

Lemma dedupInv_init (o : Obj F) : dedupInv o [] (emptyModel, ∅).
Proof.
  constructor; cbn [fst snd emptyModel pos idx tex nor length].
  - apply dom_empty_L.
  - reflexivity.
  - intros k v Hk. rewrite lookup_empty in Hk. discriminate.
  - constructor.
  - reflexivity.
  - reflexivity.
  - reflexivity.
  - constructor.
Qed.

Lemma dedupVert_step (o : Obj F) (seen : list vtx) (overt : vtx)
    (st st' : model F * gmap vtx Z) :
  dedupInv o seen st -> dedupVert o overt st = Ret st' ->
  dedupInv o (seen ++ [overt]) st'.
Proof.
  intros [Hdom Hsize Hknown Hidx Hcount Htex Hnor Hb]. destruct st as [m kv].
  cbn [fst snd] in *. unfold dedupVert.
  destruct (kv !! overt) as [kvv|] eqn:Hk.
  - intros [= <-]. constructor; cbn [fst snd pos idx tex nor].
    + apply list_to_set_snoc_known; [exact Hdom | apply elem_of_dom; eauto].
    + exact Hsize.
    + exact Hknown.
    + apply Forall_app. split; [exact Hidx |]. constructor; [| constructor].
      eapply Hknown. exact Hk.
    + rewrite !length_app, Hcount. reflexivity.
    + exact Htex.
    + exact Hnor.
    + apply Forall_app. split; [exact Hb |]. constructor; [| constructor].
      assert (Hin : overt ∈ (list_to_set seen : gset vtx)).
      { rewrite <- Hdom. apply elem_of_dom. eauto. }
      apply elem_of_list_to_set in Hin. rewrite Forall_forall in Hb. apply Hb, Hin.
  - cbn [pos nor tex idx].
    destruct (index (Pos o) (vget Att.P overt)) as [p|] eqn:Hp; cbn [bind]; [| discriminate].
    apply index_Ret in Hp.
    assert (HT : exists tx, (if len (Tex o) >? 0
                 then do t <- index (Tex o) (vget Att.T overt);
                      Ret (mkModel (pos m ++ [p]) (nor m) (tex m ++ [t])
                             (idx m ++ [to_uint32 (len (pos m))]))
                 else Ret (mkModel (pos m ++ [p]) (nor m) (tex m)
                             (idx m ++ [to_uint32 (len (pos m))])))
                = Ret (mkModel (pos m ++ [p]) (nor m) tx (idx m ++ [to_uint32 (len (pos m))]))
                /\ (len (Tex o) > 0 -> length tx = S (length (tex m)) /\
                      0 <= vget Att.T overt < len (Tex o))
              \/ (if len (Tex o) >? 0
                 then do t <- index (Tex o) (vget Att.T overt);
                      Ret (mkModel (pos m ++ [p]) (nor m) (tex m ++ [t])
                             (idx m ++ [to_uint32 (len (pos m))]))
                 else Ret (mkModel (pos m ++ [p]) (nor m) (tex m)
                             (idx m ++ [to_uint32 (len (pos m))])))
                = Panic (IndexOutOfRange (vget Att.T overt) (len (Tex o)))).
    { destruct (Z.gtb_spec (len (Tex o)) 0) as [Hgt|Hle].
      - destruct (index (Tex o) (vget Att.T overt)) as [t|pn] eqn:Ht; cbn [bind].
        + exists (tex m ++ [t]). left. split; [reflexivity |]. intros _.
          rewrite length_app. cbn. split; [lia | eapply index_Ret; exact Ht].
        + exists []. right. revert Ht. unfold index.
          destruct ((0 <=? vget Att.T overt) && (vget Att.T overt <? len (Tex o)));
            [destruct (Tex o !! Z.to_nat (vget Att.T overt)) |]; congruence.
      - exists (tex m). left. split; [reflexivity |]. lia. }
    destruct HT as [tx [[-> HTlen] | ->]]; cbn [bind pos nor tex idx]; [| discriminate].
    destruct (Z.gtb_spec (len (Nor o)) 0) as [Hgt|Hle].
    + destruct (index (Nor o) (vget Att.N overt)) as [n|pn] eqn:Hn; cbn [bind];
        [| discriminate].
      apply index_Ret in Hn. intros [= <-].
      constructor; cbn [fst snd pos idx tex nor].
      * rewrite dom_insert_L. apply list_to_set_snoc_new, Hdom.
      * rewrite length_app, map_size_insert_None by exact Hk. cbn. lia.
      * intros k v Hkv. rewrite len_app. change (len [p]) with 1.
        destruct (decide (overt = k)) as [->|Hne].
        -- rewrite lookup_insert_eq in Hkv. injection Hkv as <-.
           pose proof (to_uint32_range (len (pos m)) (len_nonneg _)). lia.
        -- rewrite lookup_insert_ne in Hkv by exact Hne.
           specialize (Hknown k v Hkv). lia.
      * rewrite len_app. change (len [p]) with 1. apply Forall_app. split.
        -- eapply Forall_impl; [exact Hidx |]. cbn. intros. lia.
        -- constructor; [| constructor].
           pose proof (to_uint32_range (len (pos m)) (len_nonneg _)). lia.
      * rewrite !length_app, Hcount. reflexivity.
      * intros H. destruct (HTlen H) as [-> _]. rewrite length_app, (Htex H). cbn. lia.
      * intros H. rewrite !length_app, (Hnor H). reflexivity.
      * apply Forall_app. split; [exact Hb |]. constructor; [| constructor].
        split; [exact Hp |]. split; [intros H; apply HTlen, H | intros _; exact Hn].
    + intros [= <-].
      constructor; cbn [fst snd pos idx tex nor].
      * rewrite dom_insert_L. apply list_to_set_snoc_new, Hdom.
      * rewrite length_app, map_size_insert_None by exact Hk. cbn. lia.
      * intros k v Hkv. rewrite len_app. change (len [p]) with 1.
        destruct (decide (overt = k)) as [->|Hne].
        -- rewrite lookup_insert_eq in Hkv. injection Hkv as <-.
           pose proof (to_uint32_range (len (pos m)) (len_nonneg _)). lia.
        -- rewrite lookup_insert_ne in Hkv by exact Hne.
           specialize (Hknown k v Hkv). lia.
      * rewrite len_app. change (len [p]) with 1. apply Forall_app. split.
        -- eapply Forall_impl; [exact Hidx |]. cbn. intros. lia.
        -- constructor; [| constructor].
           pose proof (to_uint32_range (len (pos m)) (len_nonneg _)). lia.
      * rewrite !length_app, Hcount. reflexivity.
      * intros H. destruct (HTlen H) as [-> _]. rewrite length_app, (Htex H). cbn. lia.
      * intros H. lia.
      * apply Forall_app. split; [exact Hb |]. constructor; [| constructor].
        split; [exact Hp |]. split; [intros H; apply HTlen, H | intros H; lia].
Qed.

Lemma dedupFace_step (o : Obj F) (seen : list vtx) (fc : face)
    (st st' : model F * gmap vtx Z) :
  dedupInv o seen st -> dedupFace o fc st = Ret st' ->
  dedupInv o (seen ++ verts fc) st'.
Proof.
  unfold dedupFace. intros Hinv Hrun.
  eapply (forEach_invariant (dedupVert o) (dedupInv o)); [| exact Hinv | exact Hrun].
  intros seen' x s s'. apply dedupVert_step.
Qed.

Lemma triples_snoc (faces : list face) (fc : face) :
  concat (map verts (faces ++ [fc])) = concat (map verts faces) ++ verts fc.
Proof. rewrite map_app, concat_app. cbn. rewrite app_nil_r. reflexivity. Qed.

Lemma triples_length (o : Obj F) : length (triples o) = (3 * length (Face o))%nat.
Proof.
  unfold triples. induction (Face o) as [|[[a b] c] faces IH]; [reflexivity |].
  cbn [map concat verts length app]. rewrite IH. lia.
Qed.

(** What the loop of [loadModel] has built when it completes. *)
Lemma dedup_spec (o : Obj F) (m : model F) (knownVerts : gmap vtx Z) :
  dedup o = Ret (m, knownVerts) ->
  length (idx m) = (3 * length (Face o))%nat /\
  Forall (fun i => 0 <= i < len (pos m)) (idx m) /\
  length (pos m) = size (list_to_set (triples o) : gset vtx) /\
  (len (Tex o) > 0 -> length (tex m) = length (pos m)) /\
  (len (Nor o) > 0 -> length (nor m) = length (pos m)) /\
  Forall (vtxInBounds o) (triples o).
Proof.
  unfold dedup. intros Hrun.
  assert (Hinv : dedupInv o (concat (map verts ([] ++ Face o))) (m, knownVerts)).
  { eapply (forEach_invariant (dedupFace o)
              (fun faces st => dedupInv o (concat (map verts faces)) st));
      [| apply dedupInv_init | exact Hrun].
    intros faces fc s s' Hs Hfc. rewrite triples_snoc.
    eapply dedupFace_step; eassumption. }
  cbn [app] in Hinv. fold (triples o) in Hinv.
  destruct Hinv as [Hdom Hsize Hknown Hidx Hcount Htex Hnor Hb]. cbn [fst snd] in *.
  split; [rewrite Hcount; apply triples_length |].
  split; [exact Hidx |].
  split; [rewrite Hsize, <- Hdom; symmetry; apply size_dom |].
  split; [exact Htex |]. split; [exact Hnor | exact Hb].
Qed.

Lemma dedupVert_returns (o : Obj F) (overt : vtx) (st : model F * gmap vtx Z) :
  vtxInBounds o overt -> returns (dedupVert o overt st).
Proof.
  intros (HP & HT & HN). destruct st as [m kv]. unfold dedupVert.
  destruct (kv !! overt); [apply returns_Ret |].
  destruct (index_in_range (Pos o) _ HP) as [p ->]. cbn [bind].
  destruct (Z.gtb_spec (len (Tex o)) 0) as [Hgt|Hle].
  - destruct (index_in_range (Tex o) (vget Att.T overt)) as [t ->]; [apply HT; lia |].
    cbn [bind].
    destruct (Z.gtb_spec (len (Nor o)) 0) as [Hgn|Hln]; [| apply returns_Ret].
    destruct (index_in_range (Nor o) (vget Att.N overt)) as [n ->]; [apply HN; lia |].
    apply returns_Ret.
  - cbn [bind].
    destruct (Z.gtb_spec (len (Nor o)) 0) as [Hgn|Hln]; [| apply returns_Ret].
    destruct (index_in_range (Nor o) (vget Att.N overt)) as [n ->]; [apply HN; lia |].
    apply returns_Ret.
Qed.

(** The loop of [loadModel] completes exactly on the documents all of
    whose face vertices index existing entries. *)
Lemma dedup_returns_iff (o : Obj F) :
  returns (dedup o) <-> Forall (vtxInBounds o) (triples o).
Proof.
  split.
  - intros [[m kv] Hrun]. apply (dedup_spec o m kv Hrun).
  - intros Hb. unfold dedup.
    apply (forEach_returns (dedupFace o) (fun _ _ => True) (Face o)
             (fun _ _ _ _ _ _ => I)) with (seen := []); [| exact I].
    intros _ fc st Hfc _. unfold dedupFace.
    apply (forEach_returns (dedupVert o) (fun _ _ => True) (verts fc)
             (fun _ _ _ _ _ _ => I)) with (seen := []); [| exact I].
    intros _ v st' Hv _. apply dedupVert_returns.
    rewrite Forall_forall in Hb. apply Hb. unfold triples.
    apply list_elem_of_In, in_concat. exists (verts fc).
    split; [apply in_map, list_elem_of_In, Hfc | apply list_elem_of_In, Hv].
Qed.

End DedupSpec.

(** ** What a resolved index satisfies *)

Lemma digits_nonneg (s : string) (acc un : Z) :
  0 <= acc -> digits acc s = inl un -> 0 <= un.
Proof.
  revert acc. induction s as [|c s IH]; intros acc Hacc; cbn [digits].
  - intros [= <-]. exact Hacc.
  - unfold digit.
    destruct ((48 <=? Z.of_nat (nat_of_ascii c)) && (Z.of_nat (nat_of_ascii c) <=? 57)) eqn:Hd;
      [| discriminate].
    apply andb_true_iff in Hd as [Hlo Hhi]. apply Z.leb_le in Hlo, Hhi.
    destruct (10 * acc + (Z.of_nat (nat_of_ascii c) - 48) >? 2 ^ 32 - 1); [discriminate |].
    apply IH. lia.
Qed.

Lemma ParseInt32_range (s : string) (z : Z) : ParseInt32 s = inl z -> int32 z.
Proof.
  unfold ParseInt32, int32. destruct s as [|c rest]; [discriminate |].
  destruct (if Ascii.eqb c "+" then (false, rest)
            else if Ascii.eqb c "-" then (true, rest) else (false, String c rest))
    as [neg body].
  destruct body as [|c' body']; [discriminate |].
  destruct (digits 0 (String c' body')) as [un|[|]] eqn:Hd; [| discriminate |].
  - apply digits_nonneg in Hd; [| lia].
    destruct neg; cbn [negb andb].
    + destruct (Z.ltb_spec (2 ^ 31) un); [discriminate |]. intros [= <-]. lia.
    + destruct (Z.leb_spec (2 ^ 31) un); [discriminate |]. intros [= <-]. lia.
  - destruct neg; cbn [negb andb]; discriminate.
Qed.

Lemma toIndex_range (s : string) (x : Z) (oe : option error) :
  toIndex s = (x, oe) -> int32 x.
Proof.
  unfold toIndex. destruct (ParseInt32 s) as [z|ne] eqn:Hp.
  - apply ParseInt32_range in Hp.
    destruct (z =? 0); intros [= <- _]; [unfold int32; lia | exact Hp].
  - intros [= <- _]. unfold int32. lia.
Qed.

Lemma fupd_face32 (i : nat) (a : Att.t) (x : Z) (fc : face) :
  int32 x -> face32 fc -> face32 (fupd i a x fc).
Proof.
  intros Hx. destruct fc as [[[[p0 t0] n0] [[p1 t1] n1]] [[p2 t2] n2]].
  unfold face32, fupd. cbn [verts]. rewrite !Forall_cons. cbn [vget].
  intros (H0 & H1 & H2 & _).
  destruct i as [|[|[|i]]]; destruct a; cbn [fget fset vset verts vget];
    rewrite ?Forall_cons; cbn [vget]; intuition constructor.
Qed.

Lemma andThen_preserves {St : Type} (Inv : St -> Prop) (m : stmt St) (k : St -> stmt St)
    (s' : St) (oe : option error) :
  (forall s oe, m = Ret (s, oe) -> Inv s) ->
  (forall s s' oe, Inv s -> k s = Ret (s', oe) -> Inv s') ->
  andThen m id k = Ret (s', oe) -> Inv s'.
Proof.
  intros Hm Hk. destruct m as [[s [e|]]|p]; cbn [andThen bind id]; [| | discriminate].
  - intros [= <- _]. eapply Hm. reflexivity.
  - apply Hk. eapply Hm. reflexivity.
Qed.

Lemma forRange_preserves {A St : Type} (body : nat -> A -> St -> stmt St)
    (Inv : St -> Prop) (xs : list A) :
  (forall i x s s' oe, Inv s -> body i x s = Ret (s', oe) -> Inv s') ->
  forall i s s' oe, Inv s -> forRange body i xs s = Ret (s', oe) -> Inv s'.
Proof.
  intros Hbody. induction xs as [|x xs IH]; intros i s s' oe Hs; cbn [forRange].
  - intros [= <- _]. exact Hs.
  - apply andThen_preserves.
    + intros s1 oe1. apply Hbody. exact Hs.
    + intros s1 s2 oe2 Hs1. apply IH. exact Hs1.
Qed.

Lemma setIndex_face32 (i : nat) (vert : list string) (a : Att.t) (k : Z)
    (fc fc' : face) (oe : option error) :
  face32 fc -> setIndex i vert a k fc = Ret (fc', oe) -> face32 fc'.
Proof.
  intros Hfc. unfold setIndex. destruct (index vert k) as [s|p]; cbn [bind]; [| discriminate].
  destruct (toIndex s) as [x err] eqn:Ht. intros [= <- _].
  apply fupd_face32; [eapply toIndex_range; exact Ht | exact Hfc].
Qed.

Lemma parseVertex_face32 (numAtt : Z) (skipTex : bool) (i : nat) (vert : list string)
    (fc fc' : face) (oe : option error) :
  face32 fc -> parseVertex numAtt skipTex i vert fc = Ret (fc', oe) -> face32 fc'.
Proof.
  intros Hfc. unfold parseVertex.
  destruct (negb (len vert =? numAtt)); [intros [= <- _]; exact Hfc |].
  apply andThen_preserves.
  { intros s oe1. apply setIndex_face32. exact Hfc. }
  intros fc1 fc2 oe2 H1.
  destruct (numAtt =? 2); [apply setIndex_face32; exact H1 |].
  destruct (numAtt =? 3); [| intros [= <- _]; exact H1].
  apply andThen_preserves.
  - intros s oe1. destruct skipTex; [| apply setIndex_face32; exact H1].
    destruct (index vert 1) as [t|p]; cbn [bind]; [| discriminate].
    destruct (negb (slen t =? 0)); intros [= <- _]; [exact H1 |].
    apply fupd_face32; [unfold int32; lia | exact H1].
  - intros s s' oe1 Hs. apply setIndex_face32. exact Hs.
Qed.

Lemma zero_face32 : face32 zero_face.
Proof.
  unfold face32, zero_face, zero_vtx. cbn [verts]. rewrite !Forall_cons. cbn [vget].
  unfold int32. repeat split; try apply Forall_nil; lia.
Qed.

(** When [addFace] accepts a face, every component of the face it has
    appended lies between -1 and the length of its collection,
    inclusive. *)
Lemma addFace_resolved {F : Type} (o o' : Obj F) (a b c : string) :
  len (Pos o) <= max_int -> len (Tex o) <= max_int -> len (Nor o) <= max_int ->
  addFace o [a; b; c] = Ret (o', None) ->
  exists fc, o' = commit o fc /\ Forall (resolved o) (verts fc).
Proof.
  intros HP HT HN. unfold addFace. change (negb (len [a; b; c] =? 3)) with false. cbn iota.
  destruct (splitVertex_loop [a; b; c] 0 [])
    as [(vs & j & v & Hj & Hlen & Hrun)|[Hall Hrun]]; rewrite Hrun; cbn [andThen bind app map];
    [discriminate |].
  rewrite index_head. cbn [bind].
  destruct (if len (Split a "/") =? 3
            then do t <- index (Split a "/") 1; Ret (slen t =? 0)
            else Ret false) as [skipTex|p]; cbn [bind]; [| discriminate].
  destruct (forRange (parseVertex (len (Split a "/")) skipTex) 0
              [Split a "/"; Split b "/"; Split c "/"] zero_face) as [[fc [e|]]|p] eqn:Hparse;
    cbn [andThen bind]; try discriminate.
  assert (H32 : face32 fc).
  { eapply (forRange_preserves _ face32); [| apply zero_face32 | exact Hparse].
    intros i x s s' oe. apply parseVertex_face32. }
  destruct fc as [[[[p0 t0] n0] [[p1 t1] n1]] [[p2 t2] n2]].
  unfold face32 in H32. cbn [verts] in H32. rewrite !Forall_cons in H32. cbn [vget] in H32.
  destruct H32 as ((Hp0 & Ht0 & Hn0) & (Hp1 & Ht1 & Hn1) & (Hp2 & Ht2 & Hn2) & _).
  pose proof (len_nonneg (Pos o)) as HP0. pose proof (len_nonneg (Tex o)) as HT0.
  pose proof (len_nonneg (Nor o)) as HN0.
  assert (Hint : forall z, int32 z -> min_int <= z <= max_int)
    by (unfold int32, min_int, max_int, int_bits; lia).
  cbn [verts forRange adjustVertex].
  change (index [Split a "/"; Split b "/"; Split c "/"] (Z.of_nat 0)) with (Ret (Split a "/")).
  change (index [Split a "/"; Split b "/"; Split c "/"] (Z.of_nat 1)) with (Ret (Split b "/")).
  change (index [Split a "/"; Split b "/"; Split c "/"] (Z.of_nat 2)) with (Ret (Split c "/")).
  cbn [bind adjustAtt fget fset fupd vget vset].
  repeat match goal with
  | |- context [adjustIndex ?x ?n] =>
      let r := fresh "r" in let e := fresh "e" in let H := fresh "Hadj" in
      destruct (adjustIndex x n) as [r [e|]] eqn:H;
      cbn [andThen bind id fmap option_fmap option_map fget fset fupd vget vset];
      [discriminate |];
      apply adjustIndex_range in H; [| lia | apply Hint; assumption]
  end.
  intros [= <-]. eexists. split; [reflexivity |].
  cbn [verts]. unfold resolved. rewrite !Forall_cons. cbn [vget].
  repeat split; try constructor; lia.
Qed.

Section DecodeBounds.

Context {F : Type} (zero one : F) (parse : string -> F + numErr).

Lemma resolved_grows (o o' : Obj F) (v : vtx) :
  len (Pos o) <= len (Pos o') -> len (Tex o) <= len (Tex o') ->
  len (Nor o) <= len (Nor o') -> resolved o v -> resolved o' v.
Proof. unfold resolved. intros HP HT HN (H1 & H2 & H3). lia. Qed.

Lemma faces_grow (o o' : Obj F) :
  len (Pos o) <= len (Pos o') -> len (Tex o) <= len (Tex o') ->
  len (Nor o) <= len (Nor o') ->
  Forall (fun fc => Forall (resolved o) (verts fc)) (Face o) ->
  Forall (fun fc => Forall (resolved o') (verts fc)) (Face o).
Proof.
  intros HP HT HN Hfaces. eapply Forall_impl; [exact Hfaces |].
  intros fc Hfc. eapply Forall_impl; [exact Hfc |].
  intros v. apply resolved_grows; assumption.
Qed.

Lemma andThen_result {St St' : Type} (m : stmt St) (stop add : St -> St') (s' : St') :
  andThen m stop (fun p => Ret (add p, None)) = Ret (s', None) ->
  exists p, s' = add p.
Proof.
  destruct m as [[p [e|]]|pn]; cbn [andThen bind]; try discriminate.
  intros [= <-]. exists p. reflexivity.
Qed.

Lemma decodeLine_decoded (o o' : Obj F) (line : nat) (text : string) :
  Z.of_nat (S line) <= max_int -> decoded line o ->
  decodeLine zero one parse o (S line) text = Ret (o', None) ->
  decoded (S line) o'.
Proof.
  intros Hmax (HP & HT & HN & Hfaces).
  assert (Hsame : decoded (S line) o) by (repeat split; try lia; exact Hfaces).
  unfold decodeLine. destruct (Fields text) as [|first vals]; [intros [= <-]; exact Hsame |].
  replace (len (first :: vals) =? 0) with false
    by (symmetry; apply Z.eqb_neq; unfold len; cbn [length]; lia).
  rewrite index_head. cbn [bind]. change (drop 1 (first :: vals)) with vals.
  destruct (toElem first).
  - intros [= <-]. exact Hsame.
  - destruct ((len (first :: vals) <? 4) || (len (first :: vals) >? 5)); [discriminate |].
    intros H. apply andThen_result in H as [p ->].
    unfold decoded. cbn [Pos Tex Nor Face]. rewrite length_app. cbn [length].
    repeat split; try lia.
    apply (faces_grow o); cbn [Pos Tex Nor]; rewrite ?len_app; unfold len; cbn; try lia.
    exact Hfaces.
  - destruct ((len (first :: vals) <? 3) || (len (first :: vals) >? 4)); [discriminate |].
    intros H. apply andThen_result in H as [p ->].
    unfold decoded. cbn [Pos Tex Nor Face]. rewrite length_app. cbn [length].
    repeat split; try lia.
    apply (faces_grow o); cbn [Pos Tex Nor]; rewrite ?len_app; unfold len; cbn; try lia.
    exact Hfaces.
  - destruct (negb (len (first :: vals) =? 4)); [discriminate |].
    intros H. apply andThen_result in H as [p ->].
    unfold decoded. cbn [Pos Tex Nor Face]. rewrite length_app. cbn [length].
    repeat split; try lia.
    apply (faces_grow o); cbn [Pos Tex Nor]; rewrite ?len_app; unfold len; cbn; try lia.
    exact Hfaces.
  - destruct (Z.eqb_spec (len (first :: vals)) 4) as [Heq|Hne]; cbn [negb]; [| discriminate].
    destruct vals as [|a [|b [|c [|d rest]]]]; unfold len in Heq; cbn [length] in Heq; try lia.
    destruct (addFace o [a; b; c]) as [[o1 [e|]]|p] eqn:Hadd; cbn [bind fst snd];
      try discriminate.
    cbn. intros [= <-].
    destruct (addFace_resolved o o1 a b c) as (fc & -> & Hfc);
      [unfold len; lia | unfold len; lia | unfold len; lia | exact Hadd |].
    unfold decoded, commit. cbn [Pos Tex Nor Face].
    repeat split; try lia.
    apply Forall_app. split; [exact Hfaces |]. constructor; [exact Hfc | constructor].
  - intros [= <-]. exact Hsame.
Qed.

Lemma decodeLoop_decoded (lines : list string) (o o' : Obj F) (line : nat) :
  Z.of_nat (line + length lines) <= max_int -> decoded line o ->
  decodeLoop zero one parse o line lines = Ret (o', None) ->
  decoded (line + length lines) o'.
Proof.
  revert o line. induction lines as [|text lines IH]; intros o line Hmax Ho;
    cbn [decodeLoop length].
  - intros [= <-]. rewrite Nat.add_0_r. exact Ho.
  - cbn [length] in Hmax.
    destruct (decodeLine zero one parse o (S line) text) as [[o1 [e|]]|p] eqn:Hline;
      cbn [andThen bind id]; try discriminate.
    intros Hrest. replace (line + S (length lines))%nat with (S line + length lines)%nat by lia.
    apply (IH o1 (S line)); [lia | | exact Hrest].
    apply (decodeLine_decoded o o1 line text); [lia | exact Ho | exact Hline].
Qed.

(** X6. What [Decode] does guarantee of the document it returns: every
    component of every face lies between -1 and the length of its
    collection, both included. *)
Lemma Decode_resolved (r : scanner) (o : Obj F) :
  Z.of_nat (length (texts r)) <= max_int ->
  Decode zero one parse r = Ret (Some o, None) ->
  Forall (resolved o) (triples o).
Proof.
  intros Hmax. unfold Decode.
  destruct (decodeLoop zero one parse emptyObj 0 (texts r)) as [[o1 [e|]]|p] eqn:Hloop;
    cbn [bind]; try discriminate.
  destruct (scanErr r); [discriminate |]. intros [= <-].
  apply (decodeLoop_decoded (texts r) emptyObj o1 0) in Hloop as (_ & _ & _ & Hfaces);
    [| exact Hmax | repeat split; cbn; try lia; constructor].
  unfold triples. induction Hfaces as [|fc faces Hfc _ IH]; cbn [map concat]; [constructor |].
  apply Forall_app. split; assumption.
Qed.

End DecodeBounds.

(** ** loadModel as a whole *)

Section LoadModel.

Context {F : Type} (zero one : F) (parse : string -> F + numErr).

(** X7. On a stream that [Decode] accepts, [loadModel] returns a mesh exactly
    when every face vertex of the document indexes existing entries; it
    panics otherwise. The mesh has three indices per face, each below
    the number of flat positions, which is the number of distinct face
    vertices. *)
Lemma loadModel_mesh (r : scanner) (o : Obj F) :
  Decode zero one parse r = Ret (Some o, None) ->
  (Forall (vtxInBounds o) (triples o) ->
   exists m, loadModel zero one parse (inr r) = Ret (Some m, None) /\
     length (idx m) = (3 * length (Face o))%nat /\
     Forall (fun i => 0 <= i < len (pos m)) (idx m) /\
     length (pos m) = size (list_to_set (triples o) : gset vtx)) /\
  (~ Forall (vtxInBounds o) (triples o) ->
   exists p, loadModel zero one parse (inr r) = Panic p).
Proof.
  intros HD. unfold loadModel. rewrite HD. cbn [bind]. split.
  - intros Hb. destruct (proj2 (dedup_returns_iff o) Hb) as [[m kv] Hrun].
    rewrite Hrun. cbn [bind fst]. exists m. split; [reflexivity |].
    destruct (dedup_spec o m kv Hrun) as (H1 & H2 & H3 & _).
    split; [exact H1 |]. split; [exact H2 | exact H3].
  - intros Hb. destruct (dedup o) as [st|p] eqn:Hrun.
    + exfalso. apply Hb, dedup_returns_iff. exists st. exact Hrun.
    + exists p. reflexivity.
Qed.

End LoadModel.

(** * Further properties of the parser *)

Section LineEffects.

Context {F : Type} (zero one : F) (parse : string -> F + numErr).

Lemma parseFloats_length (line : nat) (vals : list string) (arr arr' : list F)
    (oe : option error) :
  parseFloats parse line vals arr = Ret (arr', oe) -> length arr' = length arr.
Proof.
  unfold parseFloats. generalize 0%nat as i. revert arr.
  induction vals as [|v vals IH]; intros arr i; cbn [forRange].
  - intros [= <- _]. reflexivity.
  - destruct (parse v) as [f|ne]; cbn [andThen bind id].
    + unfold setAt. destruct (i <? length arr)%nat; cbn [bind andThen id]; [| discriminate].
      intros H. apply IH in H. rewrite H. apply length_insert.
    + intros [= <- _]. reflexivity.
Qed.

Lemma andThen_floats (line : nat) (vals : list string) (arr : list F)
    (add : list F -> Obj F) (o' : Obj F) :
  andThen (parseFloats parse line vals arr) add (fun p => Ret (add p, None)) = Ret (o', None) ->
  exists p, length p = length arr /\ o' = add p.
Proof.
  destruct (parseFloats parse line vals arr) as [[p [e|]]|pn] eqn:Hp; cbn [andThen bind];
    try discriminate.
  intros [= <-]. exists p. split; [| reflexivity]. eapply parseFloats_length. exact Hp.
Qed.

Lemma addFace_commit (o o' : Obj F) (fields : list string) :
  addFace o fields = Ret (o', None) -> exists fc, o' = commit o fc.
Proof.
  unfold addFace. destruct (negb (len fields =? 3)); [discriminate |].
  destruct (forRange splitVertex 0 fields []) as [[vs [e|]]|p]; cbn [andThen bind];
    try discriminate.
  destruct (index vs 0) as [v0|p]; cbn [bind]; [| discriminate].
  destruct (if len v0 =? 3 then do t <- index v0 1; Ret (slen t =? 0) else Ret false)
    as [sk|p]; cbn [bind]; [| discriminate].
  destruct (forRange (parseVertex (len v0) sk) 0 vs zero_face) as [[fc [e|]]|p];
    cbn [andThen bind]; try discriminate.
  destruct (forRange (adjustVertex o vs) 0 (verts fc) fc) as [[fc' [e|]]|p];
    cbn [andThen bind]; try discriminate.
  intros [= <-]. exists fc'. reflexivity.
Qed.

(** An accepted line has the effect of its element. *)
Lemma decodeLine_effect (o o' : Obj F) (line : nat) (text : string) :
  decodeLine zero one parse o line text = Ret (o', None) -> lineEffect text o o'.
Proof.
  unfold decodeLine, lineEffect, lineElem.
  destruct (Fields text) as [|first vals]; [intros [= <-]; reflexivity |].
  replace (len (first :: vals) =? 0) with false
    by (symmetry; apply Z.eqb_neq; unfold len; cbn [length]; lia).
  rewrite index_head. cbn [bind]. change (drop 1 (first :: vals)) with vals.
  destruct (toElem first).
  - intros [= <-]. reflexivity.
  - destruct ((len (first :: vals) <? 4) || (len (first :: vals) >? 5)); [discriminate |].
    intros H. apply andThen_floats in H as (p & Hp & ->). exists p. split; [| reflexivity].
    rewrite Hp, length_insert, length_replicate. reflexivity.
  - destruct ((len (first :: vals) <? 3) || (len (first :: vals) >? 4)); [discriminate |].
    intros H. apply andThen_floats in H as (p & Hp & ->). exists p. split; [| reflexivity].
    rewrite Hp, length_replicate. reflexivity.
  - destruct (negb (len (first :: vals) =? 4)); [discriminate |].
    intros H. apply andThen_floats in H as (p & Hp & ->). exists p. split; [| reflexivity].
    rewrite Hp, length_replicate. reflexivity.
  - destruct (negb (len (first :: vals) =? 4)); [discriminate |].
    destruct (addFace o vals) as [[o1 [e|]]|p] eqn:Hadd; cbn [bind fst snd]; try discriminate.
    cbn. intros [= <-]. eapply addFace_commit. exact Hadd.
  - intros [= <-]. reflexivity.
Qed.

End LineEffects.

Section Accumulation.

Context {F : Type} (zero one : F) (parse : string -> F + numErr).

Lemma lineEffect_counts (text : string) (o o' : Obj F) :
  lineEffect text o o' ->
  length (Pos o') = ((if isElem posElem text then 1 else 0) + length (Pos o))%nat /\
  length (Tex o') = ((if isElem texElem text then 1 else 0) + length (Tex o))%nat /\
  length (Nor o') = ((if isElem norElem text then 1 else 0) + length (Nor o))%nat /\
  length (Face o') = ((if isElem facElem text then 1 else 0) + length (Face o))%nat.
Proof.
  unfold lineEffect, isElem. destruct (lineElem text) as [[]|].
  all: try (intros ->; cbn; repeat split; reflexivity).
  all: try (intros (p & _ & ->); cbn [Pos Tex Nor Face elem_eqb]; rewrite length_app;
            cbn [length]; repeat split; lia).
  intros (fc & ->). unfold commit. cbn [Pos Tex Nor Face elem_eqb]. rewrite length_app.
  cbn [length]. repeat split; lia.
Qed.

Lemma lineEffect_prefix (text : string) (o o' : Obj F) :
  lineEffect text o o' ->
  Pos o `prefix_of` Pos o' /\ Tex o `prefix_of` Tex o' /\
  Nor o `prefix_of` Nor o' /\ Face o `prefix_of` Face o'.
Proof.
  unfold lineEffect. destruct (lineElem text) as [[]|].
  all: try (intros ->; repeat split; reflexivity).
  all: try (intros (p & _ & ->); cbn [Pos Tex Nor Face]; repeat split;
            reflexivity || apply prefix_app_r; reflexivity).
  intros (fc & ->). unfold commit. cbn [Pos Tex Nor Face]. repeat split;
    reflexivity || apply prefix_app_r; reflexivity.
Qed.

Lemma decodeLoop_counts (lines : list string) (o o' : Obj F) (line : nat) :
  decodeLoop zero one parse o line lines = Ret (o', None) ->
  length (Pos o') = (countElem posElem lines + length (Pos o))%nat /\
  length (Tex o') = (countElem texElem lines + length (Tex o))%nat /\
  length (Nor o') = (countElem norElem lines + length (Nor o))%nat /\
  length (Face o') = (countElem facElem lines + length (Face o))%nat.
Proof.
  revert o line. induction lines as [|text lines IH]; intros o line; cbn [decodeLoop countElem].
  - intros [= <-]. repeat split; reflexivity.
  - destruct (decodeLine zero one parse o (S line) text) as [[o1 [e|]]|p] eqn:Hline;
      cbn [andThen bind id]; try discriminate.
    intros Hrest. apply decodeLine_effect, lineEffect_counts in Hline.
    apply IH in Hrest. lia.
Qed.

Lemma decodeLoop_prefix (lines : list string) (o o' : Obj F) (line : nat) :
  decodeLoop zero one parse o line lines = Ret (o', None) ->
  Pos o `prefix_of` Pos o' /\ Tex o `prefix_of` Tex o' /\
  Nor o `prefix_of` Nor o' /\ Face o `prefix_of` Face o'.
Proof.
  revert o line. induction lines as [|text lines IH]; intros o line; cbn [decodeLoop].
  - intros [= <-]. repeat split; reflexivity.
  - destruct (decodeLine zero one parse o (S line) text) as [[o1 [e|]]|p] eqn:Hline;
      cbn [andThen bind id]; try discriminate.
    intros Hrest. apply decodeLine_effect, lineEffect_prefix in Hline.
    apply IH in Hrest. destruct Hline as (H1 & H2 & H3 & H4).
    destruct Hrest as (G1 & G2 & G3 & G4).
    repeat split; etransitivity; eassumption.
Qed.

(** X1. In the document that [Decode] returns, the numbers of positions,
    texcoords, normals and faces are the numbers of [v], [vt], [vn] and
    [f] lines of the stream. *)
Theorem Decode_counts (r : scanner) (o : Obj F) :
  Decode zero one parse r = Ret (Some o, None) ->
  length (Pos o) = countElem posElem (texts r) /\
  length (Tex o) = countElem texElem (texts r) /\
  length (Nor o) = countElem norElem (texts r) /\
  length (Face o) = countElem facElem (texts r).
Proof.
  unfold Decode.
  destruct (decodeLoop zero one parse emptyObj 0 (texts r)) as [[o1 [e|]]|p] eqn:Hloop;
    cbn [bind]; try discriminate.
  destruct (scanErr r); [discriminate |]. intros [= <-].
  apply decodeLoop_counts in Hloop. cbn [emptyObj Pos Tex Nor Face length] in Hloop. lia.
Qed.

(** X2. Decoding is append-only: when a stream is accepted, so is every
    stream of its first lines, and the document of the first lines is
    the beginning of the whole document, collection by collection; the
    lines that follow change no entry and no face already stored. *)
Theorem Decode_append_only (pre post : list string) (o' : Obj F) :
  Decode zero one parse (mkScanner (pre ++ post) None) = Ret (Some o', None) ->
  exists o, Decode zero one parse (mkScanner pre None) = Ret (Some o, None) /\
    Pos o `prefix_of` Pos o' /\ Tex o `prefix_of` Tex o' /\
    Nor o `prefix_of` Nor o' /\ Face o `prefix_of` Face o'.
Proof.
  unfold Decode. cbn [texts scanErr]. rewrite decodeLoop_app.
  destruct (decodeLoop zero one parse emptyObj 0 pre) as [[o [e|]]|p] eqn:Hpre;
    cbn [andThen bind id]; try discriminate.
  destruct (decodeLoop zero one parse o (0 + length pre) post) as [[o1 [e|]]|p] eqn:Hpost;
    cbn [bind]; try discriminate.
  intros [= <-]. exists o. split; [reflexivity |].
  eapply decodeLoop_prefix. exact Hpost.
Qed.

End Accumulation.

Lemma Decode_counts_witness :
  length (Pos (mkObj [[0; 0; 0; 1]; [1; 0; 0; 1]] [[0; 1; 0]] ([] : list (list Z))
                 [((0, 0, -1), (1, 0, -1), (1, 0, -1))]))
  = countElem posElem ["# two points"; "v 0 0 0"; "vt 0 1"; ""; "v 1 0 0"; "f 1/1 2/1 -1/-1"].
Proof.
  apply (Decode_counts 0 1 litFloat
           (mkScanner ["# two points"; "v 0 0 0"; "vt 0 1"; ""; "v 1 0 0"; "f 1/1 2/1 -1/-1"] None)).
  reflexivity.
Defined.

Lemma Decode_append_only_witness :
  exists o, Decode 0 1 litFloat (mkScanner ["v 0 0 0"; "f 1 1 1"] None) = Ret (Some o, None) /\
    Pos o `prefix_of` [[0; 0; 0; 1]; [5; 5; 5; 1]] /\ Tex o `prefix_of` [] /\
    Nor o `prefix_of` [] /\
    Face o `prefix_of` [((0, -1, -1), (0, -1, -1), (0, -1, -1)); ((1, -1, -1), (0, -1, -1), (1, -1, -1))].
Proof.
  apply (Decode_append_only 0 1 litFloat ["v 0 0 0"; "f 1 1 1"] ["v 5 5 5"; "f 2 1 -1"]
           (mkObj [[0; 0; 0; 1]; [5; 5; 5; 1]] [] []
              [((0, -1, -1), (0, -1, -1), (0, -1, -1)); ((1, -1, -1), (0, -1, -1), (1, -1, -1))])).
  reflexivity.
Defined.

Section Attributes.

Context {F : Type} (zero one : F) (parse : string -> F + numErr).

(** X3. A [v], [vt] or [vn] line with an allowed number of values, all of
    them numbers, appends one entry to its collection: the values in
    order, and after them the defaults of the components not given,
    [w = 1] for a position and 0 for the third texture coordinate. *)
Theorem decodeLine_defaults (o : Obj F) (line : nat) (text kw : string)
    (vals : list string) (fs : list F) :
  Fields text = kw :: vals ->
  arity (toElem kw) (length vals) = true ->
  Forall2 (fun v f => parse v = inl f) vals fs ->
  decodeLine zero one parse o line text
  = Ret (store (toElem kw) o (fs ++ drop (length fs) (defaults zero one (toElem kw))), None).
Proof.
  intros Hf Har Hall. unfold decodeLine. rewrite Hf.
  replace (len (kw :: vals) =? 0) with false
    by (symmetry; apply Z.eqb_neq; unfold len; cbn [length]; lia).
  rewrite index_head. cbn [bind]. change (drop 1 (kw :: vals)) with vals.
  assert (Hlen : len (kw :: vals) = 1 + Z.of_nat (length vals))
    by (unfold len; cbn [length]; lia).
  rewrite Hlen. pose proof (Forall2_length _ _ _ Hall) as Hfs.
  destruct (toElem kw); cbn [arity] in Har; try discriminate.
  - apply andb_true_iff in Har as [Hlo Hhi].
    apply Nat.leb_le in Hlo. apply Nat.leb_le in Hhi.
    replace (1 + Z.of_nat (length vals) <? 4) with false by (symmetry; apply Z.ltb_ge; lia).
    replace (1 + Z.of_nat (length vals) >? 5) with false
      by (symmetry; rewrite Z.gtb_ltb; apply Z.ltb_ge; lia).
    cbn [orb]. rewrite (parseFloats_all parse line vals fs _ Hall)
      by (rewrite length_insert, length_replicate; lia).
    cbn [andThen bind store defaults]. rewrite <- Hfs. reflexivity.
  - apply andb_true_iff in Har as [Hlo Hhi].
    apply Nat.leb_le in Hlo. apply Nat.leb_le in Hhi.
    replace (1 + Z.of_nat (length vals) <? 3) with false by (symmetry; apply Z.ltb_ge; lia).
    replace (1 + Z.of_nat (length vals) >? 4) with false
      by (symmetry; rewrite Z.gtb_ltb; apply Z.ltb_ge; lia).
    cbn [orb]. rewrite (parseFloats_all parse line vals fs _ Hall)
      by (rewrite length_replicate; lia).
    cbn [andThen bind store defaults]. rewrite <- Hfs. reflexivity.
  - apply Nat.eqb_eq in Har.
    replace (1 + Z.of_nat (length vals) =? 4) with true by (symmetry; apply Z.eqb_eq; lia).
    cbn [negb]. rewrite (parseFloats_all parse line vals fs _ Hall)
      by (rewrite length_replicate; lia).
    cbn [andThen bind store defaults]. rewrite <- Hfs. reflexivity.
Qed.

End Attributes.

Lemma decodeLine_defaults_witness :
  decodeLine 0 1 litFloat emptyObj 7 "v 3 4 5"
  = Ret (store (toElem "v") emptyObj ([3; 4; 5] ++ drop (length [3; 4; 5]) (defaults 0 1 (toElem "v"))),
         None).
Proof.
  apply (decodeLine_defaults 0 1 litFloat emptyObj 7 "v 3 4 5" "v" ["3"; "4"; "5"] [3; 4; 5]).
  - reflexivity.
  - reflexivity.
  - repeat constructor.
Defined.

Section QuietLines.

Context {F : Type} (zero one : F) (parse : string -> F + numErr).

Lemma setLine_idem (n m : nat) (e : error) : setLine n (setLine m e) = setLine n e.
Proof. destruct e; reflexivity. Qed.

Lemma parseFloats_relabel (n m : nat) (vals : list string) (arr : list F) :
  parseFloats parse m vals arr = relabel m (parseFloats parse n vals arr).
Proof.
  unfold parseFloats. generalize 0%nat as i. revert arr.
  induction vals as [|v vals IH]; intros arr i; cbn [forRange].
  - reflexivity.
  - destruct (parse v) as [f|ne]; cbn [andThen bind id].
    + destruct (setAt arr i f) as [arr'|p]; cbn [bind andThen id]; [apply IH | reflexivity].
    + reflexivity.
Qed.

(** The line number enters the result of a line only as the number on
    its error. *)
Lemma decodeLine_relabel (o : Obj F) (n m : nat) (text : string) :
  decodeLine zero one parse o m text = relabel m (decodeLine zero one parse o n text).
Proof.
  unfold decodeLine. destruct (len (Fields text) =? 0); [reflexivity |].
  destruct (index (Fields text) 0) as [first|p]; cbn [bind]; [| reflexivity].
  destruct (toElem first); try reflexivity.
  - destruct ((len (Fields text) <? 4) || (len (Fields text) >? 5)); [reflexivity |].
    rewrite (parseFloats_relabel n m).
    destruct (parseFloats parse n (drop 1 (Fields text)) _) as [[p [e|]]|p]; reflexivity.
  - destruct ((len (Fields text) <? 3) || (len (Fields text) >? 4)); [reflexivity |].
    rewrite (parseFloats_relabel n m).
    destruct (parseFloats parse n (drop 1 (Fields text)) _) as [[p [e|]]|p]; reflexivity.
  - destruct (negb (len (Fields text) =? 4)); [reflexivity |].
    rewrite (parseFloats_relabel n m).
    destruct (parseFloats parse n (drop 1 (Fields text)) _) as [[p [e|]]|p]; reflexivity.
  - destruct (negb (len (Fields text) =? 4)); [reflexivity |].
    destruct (addFace o (drop 1 (Fields text))) as [[o' [e|]]|p]; reflexivity.
Qed.

Lemma decodeLine_quiet (o : Obj F) (line : nat) (text : string) :
  quietLine text = true -> decodeLine zero one parse o line text = Ret (o, None).
Proof.
  unfold quietLine, decodeLine. destruct (Fields text) as [|first vals]; [reflexivity |].
  replace (len (first :: vals) =? 0) with false
    by (symmetry; apply Z.eqb_neq; unfold len; cbn [length]; lia).
  rewrite index_head. cbn [bind]. destruct (toElem first); (discriminate || reflexivity).
Qed.

Lemma decodeLoop_loud (lines : list string) (o : Obj F) (n m : nat) :
  exists o' oe oe',
    decodeLoop zero one parse o n lines = Ret (o', oe) /\
    decodeLoop zero one parse o m (loud lines) = Ret (o', oe') /\
    setLine 0 <$> oe = setLine 0 <$> oe'.
Proof.
  revert o n m. induction lines as [|text lines IH]; intros o n m.
  - exists o, None, None. repeat split; reflexivity.
  - unfold loud. cbn [List.filter decodeLoop]. fold (loud lines).
    destruct (quietLine text) eqn:Hq; cbn [negb].
    + rewrite (decodeLine_quiet o (S n) text Hq). cbn [andThen bind id]. apply IH.
    + cbn [decodeLoop]. rewrite (decodeLine_relabel o (S n) (S m) text).
      destruct (decodeLine_cases zero one parse o (S n) text) as (o1 & [e|] & -> & _);
        cbn [relabel fmap option_fmap option_map andThen bind id].
      * exists o1, (Some e), (Some (setLine (S m) e)). repeat split; try reflexivity.
        cbn. rewrite setLine_idem. reflexivity.
      * apply IH.
Qed.

(** X4. Blank lines, comments and lines of unsupported elements have no
    effect on the result of [Decode]: with these lines removed from the
    stream the same document is returned, or the same error up to the
    number of the line it names. *)
Theorem Decode_ignores_quiet_lines (lines : list string) (err : option nat) :
  exists d e e',
    Decode zero one parse (mkScanner lines err) = Ret (d, e) /\
    Decode zero one parse (mkScanner (loud lines) err) = Ret (d, e') /\
    setLine 0 <$> e = setLine 0 <$> e'.
Proof.
  unfold Decode. cbn [texts scanErr].
  destruct (decodeLoop_loud lines emptyObj 0 0) as (o' & oe & oe' & -> & -> & Heq).
  cbn [bind]. destruct oe as [e|], oe' as [e'|]; try discriminate.
  - exists None, (Some e), (Some e'). repeat split; try reflexivity. exact Heq.
  - destruct err as [code|].
    + exists None, (Some (ErrRead code)), (Some (ErrRead code)). repeat split; reflexivity.
    + exists (Some o'), None, None. repeat split; reflexivity.
Qed.

End QuietLines.

(** ** The mesh of loadModel *)

Lemma index_app_l {A : Type} (l k : list A) (i : Z) (a : A) :
  index l i = Ret a -> index (l ++ k) i = Ret a.
Proof.
  intros H. pose proof (index_Ret l i a H) as Hi. revert H. unfold index.
  rewrite len_app. pose proof (len_nonneg k).
  replace ((0 <=? i) && (i <? len l)) with true
    by (symmetry; apply andb_true_iff; split; [apply Z.leb_le | apply Z.ltb_lt]; lia).
  replace ((0 <=? i) && (i <? len l + len k)) with true
    by (symmetry; apply andb_true_iff; split; [apply Z.leb_le | apply Z.ltb_lt]; lia).
  rewrite lookup_app_l by (unfold len in Hi; lia).
  destruct (l !! Z.to_nat i); [trivial | discriminate].
Qed.

Lemma index_snoc {A : Type} (l : list A) (a : A) : index (l ++ [a]) (len l) = Ret a.
Proof.
  unfold index. rewrite len_app. change (len [a]) with 1. pose proof (len_nonneg l).
  replace ((0 <=? len l) && (len l <? len l + 1)) with true
    by (symmetry; apply andb_true_iff; split; [apply Z.leb_le | apply Z.ltb_lt]; lia).
  unfold len. rewrite Nat2Z.id, lookup_app_r by lia. rewrite Nat.sub_diag. reflexivity.
Qed.

Lemma to_uint32_small (z : Z) : 0 <= z < 2 ^ 32 -> to_uint32 z = z.
Proof. intros Hz. unfold to_uint32. apply Z.mod_small. exact Hz. Qed.

Section MeshGeometry.

Context {F : Type}.

Lemma carries_grow (o : Obj F) (m : model F) (v : vtx) (i : Z)
    (ps ns ts : list (list F)) (ix : list Z) :
  carries o m v i ->
  (len (Tex o) > 0 -> length (tex m) = length (pos m)) ->
  (len (Nor o) > 0 -> length (nor m) = length (pos m)) ->
  carries o (mkModel (pos m ++ ps) (nor m ++ ns) (tex m ++ ts) ix) v i.
Proof.
  intros ((p & Hp & HP) & HT & HN) Ht Hn. repeat split; cbn [pos tex nor].
  - exists p. split; [apply index_app_l, Hp | exact HP].
  - intros H. destruct (HT H) as (t & H1 & H2). exists t.
    split; [apply index_app_l, H1 | exact H2].
  - intros H. destruct (HN H) as (n & H1 & H2). exists n.
    split; [apply index_app_l, H1 | exact H2].
Qed.

Lemma dedupGeo_init (o : Obj F) : dedupGeo o [] (emptyModel, ∅).
Proof.
  constructor; cbn [fst snd emptyModel pos idx tex nor length]; try reflexivity.
  - intros v i Hv. rewrite lookup_empty in Hv. discriminate.
  - intros v i Hv. rewrite lookup_empty in Hv. discriminate.
  - intros v v' i Hv. rewrite lookup_empty in Hv. discriminate.
  - constructor.
Qed.

Lemma dedupGeo_step (o : Obj F) (seen : list vtx) (overt : vtx)
    (st st' : model F * gmap vtx Z) :
  (Z.of_nat (length seen) <= 2 ^ 32 -> dedupGeo o seen st) ->
  dedupVert o overt st = Ret st' ->
  Z.of_nat (length (seen ++ [overt])) <= 2 ^ 32 -> dedupGeo o (seen ++ [overt]) st'.
Proof.
  intros Hinv Hrun Hbound. rewrite length_app in Hbound. cbn [length] in Hbound.
  destruct Hinv as [Hlen Htex Hnor Hbelow Hcar Hinj Hidx]; [lia |].
  destruct st as [m kv]. cbn [fst snd] in *. revert Hrun. unfold dedupVert.
  destruct (kv !! overt) as [kvv|] eqn:Hk.
  - intros [= <-]. constructor; cbn [fst snd pos idx tex nor].
    + rewrite length_app. lia.
    + exact Htex.
    + exact Hnor.
    + exact Hbelow.
    + exact Hcar.
    + exact Hinj.
    + apply Forall2_app; [exact Hidx |]. constructor; [exact Hk | constructor].
  - cbn [pos nor tex idx].
    rewrite (to_uint32_small (len (pos m))) by (unfold len; lia).
    destruct (index (Pos o) (vget Att.P overt)) as [p|] eqn:Hp; cbn [bind]; [| discriminate].
    set (ts := if len (Tex o) >? 0
               then match index (Tex o) (vget Att.T overt) with
                    | Ret t => Some [t] | Panic _ => None end
               else Some []).
    set (ns := if len (Nor o) >? 0
               then match index (Nor o) (vget Att.N overt) with
                    | Ret n => Some [n] | Panic _ => None end
               else Some []).
    intros Hrun.
    assert (Hshape : exists ts' ns', ts = Some ts' /\ ns = Some ns' /\
              st' = (mkModel (pos m ++ [p]) (nor m ++ ns') (tex m ++ ts')
                       (idx m ++ [len (pos m)]), <[overt := len (pos m)]> kv)).
    { revert Hrun. subst ts ns.
      destruct (len (Tex o) >? 0).
      - destruct (index (Tex o) (vget Att.T overt)) as [t|]; cbn [bind pos nor tex idx];
          [| discriminate].
        destruct (len (Nor o) >? 0).
        + destruct (index (Nor o) (vget Att.N overt)) as [n|]; cbn [bind pos nor tex idx];
            [| discriminate].
          intros [= <-]. eexists _, _. repeat split.
        + intros [= <-]. eexists _, _. repeat split. rewrite app_nil_r. reflexivity.
      - cbn [bind pos nor tex idx]. destruct (len (Nor o) >? 0).
        + destruct (index (Nor o) (vget Att.N overt)) as [n|]; cbn [bind pos nor tex idx];
            [| discriminate].
          intros [= <-]. eexists _, _. repeat split. rewrite app_nil_r. reflexivity.
        + intros [= <-]. eexists _, _. repeat split. rewrite !app_nil_r. reflexivity. }
    destruct Hshape as (ts' & ns' & Hts & Hns & ->). clear Hrun.
    assert (HT : len (Tex o) > 0 ->
              exists t, ts' = [t] /\ index (Tex o) (vget Att.T overt) = Ret t).
    { intros H. subst ts. replace (len (Tex o) >? 0) with true in Hts
        by (symmetry; rewrite Z.gtb_ltb; apply Z.ltb_lt; lia).
      destruct (index (Tex o) (vget Att.T overt)) as [t|]; [| discriminate].
      injection Hts as <-. exists t. split; reflexivity. }
    assert (HN : len (Nor o) > 0 ->
              exists n, ns' = [n] /\ index (Nor o) (vget Att.N overt) = Ret n).
    { intros H. subst ns. replace (len (Nor o) >? 0) with true in Hns
        by (symmetry; rewrite Z.gtb_ltb; apply Z.ltb_lt; lia).
      destruct (index (Nor o) (vget Att.N overt)) as [n|]; [| discriminate].
      injection Hns as <-. exists n. split; reflexivity. }
    constructor; cbn [fst snd pos idx tex nor].
    + rewrite !length_app. cbn [length]. lia.
    + intros H. destruct (HT H) as (t & -> & _). rewrite !length_app, (Htex H). reflexivity.
    + intros H. destruct (HN H) as (n & -> & _). rewrite !length_app, (Hnor H). reflexivity.
    + intros v i Hv. rewrite len_app. change (len [p]) with 1.
      destruct (decide (overt = v)) as [->|Hne].
      * rewrite lookup_insert_eq in Hv. injection Hv as <-. pose proof (len_nonneg (pos m)). lia.
      * rewrite lookup_insert_ne in Hv by exact Hne. specialize (Hbelow v i Hv). lia.
    + intros v i Hv. destruct (decide (overt = v)) as [->|Hne].
      * rewrite lookup_insert_eq in Hv. injection Hv as <-. repeat split; cbn [pos tex nor].
        -- exists p. split; [apply index_snoc | exact Hp].
        -- intros H. destruct (HT H) as (t & -> & Ht). exists t. split; [| exact Ht].
           replace (len (pos m)) with (len (tex m)) by (unfold len; rewrite (Htex H); reflexivity).
           apply index_snoc.
        -- intros H. destruct (HN H) as (n & -> & Hn). exists n. split; [| exact Hn].
           replace (len (pos m)) with (len (nor m)) by (unfold len; rewrite (Hnor H); reflexivity).
           apply index_snoc.
      * rewrite lookup_insert_ne in Hv by exact Hne.
        apply (carries_grow o m v i [p] ns' ts'); [apply Hcar, Hv | exact Htex | exact Hnor].
    + intros v v' i Hv Hv'.
      destruct (decide (overt = v)) as [Heq|Hne], (decide (overt = v')) as [Heq'|Hne'];
        try subst v; try subst v'.
      * reflexivity.
      * rewrite lookup_insert_eq in Hv. injection Hv as <-.
        rewrite lookup_insert_ne in Hv' by exact Hne'. specialize (Hbelow _ _ Hv'). lia.
      * rewrite lookup_insert_eq in Hv'. injection Hv' as <-.
        rewrite lookup_insert_ne in Hv by exact Hne. specialize (Hbelow _ _ Hv). lia.
      * rewrite lookup_insert_ne in Hv by exact Hne.
        rewrite lookup_insert_ne in Hv' by exact Hne'. eapply Hinj; eassumption.
    + apply Forall2_app.
      * eapply Forall2_impl; [exact Hidx |]. cbn. intros v i Hv.
        rewrite lookup_insert_ne; [exact Hv |]. intros ->. congruence.
      * constructor; [apply lookup_insert_eq | constructor].
Qed.

(** The loop of [loadModel], when it completes on a document of at most
    [2^32] face vertices. *)
Lemma dedup_geo (o : Obj F) (st : model F * gmap vtx Z) :
  dedup o = Ret st -> Z.of_nat (length (triples o)) <= 2 ^ 32 ->
  dedupGeo o (triples o) st.
Proof.
  unfold dedup. intros Hrun.
  assert (Hinv : Z.of_nat (length (concat (map verts ([] ++ Face o)))) <= 2 ^ 32 ->
                 dedupGeo o (concat (map verts ([] ++ Face o))) st).
  { eapply (forEach_invariant (dedupFace o)
              (fun faces st => Z.of_nat (length (concat (map verts faces))) <= 2 ^ 32 ->
                               dedupGeo o (concat (map verts faces)) st));
      [| intros _; apply dedupGeo_init | exact Hrun].
    intros faces fc s s' Hs Hfc. rewrite triples_snoc. unfold dedupFace in Hfc.
    eapply (forEach_invariant (dedupVert o)
              (fun vs st => Z.of_nat (length vs) <= 2 ^ 32 -> dedupGeo o vs st));
      [| exact Hs | exact Hfc].
    intros seen x t t'. apply dedupGeo_step. }
  exact Hinv.
Qed.

End MeshGeometry.

Section MeshTheorems.

Context {F : Type} (zero one : F) (parse : string -> F + numErr).

Lemma loadModel_dedup (r : scanner) (o : Obj F) (m : model F) :
  Decode zero one parse r = Ret (Some o, None) ->
  loadModel zero one parse (inr r) = Ret (Some m, None) ->
  exists knownVerts, dedup o = Ret (m, knownVerts).
Proof.
  intros HD. unfold loadModel. rewrite HD. cbn [bind].
  destruct (dedup o) as [[m' kv]|p]; cbn [bind fst]; [| discriminate].
  intros [= <-]. exists kv. reflexivity.
Qed.

Lemma triples_lookup (faces : list face) (f v : nat) (fc : face) (vt : vtx) :
  faces !! f = Some fc -> verts fc !! v = Some vt ->
  concat (map verts faces) !! (3 * f + v)%nat = Some vt.
Proof.
  revert f. induction faces as [|[[a b] c] faces IH]; intros f Hf Hv; [discriminate |].
  cbn [map concat]. destruct f as [|f].
  - injection Hf as <-. rewrite Nat.mul_0_r. cbn [Nat.add].
    apply lookup_app_l_Some. exact Hv.
  - cbn [lookup list_lookup] in Hf. rewrite lookup_app_r by (cbn [verts length]; lia).
    cbn [verts length]. replace (3 * S f + v - 3)%nat with (3 * f + v)%nat by lia.
    apply IH; assumption.
Qed.

Lemma index_lookup {A : Type} (l : list A) (i : nat) (a : A) :
  l !! i = Some a -> index l (Z.of_nat i) = Ret a.
Proof.
  intros H. pose proof (lookup_lt_Some _ _ _ H) as Hi. unfold index, len.
  replace ((0 <=? Z.of_nat i) && (Z.of_nat i <? Z.of_nat (length l))) with true
    by (symmetry; apply andb_true_iff; split; [apply Z.leb_le | apply Z.ltb_lt]; lia).
  rewrite Nat2Z.id, H. reflexivity.
Qed.

(** X8. The mesh that [loadModel] returns keeps the geometry of the
    document: as long as the face vertices number at most [2^32], the
    index stored for vertex [v] of face [f] leads to the position that
    [VertPos] gives for it, and to what [VertTex] and [VertNor] give
    when the document has texcoords and normals. *)
Theorem loadModel_geometry (r : scanner) (o : Obj F) (m : model F) (f v : nat) :
  Decode zero one parse r = Ret (Some o, None) ->
  loadModel zero one parse (inr r) = Ret (Some m, None) ->
  Z.of_nat (length (triples o)) <= 2 ^ 32 ->
  (f < length (Face o))%nat -> (v < 3)%nat ->
  exists i, index (idx m) (Z.of_nat (3 * f + v)) = Ret i /\
    index (pos m) i = VertPos o (Z.of_nat f) (Z.of_nat v) /\
    (len (Tex o) > 0 -> index (tex m) i = VertTex o (Z.of_nat f) (Z.of_nat v)) /\
    (len (Nor o) > 0 -> index (nor m) i = VertNor o (Z.of_nat f) (Z.of_nat v)).
Proof.
  intros HD HL Hbound Hf Hv. destruct (loadModel_dedup r o m HD HL) as [kv Hrun].
  destruct (dedup_geo o (m, kv) Hrun Hbound) as [_ _ _ _ Hcar _ Hidx]. cbn [fst snd] in *.
  destruct (lookup_lt_is_Some_2 (Face o) f Hf) as [fc Hfc].
  destruct (lookup_lt_is_Some_2 (verts fc) v) as [vt Hvt];
    [destruct fc as [[a b] c]; exact Hv |].
  pose proof (triples_lookup (Face o) f v fc vt Hfc Hvt) as Ht. fold (triples o) in Ht.
  destruct (Forall2_lookup_l _ _ _ _ _ Hidx Ht) as (i & Hi & Hk). cbn beta in Hk.
  exists i. split; [apply index_lookup, Hi |].
  unfold VertPos, VertTex, VertNor.
  rewrite (index_lookup _ _ _ Hfc). cbn [bind].
  rewrite (index_lookup _ _ _ Hvt). cbn [bind].
  destruct (Hcar vt i Hk) as ((p & Hp & HP) & HT & HN).
  split; [rewrite Hp, HP; reflexivity |]. split.
  - intros H. destruct (HT H) as (t & H1 & H2). rewrite H1, H2. reflexivity.
  - intros H. destruct (HN H) as (n & H1 & H2). rewrite H1, H2. reflexivity.
Qed.

(** X9. [loadModel] gives two face vertices the same index exactly when
    they are the same triple of attribute indices: equal triples share a
    vertex of the mesh and different triples never do. *)
Theorem loadModel_shares_equal_triples (r : scanner) (o : Obj F) (m : model F)
    (j j' : nat) (v v' : vtx) (i i' : Z) :
  Decode zero one parse r = Ret (Some o, None) ->
  loadModel zero one parse (inr r) = Ret (Some m, None) ->
  Z.of_nat (length (triples o)) <= 2 ^ 32 ->
  triples o !! j = Some v -> triples o !! j' = Some v' ->
  idx m !! j = Some i -> idx m !! j' = Some i' ->
  (i = i' <-> v = v').
Proof.
  intros HD HL Hbound Hv Hv' Hi Hi'. destruct (loadModel_dedup r o m HD HL) as [kv Hrun].
  destruct (dedup_geo o (m, kv) Hrun Hbound) as [_ _ _ _ _ Hinj Hidx]. cbn [fst snd] in *.
  pose proof (Forall2_lookup_lr _ _ _ _ _ _ Hidx Hv Hi) as Hk.
  pose proof (Forall2_lookup_lr _ _ _ _ _ _ Hidx Hv' Hi') as Hk'.
  cbn beta in Hk, Hk'. split.
  - intros Heq. subst i'. exact (Hinj v v' i Hk Hk').
  - intros Heq. subst v'. congruence.
Qed.

End MeshTheorems.

Lemma loadModel_geometry_witness :
  exists i, index (idx (mkModel [[0; 0; 0; 1]; [1; 0; 0; 1]] ([] : list (list Z)) [] [0; 1; 0]))
                  (Z.of_nat (3 * 0 + 2)) = Ret i /\
    index (pos (mkModel [[0; 0; 0; 1]; [1; 0; 0; 1]] [] [] [0; 1; 0])) i
    = VertPos (mkObj [[0; 0; 0; 1]; [1; 0; 0; 1]] [] [] [((0, -1, -1), (1, -1, -1), (0, -1, -1))])
        (Z.of_nat 0) (Z.of_nat 2) /\
    (len (Tex (mkObj [[0; 0; 0; 1]; [1; 0; 0; 1]] [] [] [((0, -1, -1), (1, -1, -1), (0, -1, -1))])) > 0 ->
     index (tex (mkModel [[0; 0; 0; 1]; [1; 0; 0; 1]] [] [] [0; 1; 0])) i
     = VertTex (mkObj [[0; 0; 0; 1]; [1; 0; 0; 1]] [] [] [((0, -1, -1), (1, -1, -1), (0, -1, -1))])
         (Z.of_nat 0) (Z.of_nat 2)) /\
    (len (Nor (mkObj [[0; 0; 0; 1]; [1; 0; 0; 1]] [] [] [((0, -1, -1), (1, -1, -1), (0, -1, -1))])) > 0 ->
     index (nor (mkModel [[0; 0; 0; 1]; [1; 0; 0; 1]] [] [] [0; 1; 0])) i
     = VertNor (mkObj [[0; 0; 0; 1]; [1; 0; 0; 1]] [] [] [((0, -1, -1), (1, -1, -1), (0, -1, -1))])
         (Z.of_nat 0) (Z.of_nat 2)).
Proof.
  apply (loadModel_geometry 0 1 litFloat (mkScanner ["v 0 0 0"; "v 1 0 0"; "f 1 2 1"] None)).
  - reflexivity.
  - vm_compute. reflexivity.
  - vm_compute. discriminate.
  - cbn. lia.
  - lia.
Defined.

Lemma loadModel_shares_equal_triples_witness :
  0 = 1 <-> (0, -1, -1) = (1, -1, -1).
Proof.
  apply (loadModel_shares_equal_triples 0 1 litFloat
           (mkScanner ["v 0 0 0"; "v 1 0 0"; "f 1 2 1"] None)
           (mkObj [[0; 0; 0; 1]; [1; 0; 0; 1]] [] [] [((0, -1, -1), (1, -1, -1), (0, -1, -1))])
           (mkModel [[0; 0; 0; 1]; [1; 0; 0; 1]] [] [] [0; 1; 0])
           0 1 (0, -1, -1) (1, -1, -1) 0 1).
  - reflexivity.
  - vm_compute. reflexivity.
  - vm_compute. discriminate.
  - reflexivity.
  - reflexivity.
  - reflexivity.
  - reflexivity.
Defined.

(** ** The two face parsers *)

Ltac face_step :=
  first
    [ reflexivity
    | progress cbn [andThen bind id fmap option_fmap option_map verdict fst snd]
    | match goal with
      | |- context [index ?a ?b] => destruct (index a b)
      | |- context [toIndex ?s] => destruct (toIndex s) as [? [?|]]
      | |- context [if ?b then _ else _] => destruct b
      end ].

(** One vertex: the check of [parseFace] and the second loop of
    [addFace] return the same error, or both none. *)
Lemma parseVertex_checkVertex (numAtt : Z) (skipTex : bool) (i : nat)
    (v : list string) (fc : face) :
  verdict (parseVertex numAtt skipTex i v fc) = verdict (checkVertex numAtt skipTex i v tt).
Proof.
  unfold verdict, parseVertex, checkVertex, setIndex, setIndexS. repeat face_step.
Qed.

Lemma verdict_Ret {St : Type} (r : stmt St) (oe : option error) :
  verdict r = Ret oe -> exists s, r = Ret (s, oe).
Proof.
  unfold verdict. destruct r as [[s oe']|p]; cbn [bind snd]; [| discriminate].
  intros [= <-]. exists s. reflexivity.
Qed.

Lemma verdict_Panic {St : Type} (r : stmt St) (p : panic) :
  verdict r = Panic p -> r = Panic p.
Proof.
  unfold verdict. destruct r as [[s oe']|q]; cbn [bind snd]; [discriminate |].
  intros [= <-]. reflexivity.
Qed.

Lemma parseLoop_checkLoop (numAtt : Z) (skipTex : bool) (vs : list (list string))
    (i : nat) (fc : face) :
  verdict (forRange (parseVertex numAtt skipTex) i vs fc)
  = verdict (forRange (checkVertex numAtt skipTex) i vs tt).
Proof.
  revert i fc. induction vs as [|v vs IH]; intros i fc; cbn [forRange]; [reflexivity |].
  pose proof (parseVertex_checkVertex numAtt skipTex i v fc) as Hv.
  destruct (verdict (checkVertex numAtt skipTex i v tt)) as [oe|p] eqn:Hc.
  - apply verdict_Ret in Hv as [fc1 ->]. apply verdict_Ret in Hc as [[] ->].
    destruct oe as [e|]; cbn [andThen bind id]; [reflexivity | apply IH].
  - apply verdict_Panic in Hv as ->. apply verdict_Panic in Hc as ->. reflexivity.
Qed.

Lemma splitVertex_splitVertexS (fields : list string) (i : nat) (acc : list (list string)) :
  (exists vs, forRange splitVertex i fields acc = Ret (vs, None) /\
              forRange splitVertexS i fields acc = Ret (vs, None)) \/
  (exists vs vs' e, forRange splitVertex i fields acc = Ret (vs, Some e) /\
                    forRange splitVertexS i fields acc = Ret (vs', Some e)).
Proof.
  revert i acc. induction fields as [|v fields IH]; intros i acc; cbn [forRange].
  - left. exists acc. split; reflexivity.
  - cbn [splitVertex splitVertexS].
    destruct (len (Split v "/") >? 3); cbn [andThen bind id].
    + right. eexists _, _, _. split; reflexivity.
    + apply IH.
Qed.

Lemma adjustAtt_shape (i : nat) (vert : list string) (a : Att.t) (attLen : Z)
    (fc fc' : face) (e : error) :
  adjustAtt i vert a attLen fc = Ret (fc', Some e) -> resolutionError e.
Proof.
  unfold adjustAtt, adjustIndex.
  destruct (vget a (fget i fc) <? 0).
  - destruct (wrap_int (vget a (fget i fc) + attLen) <? 0).
    + intros [= _ <-]. eexists _, _, _, _. split; [reflexivity |]. left. eexists. reflexivity.
    + destruct (wrap_int (vget a (fget i fc) + attLen) >? attLen); [| discriminate].
      intros [= _ <-]. eexists _, _, _, _. split; [reflexivity |]. right. reflexivity.
  - destruct (wrap_int (vget a (fget i fc) - 1) >? attLen); [| discriminate].
    intros [= _ <-]. eexists _, _, _, _. split; [reflexivity |]. right. reflexivity.
Qed.

Lemma adjustLoop_shape {F : Type} (o : Obj F) (vertices : list (list string))
    (vs : list vtx) (i : nat) (fc fc' : face) (e : error) :
  forRange (adjustVertex o vertices) i vs fc = Ret (fc', Some e) -> resolutionError e.
Proof.
  revert i fc. induction vs as [|v vs IH]; intros i fc; cbn [forRange]; [discriminate |].
  unfold adjustVertex at 1.
  destruct (index vertices (Z.of_nat i)) as [vert|p]; cbn [bind]; [| discriminate].
  destruct (adjustAtt i vert Att.P (len (Pos o)) fc) as [[fc1 [e1|]]|p] eqn:H1;
    cbn [andThen bind id]; try discriminate.
  { intros [= _ <-]. eapply adjustAtt_shape. exact H1. }
  destruct (adjustAtt i vert Att.T (len (Tex o)) fc1) as [[fc2 [e2|]]|p] eqn:H2;
    cbn [andThen bind id]; try discriminate.
  { intros [= _ <-]. eapply adjustAtt_shape. exact H2. }
  destruct (adjustAtt i vert Att.N (len (Nor o)) fc2) as [[fc3 [e3|]]|p] eqn:H3;
    cbn [andThen bind id]; try discriminate.
  { intros [= _ <-]. eapply adjustAtt_shape. exact H3. }
  apply IH.
Qed.

(** X10. The face parser of [Stream] and the one of [Decode] agree on a
    face of three vertices: an error that [parseFace] returns is the
    error that [addFace] returns, and a face that [parseFace] accepts is
    rejected by [addFace] only for an index that does not resolve
    against its collection. *)
Theorem addFace_agrees_with_parseFace {F : Type} (o : Obj F) (a b c : string)
    (_face : list vtx) :
  exists o' oe oe',
    addFace o [a; b; c] = Ret (o', oe) /\
    parseFace [a; b; c] _face = Ret (_face, oe') /\
    match oe' with
    | Some e => oe = Some e
    | None => forall e, oe = Some e -> resolutionError e
    end.
Proof.
  destruct (addFace_cases o a b c) as (o' & oe & Hadd & _).
  destruct (parseFace_cases a [b; c] _face) as (oe' & Hparse & _).
  exists o', oe, oe'. split; [exact Hadd |]. split; [exact Hparse |].
  revert Hadd Hparse. unfold addFace, parseFace.
  change (negb (len [a; b; c] =? 3)) with false. cbn iota.
  destruct (splitVertex_splitVertexS [a; b; c] 0 [])
    as [(vs & -> & ->)|(vs & vs' & e & -> & ->)]; cbn [andThen bind].
  2:{ intros [= _ <-] [= <-]. reflexivity. }
  destruct (index vs 0) as [v0|p]; cbn [bind]; [| discriminate].
  destruct (if len v0 =? 3 then do t <- index v0 1; Ret (slen t =? 0) else Ret false)
    as [sk|p]; cbn [bind]; [| discriminate].
  pose proof (parseLoop_checkLoop (len v0) sk vs 0 zero_face) as Hv.
  destruct (verdict (forRange (checkVertex (len v0) sk) 0 vs tt)) as [oe1|p] eqn:Hc.
  2:{ apply verdict_Panic in Hc as ->. discriminate. }
  apply verdict_Ret in Hv as [fc1 ->]. apply verdict_Ret in Hc as [[] ->].
  destruct oe1 as [e|]; cbn [andThen bind].
  { intros [= _ <-] [= <-]. reflexivity. }
  destruct (forRange (adjustVertex o vs) 0 (verts fc1) fc1) as [[fc2 [e|]]|p] eqn:Hadj;
    cbn [andThen bind]; try discriminate.
  - intros [= _ <-] [= <-]. intros e' [= <-]. eapply adjustLoop_shape. exact Hadj.
  - intros [= _ <-] [= <-]. discriminate.
Qed.

(** ** Stream on the streams it can finish *)

Lemma first_loud_line (lines : list string) :
  forallb quietLine lines = true \/
  exists pre text post, lines = pre ++ text :: post /\
    forallb quietLine pre = true /\ quietLine text = false.
Proof.
  induction lines as [|text lines IH]; [left; reflexivity |].
  cbn [forallb]. destruct (quietLine text) eqn:Hq; cbn [andb].
  - destruct IH as [Hall|(pre & t & post & -> & Hpre & Ht)]; [left; exact Hall |].
    right. exists (text :: pre), t, post. split; [reflexivity |].
    cbn [forallb]. rewrite Hq, Hpre. split; [reflexivity | exact Ht].
  - right. exists [], text, lines. repeat split. exact Hq.
Qed.

Section StreamVerdict.

Context {F : Type} (zero one : F) (parse : string -> F + numErr).

(** X11. [Stream] returns nil on exactly the streams that are read to
    the end without a read error and hold no position, texcoord, normal
    or face line: only blank lines, comments and unsupported elements. *)
Theorem Stream_nil_iff (r : scanner) :
  Stream zero one parse r = Ret None <->
  forallb quietLine (texts r) = true /\ scanErr r = None.
Proof.
  destruct r as [lines err]. cbn [texts scanErr]. split.
  - intros Hrun. destruct (first_loud_line lines) as [Hall|(pre & text & post & -> & Hpre & Ht)].
    + split; [exact Hall |]. revert Hrun. unfold Stream. cbn [texts scanErr].
      rewrite <- (app_nil_r lines).
      rewrite (streamLoop_quiet zero one parse None None None None lines [] [] 0 Hall).
      cbn [streamLoop bind]. destruct err; [discriminate | reflexivity].
    + exfalso. revert Hrun. unfold Stream. cbn [texts scanErr].
      rewrite (streamLoop_quiet zero one parse None None None None pre (text :: post) [] 0 Hpre).
      cbn [streamLoop Nat.add].
      destruct (streamLine_element zero one parse [] (S (length pre)) text Ht)
        as [[_ ->]|[_ (e & -> & _)]]; cbn [andThen bind]; discriminate.
  - intros [Hall ->]. unfold Stream. cbn [texts scanErr].
    rewrite <- (app_nil_r lines).
    rewrite (streamLoop_quiet zero one parse None None None None lines [] [] 0 Hall).
    reflexivity.
Qed.

End StreamVerdict.

(** ** Index resolution, every case *)

(** X5. The whole table of [adjustIndex] for a collection of [n] entries:
    an index below [-n] is too negative, a negative index from [-n] on
    counts from the end, an index from 0 to [n + 1] is lowered by one, and
    an index above [n + 1] is too large. No addition wraps around. *)
Theorem adjustIndex_table (a n : Z) :
  0 <= n <= max_int -> min_int <= a <= max_int ->
  adjustIndex a n =
    if a <? - n then (0, Some (ErrTooNegative a))
    else if a <? 0 then (a + n, None)
    else if a <=? n + 1 then (a - 1, None)
    else (0, Some ErrTooLarge).
Proof.
  intros Hn Ha. unfold adjustIndex.
  assert (Hm : 0 < max_int) by apply max_int_pos.
  destruct (Z.ltb_spec a 0) as [Hneg|Hpos].
  - rewrite wrap_int_id by (unfold min_int, max_int, int_bits in *; lia).
    destruct (Z.ltb_spec (a + n) 0) as [Hlow|Hlow].
    + replace (a <? - n) with true by (symmetry; apply Z.ltb_lt; lia). reflexivity.
    + replace (a <? - n) with false by (symmetry; apply Z.ltb_ge; lia).
      replace (a + n >? n) with false by (symmetry; rewrite Z.gtb_ltb; apply Z.ltb_ge; lia).
      reflexivity.
  - rewrite wrap_int_id by (unfold min_int, max_int, int_bits in *; lia).
    replace (a <? - n) with false by (symmetry; apply Z.ltb_ge; lia).
    destruct (Z.leb_spec a (n + 1)) as [Hle|Hgt].
    + replace (a - 1 >? n) with false by (symmetry; rewrite Z.gtb_ltb; apply Z.ltb_ge; lia).
      reflexivity.
    + replace (a - 1 >? n) with true by (symmetry; rewrite Z.gtb_ltb; apply Z.ltb_lt; lia).
      reflexivity.
Qed.

Lemma adjustIndex_table_witness :
  adjustIndex (-4) 3 =
    if -4 <? - 3 then (0, Some (ErrTooNegative (-4)))
    else if -4 <? 0 then (-4 + 3, None)
    else if -4 <=? 3 + 1 then (-4 - 1, None)
    else (0, Some ErrTooLarge).
Proof.
  apply (adjustIndex_table (-4) 3); vm_compute; split; discriminate.
Defined.

(** ** Examples of the bounds *)

Lemma Decode_resolved_witness :
  Forall (resolved (mkObj [[0; 0; 0; 1]] ([] : list (list Z)) []
                      [((0, -1, -1), (1, -1, -1), (0, -1, -1))]))
    (triples (mkObj [[0; 0; 0; 1]] ([] : list (list Z)) []
                [((0, -1, -1), (1, -1, -1), (0, -1, -1))])).
Proof.
  apply (Decode_resolved 0 1 litFloat (mkScanner ["v 0 0 0"; "f 1 2 -1"] None)).
  - vm_compute. discriminate.
  - reflexivity.
Defined.

Lemma loadModel_mesh_witness :
  (Forall (vtxInBounds (mkObj [[0; 0; 0; 1]; [1; 0; 0; 1]] ([] : list (list Z)) []
                          [((0, -1, -1), (1, -1, -1), (0, -1, -1))]))
     (triples (mkObj [[0; 0; 0; 1]; [1; 0; 0; 1]] ([] : list (list Z)) []
                 [((0, -1, -1), (1, -1, -1), (0, -1, -1))])) ->
   exists m,
     loadModel 0 1 litFloat (inr (mkScanner ["v 0 0 0"; "v 1 0 0"; "f 1 2 1"] None))
     = Ret (Some m, None) /\
     length (idx m)
     = (3 * 1)%nat /\
     Forall (fun i => 0 <= i < len (pos m)) (idx m) /\
     length (pos m)
     = size (list_to_set
               (triples (mkObj [[0; 0; 0; 1]; [1; 0; 0; 1]] ([] : list (list Z)) []
                           [((0, -1, -1), (1, -1, -1), (0, -1, -1))])) : gset vtx)) /\
  (~ Forall (vtxInBounds (mkObj [[0; 0; 0; 1]; [1; 0; 0; 1]] ([] : list (list Z)) []
                            [((0, -1, -1), (1, -1, -1), (0, -1, -1))]))
       (triples (mkObj [[0; 0; 0; 1]; [1; 0; 0; 1]] ([] : list (list Z)) []
                   [((0, -1, -1), (1, -1, -1), (0, -1, -1))])) ->
   exists p,
     loadModel 0 1 litFloat (inr (mkScanner ["v 0 0 0"; "v 1 0 0"; "f 1 2 1"] None))
     = Panic p).
Proof.
  apply (loadModel_mesh 0 1 litFloat (mkScanner ["v 0 0 0"; "v 1 0 0"; "f 1 2 1"] None)).
  reflexivity.
Defined.

(** * Properties of the shader program *)

(** ** Attribute locations *)

Lemma land_sign_bit (a : Z) :
  0 <= a < 2 ^ 32 -> (Z.land a 0x80000000 =? 0) = (a <? 2 ^ 31).
Proof.
  intros Ha. change 0x80000000 with (2 ^ 31).
  destruct (Z.ltb_spec a (2 ^ 31)) as [Hlt|Hge].
  - apply Z.eqb_eq. apply Z.bits_inj'. intros n Hn.
    rewrite Z.land_spec, Z.bits_0.
    destruct (Z.eq_dec n 31) as [->|Hne].
    + rewrite (Z.bits_above_log2 a 31); [reflexivity | lia |].
      destruct (Z.eq_dec a 0) as [->|Hnz]; [cbn; lia |].
      apply Z.log2_lt_pow2; lia.
    + rewrite (Z.pow2_bits_false 31 n) by lia. apply andb_false_r.
  - apply Z.eqb_neq. intros H.
    assert (Hbit : Z.testbit (Z.land a (2 ^ 31)) 31 = true).
    { rewrite Z.land_spec, Z.pow2_bits_true by lia. rewrite andb_true_r.
      replace a with ((a - 2 ^ 31) + 1 * 2 ^ 31) by lia.
      rewrite Z.testbit_eqb by lia.
      rewrite Z.div_add by lia. rewrite Z.div_small by lia. reflexivity. }
    rewrite H, Z.bits_0 in Hbit. discriminate.
Qed.

(** X12. The location that [getAttribLocation] converts to [uint32] is
    valid for [IsValidAttribLoc] exactly when the driver's answer, a
    32-bit signed value, is not negative: the answer -1 of a missing
    attribute is invalid. *)
Theorem IsValidAttribLoc_sign (x : Z) :
  int32 x -> IsValidAttribLoc (to_uint32 x) = (0 <=? x).
Proof.
  unfold int32, IsValidAttribLoc, to_uint32. intros Hx.
  rewrite land_sign_bit by (apply Z.mod_pos_bound; lia).
  destruct (Z.leb_spec 0 x) as [Hpos|Hneg].
  - rewrite Z.mod_small by lia. apply Z.ltb_lt. lia.
  - replace (x mod 2 ^ 32) with (x + 2 ^ 32).
    + apply Z.ltb_ge. lia.
    + symmetry. rewrite <- (Z.mod_add x 1 (2 ^ 32)) by lia. apply Z.mod_small. lia.
Qed.

Lemma IsValidAttribLoc_sign_witness :
  IsValidAttribLoc (to_uint32 (-1)) = (0 <=? -1).
Proof.
  apply (IsValidAttribLoc_sign (-1)). unfold int32. lia.
Defined.

(** ** AppendFiles *)

Section Files.

Context (W : world).

(** X13. [AppendFiles] reads the files in order and stops at the first
    one that cannot be read. What it returns is the caller's sources
    followed by what [ioutil.ReadFile] answered for each of the files
    read before that, in the order of [files], so nothing the caller
    passed is lost; the error is nil exactly when every file was read,
    and otherwise it is the error [ioutil.ReadFile] answered for the
    first file that could not be read. Each file is read at most once
    and none after the failure. *)
Theorem AppendFiles_prefix (files : list string) (sources : list bytes) (st : state) :
  exists (k : nat) (bufs : list bytes),
    (AppendFiles W sources files st).1.1 = sources ++ bufs /\
    length bufs = k /\ (k <= length files)%nat /\
    (forall j buf, bufs !! j = Some buf ->
       exists f, files !! j = Some f /\
         ReadFile W (log st ++ map ioReadFile (take j files)) f = inl buf) /\
    log (AppendFiles W sources files st).2 = log st ++ map ioReadFile (take (S k) files) /\
    heap (AppendFiles W sources files st).2 = heap st /\
    match (AppendFiles W sources files st).1.2 with
    | None => k = length files
    | Some e => exists f code, files !! k = Some f /\
                  ReadFile W (log st ++ map ioReadFile (take k files)) f = inr code /\
                  e = OsError code
    end.
Proof.
  revert sources st. induction files as [|f files IH]; intros sources st; cbn [AppendFiles].
  - exists 0%nat, []. cbn. rewrite !app_nil_r. repeat split; try reflexivity; try lia.
    intros j buf Hj. rewrite lookup_nil in Hj. discriminate.
  - destruct (ReadFile W (log st) f) as [buf|code] eqn:Hread.
    + destruct (IH (sources ++ [buf]) (emit (ioReadFile f) st))
        as (k & bufs & H1 & H2 & H3 & Hbufs & H4 & H5 & H6).
      exists (S k), (buf :: bufs). rewrite H1, H4, H5. cbn [length take map emit log heap].
      rewrite <- !app_assoc. cbn [app].
      split; [reflexivity |]. split; [lia |]. split; [lia |]. split.
      { intros [|j] b Hj.
        - injection Hj as <-. exists f. split; [reflexivity |].
          cbn [take map]. rewrite app_nil_r. exact Hread.
        - destruct (Hbufs j b Hj) as (f' & Hf' & Hr). exists f'. split; [exact Hf' |].
          cbn [emit log] in Hr. rewrite <- app_assoc in Hr. exact Hr. }
      split; [reflexivity |]. split; [reflexivity |].
      destruct ((AppendFiles W (sources ++ [buf]) files (emit (ioReadFile f) st)).1.2).
      * destruct H6 as (f' & code & Hf & Hr & He). exists f', code.
        split; [exact Hf |]. split; [| exact He].
        cbn [emit log] in Hr. rewrite <- app_assoc in Hr. exact Hr.
      * lia.
    + exists 0%nat, []. cbn [fst snd length take map emit log heap].
      rewrite !app_nil_r. split; [reflexivity |]. split; [reflexivity |].
      split; [lia |]. split.
      { intros j b Hj. rewrite lookup_nil in Hj. discriminate. }
      split; [reflexivity |]. split; [reflexivity |].
      exists f, code. split; [reflexivity |]. split; [exact Hread | reflexivity].
Qed.

End Files.

(** ** updateShader and updateProgram *)

Section Updates.

Context (W : world).

Lemma compiled_app (pre a b : list effect) :
  compiled W pre (a ++ b) <-> compiled W pre a /\ compiled W (pre ++ a) b.
Proof.
  revert pre. induction a as [|e a IH]; intros pre; cbn [app compiled].
  - rewrite app_nil_r. tauto.
  - rewrite IH, <- app_assoc. cbn [app]. tauto.
Qed.

Lemma compiled_quiet (pre evs : list effect) :
  Forall (fun e => forall sha src, e <> callCompileSource sha src) evs ->
  compiled W pre evs.
Proof.
  intros Hall. revert pre. induction Hall as [|e evs He _ IH]; intros pre; cbn [compiled].
  - exact I.
  - split; [| apply IH]. destruct e; try exact I. exfalso. eapply He. reflexivity.
Qed.

Lemma openAll_effect (paths : list string) (st : state) :
  heap (openAll W paths st).2 = heap st /\
  exists evs, log (openAll W paths st).2 = log st ++ evs /\
    Forall (fun e => exists name, e = osOpen name /\ name ∈ paths) evs.
Proof.
  revert st. induction paths as [|p paths IH]; intros st; cbn [openAll].
  - split; [reflexivity |]. exists []. rewrite app_nil_r. split; [reflexivity | constructor].
  - destruct (Open W (log st) p) as [code|].
    + cbn [snd emit heap log]. split; [reflexivity |]. eexists. split; [reflexivity |].
      repeat constructor. exists p. split; [reflexivity | left].
    + destruct (IH (emit (osOpen p) st)) as (Hh & evs & Hl & Hall).
      rewrite Hh, Hl. cbn [emit heap log]. split; [reflexivity |].
      exists (osOpen p :: evs). rewrite <- app_assoc. split; [reflexivity |].
      constructor.
      * exists p. split; [reflexivity | left].
      * eapply Forall_impl; [exact Hall |]. cbn. intros e (name & -> & Hin).
        exists name. split; [reflexivity | right; exact Hin].
Qed.

Lemma readAll_effect (paths : list string) (st : state) :
  heap (readAll W paths st).2 = heap st /\
  exists evs, log (readAll W paths st).2 = log st ++ evs /\
    Forall (fun e => exists name, e = ioRead name /\ name ∈ paths) evs.
Proof.
  revert st. induction paths as [|p paths IH]; intros st; cbn [readAll].
  - split; [reflexivity |]. exists []. rewrite app_nil_r. split; [reflexivity | constructor].
  - destruct (Read W (log st) p) as [b|code].
    + destruct (IH (emit (ioRead p) st)) as (Hh & evs & Hl & Hall).
      destruct (readAll W paths (emit (ioRead p) st)) as [r' st']. cbn [snd] in *.
      rewrite Hh, Hl. cbn [emit heap log]. split; [reflexivity |].
      exists (ioRead p :: evs). rewrite <- app_assoc. split; [reflexivity |].
      constructor.
      * exists p. split; [reflexivity | left].
      * eapply Forall_impl; [exact Hall |]. cbn. intros e (name & -> & Hin).
        exists name. split; [reflexivity | right; exact Hin].
    + cbn [snd emit heap log]. split; [reflexivity |]. eexists. split; [reflexivity |].
      repeat constructor. exists p. split; [reflexivity | left].
Qed.

(** One call of [updateShader]: the shader is found unmarked or is
    unmarked first, every call made is about it, and nil is returned
    only if [gx.CompileSource], when called, returned nil. *)
Lemma updateShader_effect (s : nat) (st st' : state) (r : option gerror) :
  updateShader W s st = Ret (r, st') ->
  exists v, heap st !! s = Some v /\
    heap st' = <[s := flagged false v]> (heap st) /\
    exists evs, log st' = log st ++ evs /\
      (shader.update v = false -> evs = [] /\ r = None) /\
      Forall (about v) evs /\
      (r = None -> compiled W (log st) evs).
Proof.
  unfold updateShader, deref.
  destruct (heap st !! s) as [v|] eqn:Hv; cbn [bind]; [| discriminate].
  destruct (shader.update v) eqn:Hu; cbn [negb].
  - unfold setUpdate, deref. rewrite Hv. cbn [bind].
    set (st1 := mkState _ (log st)).
    pose proof (openAll_effect (shader.paths v) st1) as (Hh & evs & Hl & Hall).
    destruct (openAll W (shader.paths v) st1) as [[e|] st2]; cbn [snd] in Hh, Hl.
    + intros [= <- <-]. exists v. split; [reflexivity |]. split; [exact Hh |].
      exists evs. split; [exact Hl |]. split; [intros Hf; congruence |].
      split; [| discriminate].
      eapply Forall_impl; [exact Hall |]. cbn. intros e' (name & -> & Hin). exact Hin.
    + pose proof (readAll_effect (shader.paths v) st2) as (Hh3 & evs3 & Hl3 & Hall3).
      destruct (readAll W (shader.paths v) st2) as [[b|code] st3]; cbn [snd] in Hh3, Hl3.
      * destruct (gxCompileSource W (log st3) (shader.id v) [b]) as [err|pn] eqn:Hc;
          cbn [bind]; [| discriminate].
        intros [= <- <-]. cbn [emit heap log].
        exists v. split; [reflexivity |].
        split; [rewrite Hh3; exact Hh |].
        exists (evs ++ evs3 ++ [callCompileSource (shader.id v) [b]]). rewrite Hl3, Hl.
        cbn [log]. rewrite <- !app_assoc. split; [reflexivity |].
        split; [intros Hf; congruence |]. split.
        -- apply Forall_app. split.
           ++ eapply Forall_impl; [exact Hall |]. cbn. intros e' (name & -> & Hin). exact Hin.
           ++ apply Forall_app. split.
              ** eapply Forall_impl; [exact Hall3 |]. cbn.
                 intros e' (name & -> & Hin). exact Hin.
              ** repeat constructor.
        -- intros ->. rewrite Hl3, Hl in Hc. cbn [log] in Hc.
           apply compiled_app. split.
           ++ apply compiled_quiet. eapply Forall_impl; [exact Hall |]. cbn.
              intros e' (name & -> & _) sha src. discriminate.
           ++ apply compiled_app. split.
              ** apply compiled_quiet. eapply Forall_impl; [exact Hall3 |]. cbn.
                 intros e' (name & -> & _) sha src. discriminate.
              ** cbn [compiled]. split; [exact Hc | exact I].
      * intros [= <- <-]. exists v. split; [reflexivity |].
        split; [rewrite Hh3; exact Hh |].
        exists (evs ++ evs3). rewrite Hl3, Hl, <- app_assoc.
        split; [reflexivity |]. split; [intros Hf; congruence |].
        split; [| discriminate].
        apply Forall_app. split.
        -- eapply Forall_impl; [exact Hall |]. cbn. intros e' (name & -> & Hin). exact Hin.
        -- eapply Forall_impl; [exact Hall3 |]. cbn. intros e' (name & -> & Hin). exact Hin.
  - intros [= <- <-]. exists v. split; [reflexivity |]. split.
    + symmetry. apply list_insert_id. rewrite Hv. destruct v as [i ps u]. cbn in Hu.
      rewrite Hu. reflexivity.
    + exists []. rewrite app_nil_r. split; [reflexivity |]. split; [split; reflexivity |].
      split; [constructor | intros _; exact I].
Qed.

End Updates.

(** ** Building the program *)

Section Building.

Context (W : world).

Lemma pathsOf_snoc (stage stage' : Z) (path : string) (args : list (Z * string)) :
  pathsOf stage (args ++ [(stage', path)])
  = pathsOf stage args ++ (if decide (stage' = stage) then [path] else []).
Proof.
  unfold pathsOf. rewrite filter_app, map_app. f_equal.
  rewrite filter_cons, filter_nil. cbn [fst].
  destruct (decide (stage' = stage)); reflexivity.
Qed.

Lemma stagesOf_snoc (path path' : string) (stage : Z) (args : list (Z * string)) :
  stagesOf path (args ++ [(stage, path')])
  = stagesOf path args ++ (if decide (path' = path) then [stage] else []).
Proof.
  unfold stagesOf. rewrite filter_app, map_app. f_equal.
  rewrite filter_cons, filter_nil. cbn [snd].
  destruct (decide (path' = path)); reflexivity.
Qed.

Lemma pathsOf_absent (stage : Z) (args : list (Z * string)) :
  stage ∉ map fst args -> pathsOf stage args = [].
Proof.
  unfold pathsOf. induction args as [|[stage' path] args IH]; [reflexivity |].
  cbn [map fst]. rewrite not_elem_of_cons. intros [Hne Hnot].
  rewrite filter_cons. cbn [fst]. destruct (decide (stage' = stage)); [congruence |].
  apply IH, Hnot.
Qed.

Lemma stagesOf_absent (path : string) (args : list (Z * string)) :
  path ∉ map snd args -> stagesOf path args = [].
Proof.
  unfold stagesOf. induction args as [|[stage path'] args IH]; [reflexivity |].
  cbn [map snd]. rewrite not_elem_of_cons. intros [Hne Hnot].
  rewrite filter_cons. cbn [snd]. destruct (decide (path' = path)); [congruence |].
  apply IH, Hnot.
Qed.

Lemma built_new (st : state) :
  heap st = [] -> built [] (newProgram W st).1 (newProgram W st).2.
Proof.
  intros Hh. unfold newProgram. cbn [fst snd].
  constructor; cbn [program.shaderByStage program.shadersByPath program.update map emit heap].
  - rewrite dom_empty_L. reflexivity.
  - rewrite dom_empty_L. reflexivity.
  - intros stage s H. rewrite lookup_empty in H. discriminate.
  - intros stage stage' s H. rewrite lookup_empty in H. discriminate.
  - intros path ss H. rewrite lookup_empty in H. discriminate.
  - rewrite Hh, map_size_empty. reflexivity.
Qed.

Lemma set_snoc_known `{Countable K} (X : gset K) (l : list K) (x : K) :
  X = list_to_set l -> x ∈ X -> X = list_to_set (l ++ [x]).
Proof.
  intros HX Hx. rewrite list_to_set_app_L, <- HX. cbn [list_to_set].
  rewrite union_empty_r_L, union_comm_L. symmetry.
  apply subseteq_union_1_L, singleton_subseteq_l, Hx.
Qed.

Lemma set_snoc_new `{Countable K} (X : gset K) (l : list K) (x : K) :
  X = list_to_set l -> {[x]} ∪ X = list_to_set (l ++ [x]).
Proof.
  intros HX. rewrite list_to_set_app_L, <- HX. cbn [list_to_set].
  rewrite union_empty_r_L. apply union_comm_L.
Qed.

Lemma byPath_snoc (byStage byStage' : gmap Z nat) (byPath : gmap string (list nat))
    (args : list (Z * string)) (stage : Z) (path : string) (s : nat) :
  dom byPath = list_to_set (map snd args) ->
  (forall path ss, byPath !! path = Some ss ->
     Forall2 (fun s stage => byStage !! stage = Some s) ss (stagesOf path args)) ->
  (forall stage s, byStage !! stage = Some s -> byStage' !! stage = Some s) ->
  byStage' !! stage = Some s ->
  forall path' ss,
    <[path := default [] (byPath !! path) ++ [s]]> byPath !! path' = Some ss ->
    Forall2 (fun s stage => byStage' !! stage = Some s) ss
      (stagesOf path' (args ++ [(stage, path)])).
Proof.
  intros Hdom Hold Hmono Hs path' ss. rewrite stagesOf_snoc.
  destruct (decide (path = path')) as [<-|Hne].
  - rewrite lookup_insert_eq. intros [= <-]. apply Forall2_app.
    + destruct (byPath !! path) as [ss0|] eqn:Hp; cbn [default].
      * eapply Forall2_impl; [apply (Hold path ss0 Hp) |]. cbn. intros s0 stage0. apply Hmono.
      * rewrite stagesOf_absent; [constructor |].
        intros Hin. apply not_elem_of_dom in Hp. apply Hp. rewrite Hdom.
        apply elem_of_list_to_set, Hin.
    + constructor; [exact Hs | constructor].
  - rewrite lookup_insert_ne by exact Hne. intros Hp. rewrite app_nil_r.
    eapply Forall2_impl; [apply (Hold path' ss Hp) |]. cbn. intros s0 stage0. apply Hmono.
Qed.

(** One call of [addPath] in a program built from [args]. *)
Lemma addPath_step (args : list (Z * string)) (p : program.t) (st : state)
    (stage : Z) (path : string) :
  built args p st ->
  exists p' st', addPath W p stage path st = Ret (p', st') /\
    built (args ++ [(stage, path)]) p' st' /\
    (allMarked p st \/ args = [] -> allMarked p' st').
Proof.
  intros [Hstages Hpaths Hshader Hinj HbyPath Hcount]. unfold addPath.
  destruct (program.shaderByStage p !! stage) as [s|] eqn:Hs.
  - destruct (Hshader stage s Hs) as (v & Hv & Hvp).
    unfold deref. rewrite Hv. cbn [bind]. eexists _, _. split; [reflexivity |].
    pose proof (lookup_lt_Some _ _ _ Hv) as Hlt. split.
    + constructor; cbn [program.shaderByStage program.shadersByPath program.update heap log].
      * rewrite map_app. apply set_snoc_known; [exact Hstages |].
        apply elem_of_dom. eauto.
      * rewrite dom_insert_L, map_app. apply set_snoc_new, Hpaths.
      * intros stage' s' Hs'. rewrite pathsOf_snoc.
        destruct (decide (stage = stage')) as [<-|Hne].
        -- assert (s' = s) as -> by congruence.
           eexists. split; [apply list_lookup_insert_eq, Hlt |]. cbn [shader.paths].
           rewrite Hvp. reflexivity.
        -- destruct (Hshader stage' s' Hs') as (v' & Hv' & Hvp').
           assert (s <> s') by (intros ->; apply Hne; eapply Hinj; eassumption).
           exists v'. rewrite list_lookup_insert_ne by assumption.
           split; [exact Hv' |]. rewrite app_nil_r. assumption.
      * exact Hinj.
      * apply (byPath_snoc (program.shaderByStage p)); auto.
      * rewrite length_insert. exact Hcount.
    + intros [[_ Hall]| ->].
      * split; [reflexivity |].
        cbn [program.shaderByStage]. intros stage' s' Hs'. unfold marked. cbn [heap].
        destruct (decide (s = s')) as [<-|Hne].
        -- eexists. split; [apply list_lookup_insert_eq, Hlt | reflexivity].
        -- rewrite list_lookup_insert_ne by exact Hne. apply (Hall stage' s' Hs').
      * exfalso. apply elem_of_dom_2 in Hs. rewrite Hstages in Hs.
        cbn in Hs. apply elem_of_empty in Hs. exact Hs.
  - unfold deref. cbv [emit]. cbn [heap log].
    rewrite lookup_app_r by lia. rewrite Nat.sub_diag. cbn [lookup list_lookup bind].
    cbn [shader.id shader.paths app].
    eexists _, _. split; [reflexivity |].
    assert (Hfresh : forall stage' s', program.shaderByStage p !! stage' = Some s' ->
                       (s' < length (heap st))%nat).
    { intros stage' s' Hs'. destruct (Hshader stage' s' Hs') as (v' & Hv' & _).
      eapply lookup_lt_Some. exact Hv'. }
    assert (Hheap : <[length (heap st) := shader.mk (CreateShader W (log st) stage) [path] true]>
                      (heap st ++ [shader.mk (CreateShader W (log st) stage) [] false])
                    = heap st ++ [shader.mk (CreateShader W (log st) stage) [path] true]).
    { rewrite insert_app_r_alt by lia. rewrite Nat.sub_diag. reflexivity. }
    split.
    + constructor; cbn [program.shaderByStage program.shadersByPath program.update heap log];
        rewrite ?Hheap.
      * rewrite dom_insert_L, map_app. apply set_snoc_new, Hstages.
      * rewrite dom_insert_L, map_app. apply set_snoc_new, Hpaths.
      * intros stage' s' Hs'. rewrite pathsOf_snoc.
        destruct (decide (stage = stage')) as [<-|Hne].
        -- rewrite lookup_insert_eq in Hs'. injection Hs' as <-.
           eexists. split; [rewrite lookup_app_r by lia; rewrite Nat.sub_diag; reflexivity |].
           cbn [shader.paths].
           rewrite pathsOf_absent; [reflexivity |].
           intros Hin. apply not_elem_of_dom in Hs. apply Hs. rewrite Hstages.
           apply elem_of_list_to_set, Hin.
        -- rewrite lookup_insert_ne in Hs' by exact Hne.
           destruct (Hshader stage' s' Hs') as (v' & Hv' & Hvp').
           exists v'. split; [apply lookup_app_l_Some, Hv' |]. rewrite app_nil_r.
           assumption.
      * intros stage1 stage2 s' H1 H2.
        destruct (decide (stage = stage1)) as [<-|Hne1], (decide (stage = stage2)) as [<-|Hne2].
        -- reflexivity.
        -- rewrite lookup_insert_eq in H1. injection H1 as <-.
           rewrite lookup_insert_ne in H2 by exact Hne2. apply Hfresh in H2. lia.
        -- rewrite lookup_insert_eq in H2. injection H2 as <-.
           rewrite lookup_insert_ne in H1 by exact Hne1. apply Hfresh in H1. lia.
        -- rewrite lookup_insert_ne in H1 by exact Hne1.
           rewrite lookup_insert_ne in H2 by exact Hne2. eapply Hinj; eassumption.
      * apply (byPath_snoc (program.shaderByStage p)); auto.
        -- intros stage' s' Hs'. rewrite lookup_insert_ne; [exact Hs' |]. intros <-. congruence.
        -- apply lookup_insert_eq.
      * rewrite length_app, map_size_insert_None by exact Hs. cbn [length]. lia.
    + intros Hm. split; [reflexivity |].
      cbn [program.shaderByStage]. intros stage' s' Hs'. unfold marked. cbn [heap].
      rewrite Hheap. destruct (decide (stage = stage')) as [<-|Hne].
      * rewrite lookup_insert_eq in Hs'. injection Hs' as <-.
        eexists. split; [rewrite lookup_app_r by lia; rewrite Nat.sub_diag; reflexivity |].
        reflexivity.
      * rewrite lookup_insert_ne in Hs' by exact Hne.
        destruct Hm as [[_ Hall]| ->].
        -- destruct (Hall stage' s' Hs') as (v' & Hv' & Hu'). exists v'.
           split; [apply lookup_app_l_Some, Hv' | exact Hu'].
        -- exfalso. apply elem_of_dom_2 in Hs'. rewrite Hstages in Hs'.
           cbn in Hs'. apply elem_of_empty in Hs'. exact Hs'.
Qed.

(** The calls of [main], one after the other. *)
Lemma addPaths_built (args done : list (Z * string)) (p : program.t) (st : state) :
  built done p st -> allMarked p st \/ done = [] ->
  exists p' st', addPaths W p args st = Ret (p', st') /\
    built (done ++ args) p' st' /\ (allMarked p' st' \/ done ++ args = []).
Proof.
  revert done p st. induction args as [|[stage path] args IH]; intros done p st Hb Hm.
  - exists p, st. rewrite app_nil_r. split; [reflexivity |]. split; [exact Hb | exact Hm].
  - cbn [addPaths]. destruct (addPath_step done p st stage path Hb) as (p1 & st1 & -> & Hb1 & Hm1).
    cbn [bind fst snd]. destruct (IH _ p1 st1 Hb1) as (p2 & st2 & Hrun & Hb2 & Hm2).
    { left. apply Hm1, Hm. }
    exists p2, st2. split; [exact Hrun |]. rewrite <- app_assoc in Hb2, Hm2.
    split; [exact Hb2 | exact Hm2].
Qed.

End Building.

(** ** The loop of updateProgram *)

Section Loop.

Context (W : world).

Lemma linkOnly_refl (st : state) : linkOnly st st.
Proof. split; [reflexivity |]. exists []. rewrite app_nil_r. split; [reflexivity | constructor]. Qed.

Lemma linkOnly_trans (st1 st2 st3 : state) :
  linkOnly st1 st2 -> linkOnly st2 st3 -> linkOnly st1 st3.
Proof.
  intros (Hh1 & evs1 & Hl1 & Ha1) (Hh2 & evs2 & Hl2 & Ha2). split; [congruence |].
  exists (evs1 ++ evs2). rewrite Hl2, Hl1, <- app_assoc. split; [reflexivity |].
  apply Forall_app. split; assumption.
Qed.

Lemma flagged_flagged (b c : bool) (v : shader.t) : flagged b (flagged c v) = flagged b v.
Proof. reflexivity. Qed.

Lemma about_flagged (b : bool) (v : shader.t) (e : effect) : about (flagged b v) e <-> about v e.
Proof. destruct e; reflexivity. Qed.

Lemma about_shaderCall (v : shader.t) (e : effect) : about v e -> shaderCall e = true.
Proof. destruct e; cbn; intros H; (reflexivity || contradiction). Qed.

(** The loop over the shaders: a shader changes only by losing its mark,
    on success every shader gone through is unmarked and every call of
    [gx.CompileSource] returned nil, and every call made is about a
    shader that was marked. *)
Lemma updateShaders_effect (ss : list nat) (st st' : state) (r : option gerror) :
  updateShaders W ss st = Ret (r, st') ->
  length (heap st') = length (heap st) /\
  (forall a v', heap st' !! a = Some v' ->
     exists v, heap st !! a = Some v /\ (v' = v \/ (a ∈ ss /\ v' = flagged false v))) /\
  (r = None -> forall s, s ∈ ss -> ~ marked st' s) /\
  exists evs, log st' = log st ++ evs /\
    Forall (fun e => exists s v, s ∈ ss /\ heap st !! s = Some v /\
                       shader.update v = true /\ about v e) evs /\
    (r = None -> compiled W (log st) evs).
Proof.
  revert st. induction ss as [|s ss IH]; intros st; cbn [updateShaders].
  - intros [= <- <-]. split; [reflexivity |]. split.
    { intros a v' H. exists v'. split; [exact H | left; reflexivity]. }
    split.
    { intros _ s Hs. apply elem_of_nil in Hs. contradiction. }
    exists []. rewrite app_nil_r. split; [reflexivity |].
    split; [constructor | intros _; exact I].
  - destruct (updateShader W s st) as [[r1 st1]|p] eqn:H1; cbn [bind]; [| discriminate].
    apply updateShader_effect in H1 as (v & Hv & Hh1 & evs1 & Hl1 & Hquiet & Hab1 & Hc1).
    pose proof (lookup_lt_Some _ _ _ Hv) as Hlt.
    assert (Hback1 : forall a v', heap st1 !! a = Some v' ->
              (a = s /\ v' = flagged false v) \/ (a <> s /\ heap st !! a = Some v')).
    { intros a v' Ha. rewrite Hh1 in Ha. apply list_lookup_insert_Some in Ha.
      destruct Ha as [(-> & <- & _)|[Hne Ha]]; [left; split; reflexivity | right].
      split; [congruence | exact Ha]. }
    assert (Hev1 : Forall (fun e => exists s0 v0, s0 ∈ s :: ss /\ heap st !! s0 = Some v0 /\
                                      shader.update v0 = true /\ about v0 e) evs1).
    { destruct (shader.update v) eqn:Hu.
      - eapply Forall_impl; [exact Hab1 |]. cbn. intros e He.
        exists s, v. split; [left |]. split; [exact Hv |]. split; [exact Hu | exact He].
      - destruct (Hquiet eq_refl) as [-> _]. constructor. }
    destruct r1 as [e|].
    + intros [= <- <-]. split; [rewrite Hh1; apply length_insert |]. split.
      { intros a v' Ha. destruct (Hback1 a v' Ha) as [[-> ->]|[Hne Ha']].
        - exists v. split; [exact Hv |]. right. split; [left | reflexivity].
        - exists v'. split; [exact Ha' | left; reflexivity]. }
      split; [discriminate |].
      exists evs1. split; [exact Hl1 |]. split; [exact Hev1 | discriminate].
    + intros Hrest.
      destruct (IH st1 Hrest) as (Hlen & Hback & Hun & evs2 & Hl2 & Hev2 & Hc2).
      split; [rewrite Hlen, Hh1; apply length_insert |]. split.
      { intros a v' Ha. destruct (Hback a v' Ha) as (v1 & Ha1 & Hv').
        destruct (Hback1 a v1 Ha1) as [[-> ->]|[Hne Ha0]].
        - exists v. split; [exact Hv |]. right. split; [left |].
          destruct Hv' as [->|[_ ->]]; reflexivity.
        - exists v1. split; [exact Ha0 |].
          destruct Hv' as [->|[Hin ->]]; [left; reflexivity | right].
          split; [right; exact Hin | reflexivity]. }
      split.
      { intros Hr s' Hs' (v' & Ha & Hu). apply elem_of_cons in Hs' as [->|Hs'].
        - destruct (Hback s v' Ha) as (v1 & Ha1 & Hv').
          destruct (Hback1 s v1 Ha1) as [[_ ->]|[Hne _]]; [| congruence].
          destruct Hv' as [->|[_ ->]]; discriminate.
        - apply (Hun Hr s' Hs'). exists v'. split; assumption. }
      exists (evs1 ++ evs2). rewrite Hl2, Hl1, <- app_assoc. split; [reflexivity |].
      split.
      * apply Forall_app. split; [exact Hev1 |].
        eapply Forall_impl; [exact Hev2 |]. cbn. intros e (s0 & v0 & Hin & Ha & Hu & He).
        destruct (Hback1 s0 v0 Ha) as [[_ ->]|[Hne Ha0]]; [discriminate |].
        exists s0, v0. split; [right; exact Hin |]. split; [exact Ha0 |]. split; assumption.
      * intros Hr. apply compiled_app. split; [apply Hc1; reflexivity |].
        rewrite <- Hl1. apply Hc2, Hr.
Qed.

Lemma getUniformLocation_effect (prog : Z) (name : string) (st st' : state) (loc : Z) :
  getUniformLocation W prog name st = Ret (loc, st') -> linkOnly st st'.
Proof.
  unfold getUniformLocation. cbv [emit]. cbn [heap log].
  destruct (gxIsValidUniformLoc W _ _) as [valid|pn]; cbn [bind]; [| discriminate].
  intros [= <- <-]. destruct valid; cbn [negb heap log]; (split; [reflexivity |]);
    eexists; rewrite <- ?app_assoc; (split; [reflexivity |]); repeat constructor.
Qed.

Lemma getAttribLocation_effect (prog : Z) (name : string) (st st' : state) (loc : Z) :
  getAttribLocation W prog name st = Ret (loc, st') -> linkOnly st st'.
Proof.
  unfold getAttribLocation. cbv [emit]. cbn [heap log].
  destruct (gxIsValidAttribLoc W _ _) as [valid|pn]; cbn [bind]; [| discriminate].
  intros [= <- <-]. destruct valid; cbn [negb heap log]; (split; [reflexivity |]);
    eexists; rewrite <- ?app_assoc; (split; [reflexivity |]); repeat constructor.
Qed.

End Loop.

(** The queries of the locations, one at a time. *)
Ltac loc_step :=
  match goal with
  | |- context [getUniformLocation ?W ?p ?n ?s] =>
      let H := fresh "Hq" in
      destruct (getUniformLocation W p n s) as [[? ?]|?] eqn:H; cbn [bind];
      [apply getUniformLocation_effect in H | discriminate]
  | |- context [getAttribLocation ?W ?p ?n ?s] =>
      let H := fresh "Hq" in
      destruct (getAttribLocation W p n s) as [[? ?]|?] eqn:H; cbn [bind];
      [apply getAttribLocation_effect in H | discriminate]
  end.

Section UpdateProgram.

Context (W : world).

Lemma fair_elem (order : list (Z * nat) -> list (Z * nat)) (m : gmap Z nat) (s : nat) :
  fair order ->
  s ∈ map snd (order (map_to_list m)) <-> exists stage, m !! stage = Some s.
Proof.
  intros Hfair. rewrite list_elem_of_In, in_map_iff. split.
  - intros ([stage s'] & <- & Hin). exists stage. apply list_elem_of_In in Hin.
    rewrite (Hfair _) in Hin. apply elem_of_map_to_list in Hin. exact Hin.
  - intros [stage Hs]. exists (stage, s). split; [reflexivity |].
    apply list_elem_of_In. rewrite (Hfair _). apply elem_of_map_to_list. exact Hs.
Qed.

(** What one call of [updateProgram] does to the program, the heap and
    the log. *)
Lemma updateProgram_effect (order : list (Z * nat) -> list (Z * nat))
    (p p' : program.t) (st st' : state) (r : option gerror) :
  updateProgram W order p st = Ret (r, p', st') ->
  program.update p' = false /\
  program.shaderByStage p' = program.shaderByStage p /\
  program.shadersByPath p' = program.shadersByPath p /\
  program.id p' = program.id p /\
  (program.update p = false -> r = None /\ p' = p /\ st' = st) /\
  exists st1 r1,
    (if program.update p
     then updateShaders W (map snd (order (map_to_list (program.shaderByStage p)))) st
          = Ret (r1, st1)
     else st1 = st /\ r1 = None) /\
    linkOnly st1 st' /\ (r = None -> r1 = None).
Proof.
  unfold updateProgram. destruct (program.update p) eqn:Hu; cbn [negb].
  2:{ intros [= <- <- <-]. repeat split; try assumption; try reflexivity.
      exists st, None. split; [split; reflexivity |]. split; [apply linkOnly_refl | reflexivity]. }
  cbn [program.id program.shaderByStage].
  destruct (updateShaders W _ st) as [[[e|] st1]|pn] eqn:Hloop; cbn [bind]; try discriminate.
  { intros [= <- <- <-]. cbn. repeat split; try reflexivity; try discriminate.
    exists st1, (Some e). split; [reflexivity |]. split; [apply linkOnly_refl | discriminate]. }
  assert (Hlink : linkOnly st1 (emit (callLinkProgram (program.id p)) st1)).
  { split; [reflexivity |]. exists [callLinkProgram (program.id p)].
    split; [reflexivity |]. repeat constructor. }
  destruct (gxLinkProgram W (log st1) (program.id p)) as [[e|]|pn]; cbn [bind];
    try discriminate.
  { intros [= <- <- <-]. cbn. repeat split; try reflexivity; try discriminate.
    exists st1, None. split; [reflexivity |]. split; [exact Hlink | reflexivity]. }
  repeat loc_step.
  intros [= <- <- <-]. cbn. repeat split; try reflexivity; try discriminate.
  exists st1, None. split; [reflexivity |]. split; [| reflexivity].
  repeat (eapply linkOnly_trans; [eassumption |]). apply linkOnly_refl.
Qed.

End UpdateProgram.

(** ** pathChanged *)

Lemma markAll_effect (ss : list nat) (st st' : state) :
  forEach (fun s st => setUpdate s true st) ss st = Ret st' ->
  log st' = log st /\ length (heap st') = length (heap st) /\
  (forall a v', heap st' !! a = Some v' ->
     exists v, heap st !! a = Some v /\ (v' = v \/ (a ∈ ss /\ v' = flagged true v))) /\
  (forall s, s ∈ ss -> marked st' s).
Proof.
  revert st. induction ss as [|s ss IH]; intros st; cbn [forEach].
  - intros [= <-]. split; [reflexivity |]. split; [reflexivity |]. split.
    + intros a v' H. exists v'. split; [exact H | left; reflexivity].
    + intros s Hs. apply elem_of_nil in Hs. contradiction.
  - unfold setUpdate at 1, deref. destruct (heap st !! s) as [v|] eqn:Hv; cbn [bind];
      [| discriminate].
    intros Hrest. destruct (IH _ Hrest) as (Hl & Hlen & Hback & Hmark). cbn [heap log] in *.
    pose proof (lookup_lt_Some _ _ _ Hv) as Hlt.
    split; [exact Hl |]. split; [rewrite Hlen; apply length_insert |]. split.
    + intros a v' Ha. destruct (Hback a v' Ha) as (v1 & Ha1 & Hv').
      apply list_lookup_insert_Some in Ha1.
      destruct Ha1 as [(-> & <- & _)|[Hne Ha0]].
      * exists v. split; [exact Hv |]. right. split; [left |].
        destruct Hv' as [->|[_ ->]]; reflexivity.
      * exists v1. split; [exact Ha0 |].
        destruct Hv' as [->|[Hin ->]]; [left; reflexivity | right].
        split; [right; exact Hin | reflexivity].
    + intros s' Hs'. apply elem_of_cons in Hs' as [->|Hs']; [| apply Hmark, Hs'].
      assert (Hs1 : (s < length (heap st'))%nat) by (rewrite Hlen, length_insert; exact Hlt).
      destruct (lookup_lt_is_Some_2 _ _ Hs1) as [v' Ha]. exists v'. split; [exact Ha |].
      destruct (Hback s v' Ha) as (v1 & Ha1 & Hv').
      rewrite list_lookup_insert_eq in Ha1 by exact Hlt. injection Ha1 as <-.
      destruct Hv' as [->|[_ ->]]; reflexivity.
Qed.

Lemma markAll_returns (ss : list nat) (st : state) :
  Forall (fun s => (s < length (heap st))%nat) ss ->
  exists st', forEach (fun s st => setUpdate s true st) ss st = Ret st'.
Proof.
  revert st. induction ss as [|s ss IH]; intros st Hall; cbn [forEach].
  - exists st. reflexivity.
  - apply Forall_cons in Hall as [Hs Hall]. unfold setUpdate at 1, deref.
    destruct (lookup_lt_is_Some_2 _ _ Hs) as [v ->]. cbn [bind].
    apply IH. cbn [heap]. rewrite length_insert. exact Hall.
Qed.

Lemma pathChanged_effect (p p' : program.t) (path : string) (st st' : state)
    (r : option gerror) :
  pathChanged p path st = Ret (r, p', st') ->
  (program.shadersByPath p !! path = None /\ r = Some (NoShaderForPath path) /\
   p' = p /\ st' = st) \/
  (exists ss, program.shadersByPath p !! path = Some ss /\ r = None /\
     p' = pflagged true p /\ log st' = log st /\ length (heap st') = length (heap st) /\
     (forall a v', heap st' !! a = Some v' ->
        exists v, heap st !! a = Some v /\ (v' = v \/ (a ∈ ss /\ v' = flagged true v))) /\
     (forall s, s ∈ ss -> marked st' s)).
Proof.
  unfold pathChanged. destruct (program.shadersByPath p !! path) as [ss|].
  - destruct (forEach _ ss st) as [st1|pn] eqn:Hrun; cbn [bind]; [| discriminate].
    intros [= <- <- <-]. right. exists ss. split; [reflexivity |]. split; [reflexivity |].
    split; [reflexivity |]. apply markAll_effect. exact Hrun.
  - intros [= <- <- <-]. left. repeat split.
Qed.

(** ** The states of a run *)

Section Reach.

Context (W : world).

(** A change of the flags alone keeps the layout. *)
Lemma built_flags (args : list (Z * string)) (p p' : program.t) (st st' : state) :
  built args p st ->
  program.shaderByStage p' = program.shaderByStage p ->
  program.shadersByPath p' = program.shadersByPath p ->
  length (heap st') = length (heap st) ->
  (forall a v', heap st' !! a = Some v' ->
     exists v, heap st !! a = Some v /\ shader.paths v' = shader.paths v) ->
  built args p' st'.
Proof.
  intros [Hstages Hpaths Hshader Hinj HbyPath Hcount] HS HP Hlen Hback.
  constructor; rewrite ?HS, ?HP; try assumption.
  - intros stage s Hs. destruct (Hshader stage s Hs) as (v & Hv & Hvp).
    assert (Hlt : (s < length (heap st'))%nat)
      by (rewrite Hlen; eapply lookup_lt_Some; exact Hv).
    destruct (lookup_lt_is_Some_2 _ _ Hlt) as [v' Hv']. exists v'. split; [exact Hv' |].
    destruct (Hback s v' Hv') as (v0 & Hv0 & Hp0). congruence.
  - congruence.
Qed.

Lemma updateProgram_heap (order : list (Z * nat) -> list (Z * nat))
    (p p' : program.t) (st st' : state) (r : option gerror) :
  updateProgram W order p st = Ret (r, p', st') ->
  length (heap st') = length (heap st) /\
  forall a v', heap st' !! a = Some v' ->
    exists v, heap st !! a = Some v /\ (v' = v \/ v' = flagged false v).
Proof.
  intros Hrun. apply updateProgram_effect in Hrun
    as (_ & _ & _ & _ & _ & st1 & r1 & Hloop & (Hh & _) & _).
  rewrite Hh. destruct (program.update p).
  - apply updateShaders_effect in Hloop as (Hlen & Hback & _). split; [exact Hlen |].
    intros a v' Ha. destruct (Hback a v' Ha) as (v & Hv & [->|[_ ->]]);
      exists v; (split; [exact Hv |]); [left | right]; reflexivity.
  - destruct Hloop as [-> _]. split; [reflexivity |]. intros a v' Ha.
    exists v'. split; [exact Ha | left; reflexivity].
Qed.

(** Every state of a run has the layout that [addPath] built. *)
Lemma reach_built_inv (args : list (Z * string)) (p : program.t) (st : state) :
  reach W args p st -> built args p st.
Proof.
  induction 1 as [st0 p st Hh Hrun | order p st r p' st' Hfair _ IH Hrun
                  | path p st r p' st' _ IH Hrun | evs p st _ IH].
  - destruct (addPaths_built W args [] _ _ (built_new W st0 Hh)) as (p1 & st1 & Hrun1 & Hb & _);
      [right; reflexivity |].
    rewrite Hrun in Hrun1. injection Hrun1 as <- <-. exact Hb.
  - pose proof (updateProgram_heap _ _ _ _ _ _ Hrun) as (Hlen & Hback).
    apply updateProgram_effect in Hrun as (_ & HS & HP & _).
    apply (built_flags args p p' st st' IH HS HP Hlen).
    intros a v' Ha. destruct (Hback a v' Ha) as (v & Hv & [-> | ->]); exists v; split;
      (exact Hv || reflexivity).
  - apply pathChanged_effect in Hrun
      as [(_ & _ & -> & ->)|(ss & _ & _ & -> & _ & Hlen & Hback & _)]; [exact IH |].
    apply (built_flags args p (pflagged true p) st st' IH eq_refl eq_refl Hlen).
    intros a v' Ha. destruct (Hback a v' Ha) as (v & Hv & [->|[_ ->]]); exists v; split;
      (exact Hv || reflexivity).
  - apply (built_flags args p p st (mkState (heap st) (log st ++ evs)) IH eq_refl eq_refl eq_refl).
    cbn [heap]. intros a v' Ha. exists v'. split; [exact Ha | reflexivity].
Qed.

End Reach.

(** ** The program over a run *)

Lemma fair_id : fair (fun l => l).
Proof. intros l. reflexivity. Qed.

Section Run.

Context (W : world).

(** X14. An update is not retried: once [updateProgram] has returned,
    with or without an error, the next call returns nil at once, changes
    nothing and makes no call, whatever was left uncompiled. Only a
    changed path or a new path makes it work again. *)
Theorem updateProgram_not_retried (order order' : list (Z * nat) -> list (Z * nat))
    (p p' : program.t) (st st' : state) (r : option gerror) :
  updateProgram W order p st = Ret (r, p', st') ->
  updateProgram W order' p' st' = Ret (None, p', st').
Proof.
  intros Hrun. apply updateProgram_effect in Hrun as (Hu & _).
  unfold updateProgram. rewrite Hu. reflexivity.
Qed.

Lemma updateProgram_clean (order : list (Z * nat) -> list (Z * nat))
    (p p' : program.t) (st st' : state) :
  fair order -> program.update p = true ->
  updateProgram W order p st = Ret (None, p', st') -> clean p' st'.
Proof.
  intros Hfair Hu Hrun. apply updateProgram_effect in Hrun
    as (_ & HS & _ & _ & _ & st1 & r1 & Hloop & (Hh & _) & Hr).
  rewrite Hu in Hloop. rewrite (Hr eq_refl) in Hloop.
  apply updateShaders_effect in Hloop as (_ & _ & Hun & _).
  intros stage s Hs (v & Hv & Hvu). rewrite HS in Hs.
  apply (Hun eq_refl s); [apply (fair_elem order _ s Hfair); eauto |].
  exists v. rewrite <- Hh. split; assumption.
Qed.

(** X15. When [updateProgram] has work to do and returns nil, nothing is
    left pending: the program is unmarked and so is every shader of it,
    whatever the order in which the shaders were gone through. *)
Theorem updateProgram_unmarks (order : list (Z * nat) -> list (Z * nat))
    (p p' : program.t) (st st' : state) :
  fair order -> program.update p = true ->
  updateProgram W order p st = Ret (None, p', st') ->
  program.update p' = false /\ clean p' st'.
Proof.
  intros Hfair Hu Hrun. split.
  - apply updateProgram_effect in Hrun as (Hu' & _). exact Hu'.
  - eapply updateProgram_clean; eassumption.
Qed.

(** X16. After a change of [path] in a program none of whose shaders is
    marked, the next update opens, reads and compiles only shaders that
    [path] was given for: every file it opens or reads is a file of one
    of them and every source it hands to [gx.CompileSource] is handed
    over for one of them; the shaders of the other stages are left
    alone. *)
Theorem reload_touches_changed_only (order : list (Z * nat) -> list (Z * nat))
    (p1 p2 p3 : program.t) (st1 st2 st3 : state) (path : string) (r : option gerror) :
  fair order -> clean p1 st1 ->
  pathChanged p1 path st1 = Ret (None, p2, st2) ->
  updateProgram W order p2 st2 = Ret (r, p3, st3) ->
  exists ss evs, program.shadersByPath p1 !! path = Some ss /\
    log st3 = log st1 ++ evs /\
    Forall (fun e => shaderCall e = true ->
              exists s v, s ∈ ss /\ heap st1 !! s = Some v /\ about v e) evs.
Proof.
  intros Hfair Hclean Hch Hrun.
  apply pathChanged_effect in Hch
    as [(_ & Hr & _)|(ss & Hss & _ & -> & Hl & _ & Hback & _)]; [discriminate |].
  exists ss. apply updateProgram_effect in Hrun
    as (_ & _ & _ & _ & _ & st' & r1 & Hloop & (_ & evs2 & Hl2 & Hev2) & _).
  cbn [pflagged program.update program.shaderByStage] in Hloop.
  apply updateShaders_effect in Hloop as (_ & _ & _ & evs1 & Hl1 & Hev1 & _).
  exists (evs1 ++ evs2). split; [exact Hss |].
  rewrite Hl2, Hl1, Hl, <- app_assoc. split; [reflexivity |].
  apply Forall_app. split.
  - eapply Forall_impl; [exact Hev1 |]. cbn. intros e (s & v2 & Hin & Hv2 & Hu2 & He) _.
    destruct (Hback s v2 Hv2) as (v1 & Hv1 & [-> | [Hs ->]]).
    + exfalso. apply (fair_elem order _ s Hfair) in Hin as [stage Hstage].
      apply (Hclean stage s Hstage). exists v1. split; assumption.
    + exists s, v1. split; [exact Hs |]. split; [exact Hv1 |].
      apply (about_flagged true). exact He.
  - eapply Forall_impl; [exact Hev2 |]. cbn. intros e He Hc. congruence.
Qed.

(** X17. [addPath], called for each argument of [main] on a new program,
    never panics and creates one shader for each stage named, however
    many paths the stage is given; the shader holds the paths of its
    stage in the order of the arguments, and the program and every
    shader are left marked for the first update. *)
Theorem addPaths_one_shader_per_stage (args : list (Z * string)) (st0 : state) :
  heap st0 = [] ->
  exists p st,
    addPaths W (newProgram W st0).1 args (newProgram W st0).2 = Ret (p, st) /\
    length (heap st) = size (list_to_set (map fst args) : gset Z) /\
    (forall stage, stage ∈ map fst args ->
       exists s v, program.shaderByStage p !! stage = Some s /\ heap st !! s = Some v /\
         shader.paths v = pathsOf stage args /\ shader.update v = true) /\
    program.update p = true.
Proof.
  intros Hh.
  destruct (addPaths_built W args [] _ _ (built_new W st0 Hh)) as (p & st & Hrun & Hb & Hm);
    [right; reflexivity |].
  cbn [app] in Hb, Hm. exists p, st. split; [exact Hrun |].
  destruct Hb as [Hstages _ Hshader _ _ Hcount]. split.
  { rewrite Hcount, <- Hstages. symmetry. apply size_dom. }
  destruct Hm as [[Hu Hall]| ->].
  - split; [| exact Hu]. intros stage Hin.
    assert (Hd : stage ∈ dom (program.shaderByStage p))
      by (rewrite Hstages; apply elem_of_list_to_set, Hin).
    apply elem_of_dom in Hd as [s Hs]. destruct (Hshader stage s Hs) as (v & Hv & Hvp).
    destruct (Hall stage s Hs) as (v' & Hv' & Hvu). exists s, v.
    split; [exact Hs |]. split; [exact Hv |]. split; [exact Hvp | congruence].
  - cbn [addPaths] in Hrun. injection Hrun as <- <-. split; [| reflexivity].
    intros stage Hin. cbn in Hin. apply elem_of_nil in Hin. contradiction.
Qed.

(** X18. In every state of a run on the arguments [args], [pathChanged]
    returns nil exactly for the paths that were given as arguments: it
    then marks the program and the shader of every stage the path was
    given for, and makes no call. For any other path it returns its
    error and changes nothing. *)
Theorem pathChanged_watched (args : list (Z * string)) (p : program.t) (st : state)
    (path : string) :
  reach W args p st ->
  (path ∈ map snd args ->
   exists st', pathChanged p path st = Ret (None, pflagged true p, st') /\
     log st' = log st /\
     forall stage, stage ∈ stagesOf path args ->
       exists s, program.shaderByStage p !! stage = Some s /\ marked st' s) /\
  (path ∉ map snd args ->
   pathChanged p path st = Ret (Some (NoShaderForPath path), p, st)).
Proof.
  intros Hreach. apply reach_built_inv in Hreach.
  destruct Hreach as [Hstages Hpaths Hshader Hinj HbyPath Hcount]. split.
  - intros Hin.
    assert (Hd : path ∈ dom (program.shadersByPath p))
      by (rewrite Hpaths; apply elem_of_list_to_set, Hin).
    apply elem_of_dom in Hd as [ss Hss]. pose proof (HbyPath path ss Hss) as Hall.
    destruct (markAll_returns ss st) as [st' Hrun].
    { apply Forall_forall. intros s Hs.
      destruct (list_elem_of_lookup_1 _ _ Hs) as [i Hi].
      destruct (Forall2_lookup_l _ _ _ _ _ Hall Hi) as (stage & _ & Hstage).
      destruct (Hshader stage s Hstage) as (v & Hv & _). eapply lookup_lt_Some. exact Hv. }
    exists st'. unfold pathChanged. rewrite Hss, Hrun. cbn [bind].
    split; [reflexivity |]. apply markAll_effect in Hrun as (Hl & _ & _ & Hmark).
    split; [exact Hl |]. intros stage Hstage.
    destruct (list_elem_of_lookup_1 _ _ Hstage) as [i Hi].
    destruct (Forall2_lookup_r _ _ _ _ _ Hall Hi) as (s & Hs & Hlook).
    exists s. split; [exact Hlook |]. apply Hmark. eapply list_elem_of_lookup_2. exact Hs.
  - intros Hout. unfold pathChanged.
    assert (Hn : program.shadersByPath p !! path = None).
    { apply not_elem_of_dom. rewrite Hpaths. intros Hin. apply Hout.
      apply elem_of_list_to_set in Hin. exact Hin. }
    rewrite Hn. reflexivity.
Qed.

End Run.

Lemma updateProgram_not_retried_witness :
  exists e p' st',
    updateProgram broken (fun l => l)
      (program.mk 1 (<[35633 := 0%nat]> ∅) (<["a.vs" := [0%nat]]> ∅) true 0 0 0 0 0 0 0 0)
      (mkState [shader.mk 3 ["a.vs"] true] []) = Ret (Some e, p', st') /\
    updateProgram broken (fun l => l) p' st' = Ret (None, p', st').
Proof.
  assert (H : exists e p' st',
            updateProgram broken (fun l => l)
              (program.mk 1 (<[35633 := 0%nat]> ∅) (<["a.vs" := [0%nat]]> ∅) true
                 0 0 0 0 0 0 0 0)
              (mkState [shader.mk 3 ["a.vs"] true] []) = Ret (Some e, p', st'))
    by (eexists _, _, _; vm_compute; reflexivity).
  destruct H as (e & p' & st' & H). exists e, p', st'. split; [exact H |].
  exact (updateProgram_not_retried broken _ _ _ _ _ _ _ H).
Defined.

Lemma updateProgram_unmarks_witness :
  exists p' st',
    updateProgram calm (fun l => l)
      (program.mk 1 (<[35633 := 0%nat]> ∅) (<["a.vs" := [0%nat]]> ∅) true 0 0 0 0 0 0 0 0)
      (mkState [shader.mk 3 ["a.vs"] true] []) = Ret (None, p', st') /\
    program.update p' = false /\ clean p' st'.
Proof.
  assert (H : exists p' st',
            updateProgram calm (fun l => l)
              (program.mk 1 (<[35633 := 0%nat]> ∅) (<["a.vs" := [0%nat]]> ∅) true
                 0 0 0 0 0 0 0 0)
              (mkState [shader.mk 3 ["a.vs"] true] []) = Ret (None, p', st'))
    by (eexists _, _; vm_compute; reflexivity).
  destruct H as (p' & st' & H). exists p', st'. split; [exact H |].
  refine (updateProgram_unmarks calm _ _ _ _ _ fair_id _ H). reflexivity.
Defined.

Lemma reload_touches_changed_only_witness :
  exists r p3 st3,
    updateProgram calm (fun l => l)
      (pflagged true
         (program.mk 1 (<[35633 := 0%nat]> (<[35632 := 1%nat]> ∅))
            (<["a.vs" := [0%nat]]> (<["b.fs" := [1%nat]]> ∅)) false 0 0 0 0 0 0 0 0))
      (mkState [shader.mk 3 ["a.vs"] true; shader.mk 6 ["b.fs"] false] [])
    = Ret (r, p3, st3) /\
    exists ss evs,
      program.shadersByPath
        (program.mk 1 (<[35633 := 0%nat]> (<[35632 := 1%nat]> ∅))
           (<["a.vs" := [0%nat]]> (<["b.fs" := [1%nat]]> ∅)) false 0 0 0 0 0 0 0 0)
      !! "a.vs" = Some ss /\
      log st3 = [] ++ evs /\
      Forall (fun e => shaderCall e = true ->
                exists s v, s ∈ ss /\
                  [shader.mk 3 ["a.vs"] false; shader.mk 6 ["b.fs"] false] !! s = Some v /\
                  about v e) evs.
Proof.
  assert (H : exists r p3 st3,
            updateProgram calm (fun l => l)
              (pflagged true
                 (program.mk 1 (<[35633 := 0%nat]> (<[35632 := 1%nat]> ∅))
                    (<["a.vs" := [0%nat]]> (<["b.fs" := [1%nat]]> ∅)) false
                    0 0 0 0 0 0 0 0))
              (mkState [shader.mk 3 ["a.vs"] true; shader.mk 6 ["b.fs"] false] [])
            = Ret (r, p3, st3))
    by (eexists _, _, _; vm_compute; reflexivity).
  destruct H as (r & p3 & st3 & H). exists r, p3, st3. split; [exact H |].
  apply (reload_touches_changed_only calm (fun l => l)
           (program.mk 1 (<[35633 := 0%nat]> (<[35632 := 1%nat]> ∅))
              (<["a.vs" := [0%nat]]> (<["b.fs" := [1%nat]]> ∅)) false 0 0 0 0 0 0 0 0)
           (pflagged true
              (program.mk 1 (<[35633 := 0%nat]> (<[35632 := 1%nat]> ∅))
                 (<["a.vs" := [0%nat]]> (<["b.fs" := [1%nat]]> ∅)) false 0 0 0 0 0 0 0 0))
           p3
           (mkState [shader.mk 3 ["a.vs"] false; shader.mk 6 ["b.fs"] false] [])
           (mkState [shader.mk 3 ["a.vs"] true; shader.mk 6 ["b.fs"] false] [])
           st3 "a.vs" r fair_id).
  - intros stage s _ (v & Hv & Hu). destruct s as [|[|s]]; cbn in Hv; try discriminate;
      injection Hv as <-; discriminate.
  - vm_compute. reflexivity.
  - exact H.
Defined.

Lemma addPaths_one_shader_per_stage_witness :
  exists p st,
    addPaths calm (newProgram calm (mkState [] [])).1
      [(35633, "a.vs"); (35633, "lib.glsl"); (35632, "b.fs")]
      (newProgram calm (mkState [] [])).2 = Ret (p, st) /\
    length (heap st)
    = size (list_to_set (map fst [(35633, "a.vs"); (35633, "lib.glsl"); (35632, "b.fs")])
            : gset Z) /\
    (forall stage, stage ∈ map fst [(35633, "a.vs"); (35633, "lib.glsl"); (35632, "b.fs")] ->
       exists s v, program.shaderByStage p !! stage = Some s /\ heap st !! s = Some v /\
         shader.paths v = pathsOf stage [(35633, "a.vs"); (35633, "lib.glsl"); (35632, "b.fs")] /\
         shader.update v = true) /\
    program.update p = true.
Proof.
  apply (addPaths_one_shader_per_stage calm
           [(35633, "a.vs"); (35633, "lib.glsl"); (35632, "b.fs")] (mkState [] [])).
  reflexivity.
Defined.

Lemma pathChanged_watched_witness :
  ("a.vs" ∈ map snd [(35633, "a.vs")] ->
   exists st',
     pathChanged
       (program.mk 1 (<[35633 := 0%nat]> ∅) (<["a.vs" := [0%nat]]> ∅) true 0 0 0 0 0 0 0 0)
       "a.vs"
       (mkState [shader.mk 3 ["a.vs"] true]
          [glCreateProgram; glCreateShader 35633; glAttachShader 1 3])
     = Ret (None,
            pflagged true
              (program.mk 1 (<[35633 := 0%nat]> ∅) (<["a.vs" := [0%nat]]> ∅) true
                 0 0 0 0 0 0 0 0),
            st') /\
     log st' = [glCreateProgram; glCreateShader 35633; glAttachShader 1 3] /\
     forall stage, stage ∈ stagesOf "a.vs" [(35633, "a.vs")] ->
       exists s,
         (<[35633 := 0%nat]> ∅ : gmap Z nat) !! stage = Some s /\ marked st' s) /\
  ("a.vs" ∉ map snd [(35633, "a.vs")] ->
   pathChanged
     (program.mk 1 (<[35633 := 0%nat]> ∅) (<["a.vs" := [0%nat]]> ∅) true 0 0 0 0 0 0 0 0)
     "a.vs"
     (mkState [shader.mk 3 ["a.vs"] true]
        [glCreateProgram; glCreateShader 35633; glAttachShader 1 3])
   = Ret (Some (NoShaderForPath "a.vs"),
          program.mk 1 (<[35633 := 0%nat]> ∅) (<["a.vs" := [0%nat]]> ∅) true 0 0 0 0 0 0 0 0,
          mkState [shader.mk 3 ["a.vs"] true]
            [glCreateProgram; glCreateShader 35633; glAttachShader 1 3])).
Proof.
  apply (pathChanged_watched calm [(35633, "a.vs")]).
  apply (reach_built calm [(35633, "a.vs")] (mkState [] [])); [reflexivity |].
  vm_compute. reflexivity.
Defined.

(** ** Sources without a first byte *)

Section EmptySource.

Context (W : world).

Lemma sources_empty_panic (src : list bytes) (acc : list Z) :
  [] ∈ src ->
  forEach (fun (s : bytes) (srclen : list Z) =>
             do _ <- index s 0; Ret (srclen ++ [to_int32 (len s)])) src acc
  = Panic (IndexOutOfRange 0 0).
Proof.
  revert acc. induction src as [|s src IH]; intros acc Hin.
  - apply elem_of_nil in Hin. contradiction.
  - cbn [forEach]. destruct s as [|b s].
    + reflexivity.
    + rewrite index_head. cbn [bind]. apply IH.
      apply elem_of_cons in Hin as [Heq|Hin]; [discriminate | exact Hin].
Qed.

(** X19. [CompileSource] of [internal/gx] panics with an index out of
    range when it is given no source at all, or a source that is empty
    such as the contents of an empty file: it takes the address of the
    first byte of every source, and of the first source. *)
Theorem CompileSource_empty_source_panics (sha : Z) (src : list bytes) (st : state) :
  src = [] \/ [] ∈ src ->
  CompileSource W sha src st = Panic (IndexOutOfRange 0 0).
Proof.
  intros [-> | Hin]; unfold CompileSource.
  - reflexivity.
  - rewrite (sources_empty_panic src [] Hin). reflexivity.
Qed.

End EmptySource.

Lemma CompileSource_empty_source_panics_witness :
  CompileSource blank 3 [[Byte.x76]; []] (mkState [] []) = Panic (IndexOutOfRange 0 0).
Proof.
  apply (CompileSource_empty_source_panics blank 3 [[Byte.x76]; []] (mkState [] [])).
  right. right. left.
Defined.

(** ** A failure without a log *)

Section EmptyLog.

Context (W : world).

(** X20. When the driver reports that the link or the compilation
    failed and gives a log length of zero or less, [LinkProgram] and
    [CompileSource] panic instead of returning an error: they take the
    address of the first byte of an empty buffer, or allocate a buffer
    of negative length. *)
Theorem failure_without_log_panics (prog sha : Z) (b0 : Byte.byte) (b : bytes) (st : state) :
  (forall l, ProgramStatus W l prog = 0) -> (forall l, ProgramLogLength W l prog <= 0) ->
  (forall l, ShaderStatus W l sha = 0) -> (forall l, ShaderLogLength W l sha <= 0) ->
  (exists pn, LinkProgram W prog st = Panic pn) /\
  (exists pn, CompileSource W sha [b0 :: b] st = Panic pn).
Proof.
  intros Hps Hpl Hss Hsl.
  assert (Hmake : forall n, n <= 0 ->
            exists pn, (do buf <- makeBytes n; do _ <- index buf 0; Ret tt) = Panic pn).
  { intros n Hn. unfold makeBytes. destruct (Z.ltb_spec n 0) as [Hlt|Hge].
    - eexists. reflexivity.
    - replace n with 0 by lia. eexists. reflexivity. }
  split.
  - unfold LinkProgram. rewrite Hps. cbn [Z.eqb].
    destruct (Hmake _ (Hpl (log (emit (glGetProgramStatus prog) (emit (glLinkProgram prog) st)))))
      as [pn Hpn].
    destruct (makeBytes _) as [buf|pn']; cbn [bind] in *; [| eexists; reflexivity].
    destruct (index buf 0) as [x|pn']; cbn [bind] in *; [discriminate | eexists; reflexivity].
  - unfold CompileSource. cbn [forEach]. rewrite index_head. cbn [bind app].
    rewrite !index_head. cbn [bind]. rewrite Hss. cbn [Z.eqb].
    match goal with |- context [makeBytes ?n] => destruct (Hmake n) as [pn Hpn] end;
      [apply Hsl |].
    destruct (makeBytes _) as [buf|pn']; cbn [bind] in *; [| eexists; reflexivity].
    destruct (index buf 0) as [x|pn']; cbn [bind] in *; [discriminate | eexists; reflexivity].
Qed.

End EmptyLog.

Lemma failure_without_log_panics_witness :
  (exists pn, LinkProgram
                (mkWorld (fun _ => 1) (fun _ _ => 2) (fun _ _ => None)
                   (fun _ _ => inl [Byte.x76]) (fun _ _ => inl [Byte.x76])
                   (fun _ _ => 0) (fun _ _ => 0) (fun _ _ _ => [])
                   (fun _ _ => 0) (fun _ _ => 0) (fun _ _ _ => [])
                   (fun _ _ _ => 0) (fun _ _ _ => -1)
                   (fun _ _ _ => Ret None) (fun _ _ => Ret None)
                   (fun _ _ => Ret true) (fun _ _ => Ret true))
                1 (mkState [] []) = Panic pn) /\
  (exists pn, CompileSource
                (mkWorld (fun _ => 1) (fun _ _ => 2) (fun _ _ => None)
                   (fun _ _ => inl [Byte.x76]) (fun _ _ => inl [Byte.x76])
                   (fun _ _ => 0) (fun _ _ => 0) (fun _ _ _ => [])
                   (fun _ _ => 0) (fun _ _ => 0) (fun _ _ _ => [])
                   (fun _ _ _ => 0) (fun _ _ _ => -1)
                   (fun _ _ _ => Ret None) (fun _ _ => Ret None)
                   (fun _ _ => Ret true) (fun _ _ => Ret true))
                2 [[Byte.x76]] (mkState [] []) = Panic pn).
Proof.
  apply (failure_without_log_panics _ 1 2 Byte.x76 [] (mkState [] [])); intros l; cbn; lia.
Defined.

(** ** What is compiled, and when the program is linked *)

Section Compiling.

Context (W : world).

Lemma openAll_ok (paths : list string) (st : state) :
  (forall l name, Open W l name = None) ->
  openAll W paths st = (None, mkState (heap st) (log st ++ map osOpen paths)).
Proof.
  intros Hopen. revert st. induction paths as [|p paths IH]; intros st; cbn [openAll map].
  - rewrite app_nil_r. destruct st. reflexivity.
  - rewrite Hopen, IH. cbn [emit heap log]. rewrite <- app_assoc. reflexivity.
Qed.

Lemma readAll_ok (data : string -> bytes) (paths : list string) (st : state) :
  (forall l name, Read W l name = inl (data name)) ->
  readAll W paths st
  = (inl (concat (map data paths)), mkState (heap st) (log st ++ map ioRead paths)).
Proof.
  intros Hread. revert st. induction paths as [|p paths IH]; intros st;
    cbn [readAll map concat].
  - rewrite app_nil_r. destruct st. reflexivity.
  - rewrite Hread, IH. cbn [emit heap log]. rewrite <- app_assoc. reflexivity.
Qed.

(** X21. What a stage is compiled from: when the files of a marked
    shader open and are read, [updateShader] calls [gx.CompileSource]
    once, with the id of the shader and exactly one source, the contents
    of the files joined in the order of [s.paths], which is the order of
    the arguments. It returns what [gx.CompileSource] returns, nil or
    error, and the shader is unmarked in both cases. The calls made are
    the opening of each file, the reading of each file, then the call of
    [gx.CompileSource]. *)
Theorem updateShader_compiles_concatenation (s : nat) (v : shader.t) (st : state)
    (data : string -> bytes) :
  heap st !! s = Some v -> shader.update v = true ->
  (forall l name, Open W l name = None) ->
  (forall l name, Read W l name = inl (data name)) ->
  updateShader W s st
  = do err <- gxCompileSource W
                (log st ++ map osOpen (shader.paths v) ++ map ioRead (shader.paths v))
                (shader.id v) [concat (map data (shader.paths v))];
    Ret (err,
         mkState (<[s := flagged false v]> (heap st))
           (log st ++ map osOpen (shader.paths v) ++ map ioRead (shader.paths v) ++
            [callCompileSource (shader.id v) [concat (map data (shader.paths v))]])).
Proof.
  intros Hv Hu Hopen Hread. unfold updateShader, deref. rewrite Hv. cbn [bind].
  rewrite Hu. cbn [negb]. unfold setUpdate, deref. rewrite Hv. cbn [bind].
  rewrite (openAll_ok _ _ Hopen). cbn [heap log].
  rewrite (readAll_ok data _ _ Hread). cbn [heap log].
  cbv [emit]. cbn [heap log]. unfold flagged. rewrite <- !app_assoc. reflexivity.
Qed.

(** The two phases of an update that has work to do. *)
Lemma updateProgram_phases (order : list (Z * nat) -> list (Z * nat))
    (p p' : program.t) (st st' : state) (r : option gerror) :
  program.update p = true ->
  updateProgram W order p st = Ret (r, p', st') ->
  exists r1 st1,
    updateShaders W (map snd (order (map_to_list (program.shaderByStage p)))) st
    = Ret (r1, st1) /\
    ((r1 <> None /\ r = r1 /\ st' = st1) \/
     (r1 = None /\ exists rest, heap st' = heap st1 /\
        log st' = log st1 ++ callLinkProgram (program.id p) :: rest /\
        Forall (fun e => shaderCall e = false) rest /\
        gxLinkProgram W (log st1) (program.id p) = Ret r /\
        (r <> None -> rest = []))).
Proof.
  intros Hu. unfold updateProgram. rewrite Hu. cbn [negb program.id program.shaderByStage].
  destruct (updateShaders W _ st) as [[[e|] st1]|pn] eqn:Hloop; cbn [bind]; try discriminate.
  { intros [= <- <- <-]. exists (Some e), st1. split; [reflexivity |]. left.
    split; [discriminate |]. split; reflexivity. }
  intros Hrun. exists None, st1. split; [reflexivity |]. right. split; [reflexivity |].
  revert Hrun.
  destruct (gxLinkProgram W (log st1) (program.id p)) as [[e|]|pn]; cbn [bind];
    try discriminate.
  { intros [= <- <- <-]. exists []. cbn [emit heap log].
    split; [reflexivity |]. split; [reflexivity |]. split; [constructor |].
    split; reflexivity. }
  repeat loc_step. intros [= <- <- Hst].
  assert (Hall : linkOnly (emit (callLinkProgram (program.id p)) st1) st').
  { rewrite <- Hst. repeat (eapply linkOnly_trans; [eassumption |]). apply linkOnly_refl. }
  destruct Hall as (Hh & evs & Hl & Hev). exists evs. cbn [emit heap log] in Hh, Hl.
  split; [exact Hh |]. split; [rewrite Hl, <- app_assoc; reflexivity |].
  split; [exact Hev |]. split; [reflexivity |]. intros Hne. congruence.
Qed.

(** X22. The program is linked only once every shader has compiled. The
    calls of an update that has work to do come in two phases: first
    the calls about shaders, then, if none of them failed,
    [gx.LinkProgram] and the queries of the locations. When
    [gx.LinkProgram] is called every call of [gx.CompileSource] of the
    update has returned nil and no shader of the program is left marked;
    the update then returns what [gx.LinkProgram] returns, and the
    locations are queried only if that is nil. When a shader fails the
    error is returned and no link is attempted. *)
Theorem updateProgram_links_after_compiling (order : list (Z * nat) -> list (Z * nat))
    (p p' : program.t) (st st' : state) (r : option gerror) :
  fair order -> program.update p = true ->
  updateProgram W order p st = Ret (r, p', st') ->
  exists evs1 evs2,
    log st' = log st ++ evs1 ++ evs2 /\
    Forall (fun e => shaderCall e = true) evs1 /\
    Forall (fun e => shaderCall e = false) evs2 /\
    ((evs2 = [] /\ r <> None) \/
     (exists rest, evs2 = callLinkProgram (program.id p) :: rest /\
        compiled W (log st) evs1 /\
        gxLinkProgram W (log st ++ evs1) (program.id p) = Ret r /\
        (r <> None -> rest = []) /\
        clean p' st')).
Proof.
  intros Hfair Hu Hrun.
  pose proof (updateProgram_effect W _ _ _ _ _ _ Hrun) as (_ & HS & _).
  destruct (updateProgram_phases _ _ _ _ _ _ Hu Hrun) as (r1 & st1 & Hloop & Hcase).
  destruct (updateShaders_effect W _ _ _ _ Hloop)
    as (_ & _ & Hun & evs1 & Hl1 & Hev1 & Hc1).
  assert (Hshader : Forall (fun e => shaderCall e = true) evs1).
  { eapply Forall_impl; [exact Hev1 |]. cbn. intros e (s & v & _ & _ & _ & He).
    eapply about_shaderCall. exact He. }
  destruct Hcase as [(Hr1 & -> & ->)|(-> & rest & Hh & Hl & Hrest & Hlink & Hfail)].
  - exists evs1, []. rewrite app_nil_r. split; [exact Hl1 |]. split; [exact Hshader |].
    split; [constructor |]. left. split; [reflexivity | exact Hr1].
  - exists evs1, (callLinkProgram (program.id p) :: rest).
    split; [rewrite Hl, Hl1, <- app_assoc; reflexivity |].
    split; [exact Hshader |]. split; [constructor; [reflexivity | exact Hrest] |].
    right. exists rest. split; [reflexivity |].
    split; [apply Hc1; reflexivity |].
    split; [rewrite <- Hl1; exact Hlink |]. split; [exact Hfail |].
    intros stage s Hs (v & Hv & Hvu). rewrite HS in Hs.
    apply (Hun eq_refl s); [apply (fair_elem order _ s Hfair); eauto |].
    exists v. rewrite <- Hh. split; assumption.
Qed.

End Compiling.

Lemma updateShader_compiles_concatenation_witness :
  updateShader broken 0 (mkState [shader.mk 3 ["a.vs"; "lib.glsl"] true] [])
  = Ret (Some (InfoLog [Byte.x65; Byte.x72; Byte.x00]),
         mkState [shader.mk 3 ["a.vs"; "lib.glsl"] false]
           [osOpen "a.vs"; osOpen "lib.glsl"; ioRead "a.vs"; ioRead "lib.glsl";
            callCompileSource 3 [[Byte.x76; Byte.x76]]]).
Proof.
  apply (updateShader_compiles_concatenation broken 0 (shader.mk 3 ["a.vs"; "lib.glsl"] true)
           (mkState [shader.mk 3 ["a.vs"; "lib.glsl"] true] []) (fun _ => [Byte.x76])).
  - reflexivity.
  - reflexivity.
  - intros l name. reflexivity.
  - intros l name. reflexivity.
Defined.

Lemma updateProgram_links_after_compiling_witness :
  exists r p' st',
    updateProgram calm (fun l => l)
      (program.mk 1 (<[35633 := 0%nat]> ∅) (<["a.vs" := [0%nat]]> ∅) true 0 0 0 0 0 0 0 0)
      (mkState [shader.mk 3 ["a.vs"] true] []) = Ret (r, p', st') /\
    exists evs1 evs2,
      log st' = [] ++ evs1 ++ evs2 /\
      Forall (fun e => shaderCall e = true) evs1 /\
      Forall (fun e => shaderCall e = false) evs2 /\
      ((evs2 = [] /\ r <> None) \/
       (exists rest, evs2 = callLinkProgram 1 :: rest /\
          compiled calm [] evs1 /\
          gxLinkProgram calm ([] ++ evs1) 1 = Ret r /\
          (r <> None -> rest = []) /\
          clean p' st')).
Proof.
  assert (H : exists r p' st',
            updateProgram calm (fun l => l)
              (program.mk 1 (<[35633 := 0%nat]> ∅) (<["a.vs" := [0%nat]]> ∅) true
                 0 0 0 0 0 0 0 0)
              (mkState [shader.mk 3 ["a.vs"] true] []) = Ret (r, p', st'))
    by (eexists _, _, _; vm_compute; reflexivity).
  destruct H as (r & p' & st' & H). exists r, p', st'. split; [exact H |].
  refine (updateProgram_links_after_compiling calm _ _ _ _ _ _ fair_id _ H). reflexivity.
Defined.
